(** * Personal-Portfolio: the particle background and the scroll-progress code

    A shallow embedding of [src/components/ParticleBackgroundOptimized.jsx]
    (spatial grid, particle update, connection pass, pointer force) and of the
    three scroll-progress computations ([hooks/useScrollOptimized],
    [App.jsx], [MagicalScrollEffects.jsx]).

    Numbers.  A JavaScript number is a binary64 float.  Three readings of
    the arithmetic are used, each where it is sound:

    - the grid, the frame and the connection pass are modelled over the real
      numbers [R]; their properties are about which particles are compared,
      drawn and kept, and the statements allow for the closed bounds that a
      rounded result can reach (a size of exactly 2.5, a position of exactly
      the canvas width).  The two operations of the pointer code whose
      result can leave the finite numbers on finite operands (a division by
      a computed value, a square root) are partial there, see [jsDiv] and
      [jsSqrt];
    - [Binary64] transcribes [Particle.update] and the pointer code over
      binary64 floats ([PrimFloat]): it is what the code computes, and it is
      used for the facts that depend on the last place (a coincident
      pointer, the speed left by the clamp).  The scroll code, whose claim
      is about [NaN] and [Infinity] themselves, is modelled the same way;
    - [Rounded] transcribes the constructor, [Particle.update] and the
      pointer code over [R] with a rounding after every operation; bounds
      are proved for every rounding within the error bounds of binary64
      ([standardModel]), of which [roundToNearest] is an instance.

    References.  A particle is a JavaScript object, and the grid buckets hold
    references to the objects of the [particles] array.  A reference is
    modelled by the index of the particle in that array, whose length never
    changes after initialisation; [particle === other] is equality of
    indices. *)

From Stdlib Require Import Reals Lra Lia ZArith List.
From Stdlib Require Floats.
From Stdlib Require Import Permutation.
From Stdlib Require Import Ascii.
From stdpp Require Import gmap strings pretty list.

(** ** Numbers *)

(** [a / b] where [b] is computed at run time: JavaScript yields [NaN] or an
    infinity when [b] is zero, which is [None] here. *)
Definition jsDiv (a b : R) : option R :=
  if Req_dec_T b 0 then None else Some (a / b)%R.

(** [Math.sqrt a]: [NaN] on a negative argument, which is [None] here. *)
Definition jsSqrt (a : R) : option R :=
  if Rlt_dec a 0 then None else Some (sqrt a).

(** ** The canvas and the drawing context *)

(** [canvas.width] and [canvas.height] are [unsigned long] attributes. *)
Record Canvas := { width : N; height : N }.

Definition canvasWidth (canvas : Canvas) : R := IZR (Z.of_N (width canvas)).
Definition canvasHeight (canvas : Canvas) : R := IZR (Z.of_N (height canvas)).

(** What the 2D context receives, in order.  [FillStyle color opacity] is the
    assignment of [this.color + this.opacity + ')']. *)
Inductive DrawCmd :=
| ClearRect (x0 y0 w h : R)
| GlobalAlpha (alpha : R)
| FillStyle (color : option string) (alpha : R)
| StrokeStyle (style : string)
| LineWidth (w : R)
| BeginPath
| Arc (cx cy radius startAngle endAngle : R)
| Fill
| Save
| MoveTo (px py : R)
| LineTo (px py : R)
| Stroke
| Restore.

(** ** Particles *)

Module Particle.

Record t := {
  x : R;
  y : R;
  size : R;
  speedX : R;
  speedY : R;
  color : option string;      (* [None] is [undefined] *)
  opacity : R;
  opacityDirection : Z        (* 1 or -1 *)
}.

(** The eight results of [Math.random()] consumed by one [new Particle()],
    in the order of the calls. *)
Record Draws := {
  rndX : R; rndY : R; rndSize : R; rndSpeedX : R; rndSpeedY : R;
  rndColor : R; rndOpacity : R; rndDirection : R
}.

(** [Math.random()] returns a number in [0, 1). *)
Definition unitInterval (r : R) : Prop := (0 <= r < 1)%R.

Definition validDraws (d : Draws) : Prop :=
  unitInterval (rndX d) /\ unitInterval (rndY d) /\ unitInterval (rndSize d) /\
  unitInterval (rndSpeedX d) /\ unitInterval (rndSpeedY d) /\
  unitInterval (rndColor d) /\ unitInterval (rndOpacity d) /\
  unitInterval (rndDirection d).

Definition colors : list string :=
  [ "rgba(139, 92, 246, "; "rgba(6, 182, 212, "; "rgba(236, 72, 153, " ]%string.

(** [colors[Math.floor(Math.random() * colors.length)]] *)
Definition getRandomColor (r : R) : option string :=
  match Zfloor (r * INR (length colors)) with
  | Zneg _ => None
  | i => colors !! Z.to_nat i
  end.

(** [new Particle()], in exact arithmetic.  The binary64 results can land on
    the end of a range that the exact ones stay below ([size] on 2.5 when
    [Math.random()] returns its largest value), so the statements about
    these fields give closed ranges; [Rounded.constructor] is the same code
    with the roundings. *)
Definition constructor (canvas : Canvas) (d : Draws) : t :=
  {| x := rndX d * canvasWidth canvas;
     y := rndY d * canvasHeight canvas;
     size := rndSize d * 2 + 0.5;
     speedX := (rndSpeedX d - 0.5) * 0.3;
     speedY := (rndSpeedY d - 0.5) * 0.3;
     color := getRandomColor (rndColor d);
     opacity := rndOpacity d * 0.4 + 0.2;
     opacityDirection := if Rlt_dec 0.5 (rndDirection d) then 1%Z else (-1)%Z |}%R.

(** One axis of the wrap: [if (v > bound) v = 0; if (v < 0) v = bound;] *)
Definition wrap (bound v : R) : R :=
  let v1 := if Rlt_dec bound v then 0%R else v in
  if Rlt_dec v1 0 then bound else v1.

Definition update (canvas : Canvas) (p : t) : t :=
  let x1 := (x p + speedX p)%R in
  let y1 := (y p + speedY p)%R in
  let x2 := wrap (canvasWidth canvas) x1 in
  let y2 := wrap (canvasHeight canvas) y1 in
  let opacity1 := (opacity p + IZR (opacityDirection p) * 0.005)%R in
  let direction1 :=
    if Rlt_dec 0.6 opacity1 then (-1)%Z else opacityDirection p in
  let direction2 :=
    if Rlt_dec opacity1 0.15 then 1%Z else direction1 in
  {| x := x2; y := y2; size := size p;
     speedX := speedX p; speedY := speedY p; color := color p;
     opacity := opacity1; opacityDirection := direction2 |}.

Definition draw (p : t) : list DrawCmd :=
  [ GlobalAlpha (opacity p);
    FillStyle (color p) (opacity p);
    BeginPath;
    Arc (x p) (y p) (size p) 0 (PI * 2);
    Fill ].

End Particle.

Abbreviation Particle := Particle.t.

(** ** The spatial grid *)

(** The template string [`${cellX},${cellY}`]. *)
Definition cellKey (cellX cellY : Z) : string :=
  pretty cellX +:+ "," +:+ pretty cellY.

(** [grid[cellKey].push(particle)], after creating the bucket when the key is
    new. *)
Definition pushToCell (grid : gmap string (list nat)) (cellSize : R)
    (ref : nat) (particle : Particle) : gmap string (list nat) :=
  let cellX := Zfloor (Particle.x particle / cellSize) in
  let cellY := Zfloor (Particle.y particle / cellSize) in
  let key := cellKey cellX cellY in
  match grid !! key with
  | None => <[key := [ref]]> grid
  | Some bucket => <[key := bucket ++ [ref]]> grid
  end.

(** The [forEach] of [buildGrid], from the particle of index [start] on. *)
Fixpoint buildGridFrom (grid : gmap string (list nat)) (cellSize : R)
    (start : nat) (particles : list Particle) : gmap string (list nat) :=
  match particles with
  | [] => grid
  | particle :: rest =>
      buildGridFrom (pushToCell grid cellSize start particle) cellSize (S start) rest
  end.

Definition buildGrid (particles : list Particle) (cellSize : R)
    : gmap string (list nat) :=
  buildGridFrom ∅ cellSize 0 particles.

(** The two nested loops over [-1, 0, 1]. *)
Definition getNearbyCells (cellX cellY : Z) : list string :=
  flat_map (fun dx => map (fun dy => cellKey (cellX + dx) (cellY + dy)) [-1; 0; 1]%Z)
           [-1; 0; 1]%Z.

(** ** The component state *)

Record MouseRef := { mouseX : R; mouseY : R; active : bool }.

(** The refs and closure variables of the effect: [canvas], [particles],
    [gridRef.current], [animationIdRef.current] ([None] is [null]),
    [lastMouseUpdateRef.current] and [mouseRef.current]. *)
Record Field := {
  canvas : Canvas;
  particles : list Particle;
  gridCells : gmap string (list nat);
  gridCellSize : R;
  animationIdRef : option N;
  lastMouseUpdateRef : Z;
  mouseRef : MouseRef
}.

(** ** Initialisation *)

(** [window.devicePixelRatio < 1 || !navigator.hardwareConcurrency], where
    [hardwareConcurrency] is [None] when the browser does not define it. *)
Definition isLowPowerDevice (devicePixelRatio : R) (hardwareConcurrency : option N)
    : bool :=
  if Rlt_dec devicePixelRatio 1 then true
  else match hardwareConcurrency with
       | None => true
       | Some n => (n =? 0)%N
       end.

(** [Math.floor(a / b)] on non-negative integers is the quotient [a / b] of
    [N]. *)
Definition particleCount (isLowPower : bool) (canvas : Canvas) : N :=
  if isLowPower
  then N.max 30 ((width canvas * height canvas) / 20000)
  else N.max 80 (N.min 100 ((width canvas * height canvas) / 8000)).

(** The loop [for (i = 0; i < particleCount; i++) particles.push(new Particle())];
    [rnd i] holds the random numbers drawn for the particle of index [i]. *)
Definition initParticles (canvas : Canvas) (count : N) (rnd : nat -> Particle.Draws)
    : list Particle :=
  map (fun i => Particle.constructor canvas (rnd i)) (seq 0 (N.to_nat count)).

(** The state at the first call of [animate]: [particleCount] is computed from
    the canvas as it is before [resizeCanvas], the particles are placed on the
    resized canvas. *)
Definition initialField (canvasAtMount resized : Canvas) (isLowPower : bool)
    (rnd : nat -> Particle.Draws) : Field :=
  {| canvas := resized;
     particles := initParticles resized (particleCount isLowPower canvasAtMount) rnd;
     gridCells := ∅;
     gridCellSize := 150;
     animationIdRef := None;
     lastMouseUpdateRef := 0;
     mouseRef := {| mouseX := 0; mouseY := 0; active := false |} |}.

(** ** The animation frame *)

(** [particles.forEach(particle => { particle.update(); particle.draw(); })]:
    the updated particles and the commands issued. *)
Fixpoint updateAndDraw (canvas : Canvas) (ps : list Particle)
    : list Particle * list DrawCmd :=
  match ps with
  | [] => ([], [])
  | p :: rest =>
      let p' := Particle.update canvas p in
      let '(rest', out) := updateAndDraw canvas rest in
      (p' :: rest', Particle.draw p' ++ out)
  end.

(** [!animationIdRef.current || animationIdRef.current % 3 === 0] *)
Definition gridIsDue (animationId : option N) : bool :=
  match animationId with
  | None => true
  | Some n => (n =? 0)%N || (n mod 3 =? 0)%N
  end.

(** [(animationIdRef.current || 0) + 1] *)
Definition nextAnimationId (animationId : option N) : N :=
  match animationId with
  | None => 1
  | Some n => n + 1
  end.

Definition distSq (particle other : Particle) : R :=
  let dx := (Particle.x particle - Particle.x other)%R in
  let dy := (Particle.y particle - Particle.y other)%R in
  (dx * dx + dy * dy)%R.

Definition maxDistSq : R := 120 * 120.

(** The buckets of the nine cells around the particle, concatenated:
    [nearbyCellKeys.forEach(key => { if (cells[key]) nearbyParticles.push(...cells[key]) })]. *)
Definition nearbyParticles (cells : gmap string (list nat)) (cellSize : R)
    (particle : Particle) : list nat :=
  let cellX := Zfloor (Particle.x particle / cellSize) in
  let cellY := Zfloor (Particle.y particle / cellSize) in
  let nearbyCellKeys := getNearbyCells cellX cellY in
  fold_left (fun nearby key =>
               match cells !! key with
               | Some bucket => nearby ++ bucket
               | None => nearby
               end) nearbyCellKeys [].

(** The body of [nearbyParticles.forEach(other => ...)] up to the decision to
    draw: the line from the particle of reference [i] to [other], when one is
    drawn.  A reference always points into [particles]. *)
Definition connectionTo (ps : list Particle) (i : nat) (particle : Particle)
    (other : nat) : list (nat * nat) :=
  if decide (i = other) then []
  else match ps !! other with
       | None => []
       | Some o => if Rlt_dec (distSq particle o) maxDistSq then [(i, other)] else []
       end.

Definition connectionsFrom (ps : list Particle) (cells : gmap string (list nat))
    (cellSize : R) (i : nat) (particle : Particle) : list (nat * nat) :=
  flat_map (connectionTo ps i particle) (nearbyParticles cells cellSize particle).

(** The lines of one connection pass, as pairs of references (from, to), in
    the order in which they are drawn. *)
Definition connectionLines (ps : list Particle) (cells : gmap string (list nat))
    (cellSize : R) : list (nat * nat) :=
  concat (imap (connectionsFrom ps cells cellSize) ps).

(** The commands between [ctx.save()] and [ctx.restore()] for one line. *)
Definition strokeLine (particle other : Particle) : list DrawCmd :=
  let distance := sqrt (distSq particle other) in
  [ Save;
    GlobalAlpha ((120 - distance) / 120 * 0.15);
    StrokeStyle "rgba(139, 92, 246, 0.3)";
    LineWidth 0.5;
    BeginPath;
    MoveTo (Particle.x particle) (Particle.y particle);
    LineTo (Particle.x other) (Particle.y other);
    Stroke;
    Restore ]%R.

Definition strokeLines (ps : list Particle) (lines : list (nat * nat))
    : list DrawCmd :=
  flat_map (fun line =>
              match ps !! line.1, ps !! line.2 with
              | Some particle, Some other => strokeLine particle other
              | _, _ => []
              end) lines.

(** One call of [animate]; [reducedMotion] is [mediaQuery.matches]. *)
Definition animate (reducedMotion : bool) (f : Field) : Field * list DrawCmd :=
  let cleared :=
    [ ClearRect 0 0 (canvasWidth (canvas f)) (canvasHeight (canvas f));
      GlobalAlpha 1 ] in
  let '(ps, drawn) := updateAndDraw (canvas f) (particles f) in
  let cells :=
    if gridIsDue (animationIdRef f) then buildGrid ps (gridCellSize f)
    else gridCells f in
  let connections :=
    if reducedMotion then []
    else strokeLines ps (connectionLines ps cells (gridCellSize f)) in
  ({| canvas := canvas f;
      particles := ps;
      gridCells := cells;
      gridCellSize := gridCellSize f;
      animationIdRef := Some (nextAnimationId (animationIdRef f));
      lastMouseUpdateRef := lastMouseUpdateRef f;
      mouseRef := mouseRef f |},
   cleared ++ drawn ++ connections).

(** ** The pointer force *)

Definition interactionRadius : R := 100.
Definition maxSpeed : R := 1.5.

(** The body of [particles.forEach] in [handleMouseMove], in exact
    arithmetic.  [None] means that a [NaN] or an infinity was produced on
    the way.  This reading serves the statements about what a pointer event
    leaves alone (positions, sizes, colours, opacities, the number of
    particles); the velocities it writes differ from the computed ones in
    the last places, and the statements about them are made on
    [Binary64.mouseInteraction] and [Rounded.mouseInteraction]. *)
Definition mouseInteraction (mouse : MouseRef) (particle : Particle)
    : option Particle :=
  let dx := (mouseX mouse - Particle.x particle)%R in
  let dy := (mouseY mouse - Particle.y particle)%R in
  distance ← jsSqrt (dx * dx + dy * dy);
  if Rlt_dec distance interactionRadius then
    force ← jsDiv (interactionRadius - distance) interactionRadius;
    let speedX1 := (Particle.speedX particle + dx * force * 0.005)%R in
    let speedY1 := (Particle.speedY particle + dy * force * 0.005)%R in
    speed ← jsSqrt (speedX1 ^ 2 + speedY1 ^ 2);
    if Rlt_dec maxSpeed speed then
      ratioX ← jsDiv speedX1 speed;
      let speedX2 := (ratioX * maxSpeed)%R in
      ratioY ← jsDiv speedY1 speed;
      let speedY2 := (ratioY * maxSpeed)%R in
      Some {| Particle.x := Particle.x particle; Particle.y := Particle.y particle;
              Particle.size := Particle.size particle;
              Particle.speedX := speedX2; Particle.speedY := speedY2;
              Particle.color := Particle.color particle;
              Particle.opacity := Particle.opacity particle;
              Particle.opacityDirection := Particle.opacityDirection particle |}
    else
      Some {| Particle.x := Particle.x particle; Particle.y := Particle.y particle;
              Particle.size := Particle.size particle;
              Particle.speedX := speedX1; Particle.speedY := speedY1;
              Particle.color := Particle.color particle;
              Particle.opacity := Particle.opacity particle;
              Particle.opacityDirection := Particle.opacityDirection particle |}
  else Some particle.

Record MouseEvent := { clientX : R; clientY : R }.

(** [canvas.getBoundingClientRect()], of which only [left] and [top] are read. *)
Record ClientRect := { left : R; top : R }.

(** [handleMouseMove(event)] when [Date.now()] is [now]. *)
Definition handleMouseMove (now : Z) (rect : ClientRect) (event : MouseEvent)
    (f : Field) : option Field :=
  if (now - lastMouseUpdateRef f <? 32)%Z then Some f
  else
    let mouse := {| mouseX := clientX event - left rect;
                    mouseY := clientY event - top rect;
                    active := true |} in
    ps ← mapM (mouseInteraction mouse) (particles f);
    Some {| canvas := canvas f;
            particles := ps;
            gridCells := gridCells f;
            gridCellSize := gridCellSize f;
            animationIdRef := animationIdRef f;
            lastMouseUpdateRef := now;
            mouseRef := mouse |}.

Definition handleMouseLeave (f : Field) : Field :=
  {| canvas := canvas f;
     particles := particles f;
     gridCells := gridCells f;
     gridCellSize := gridCellSize f;
     animationIdRef := animationIdRef f;
     lastMouseUpdateRef := lastMouseUpdateRef f;
     mouseRef := {| mouseX := mouseX (mouseRef f); mouseY := mouseY (mouseRef f);
                    active := false |} |}.

(** The speed of a particle, [Math.sqrt(speedX ** 2 + speedY ** 2)]. *)
Definition speedOf (p : Particle) : R :=
  sqrt (Particle.speedX p ^ 2 + Particle.speedY p ^ 2).

(** ** The brute-force connection pass *)

(** The body of the inner loop of [bruteForceLines]: the line from the
    particle of reference [i] to the one of reference [j], when they are two
    particles closer than the threshold. *)
Definition bruteForceTo (ps : list Particle) (i j : nat) : list (nat * nat) :=
  match ps !! i, ps !! j with
  | Some particle, Some other =>
      if decide (i = j) then []
      else if Rlt_dec (distSq particle other) maxDistSq then [(i, j)] else []
  | _, _ => []
  end.

(** The reference the grid pass is compared with: every ordered pair of two
    different particles whose squared distance is below the threshold. *)
Definition bruteForceLines (ps : list Particle) : list (nat * nat) :=
  flat_map (fun i => flat_map (bruteForceTo ps i) (seq 0 (length ps)))
           (seq 0 (length ps)).

(** [clamp v lo hi]: [v] when it lies between the bounds, else the bound it
    passes. *)
Definition clamp (v lo hi : N) : N :=
  if (v <? lo)%N then lo else if (hi <? v)%N then hi else v.

(** ** Scroll progress *)

(** What the scroll handlers hand to the state setters. *)
Record ScrollState := {
  scrollY : PrimFloat.float;
  scrollProgress : PrimFloat.float;
  scrolled : bool
}.

Module UseScrollOptimized.
Import PrimFloat.

(** [docHeight > 0 ? (scrollTop / docHeight) * 100 : 0] *)
Definition scrollPercent (scrollTop scrollHeight innerHeight : float) : float :=
  let docHeight := (scrollHeight - innerHeight)%float in
  if (0 <? docHeight)%float then (scrollTop / docHeight * 100)%float else 0%float.

Definition handleScroll (scrollTop scrollHeight innerHeight : float) : ScrollState :=
  {| scrollY := scrollTop;
     scrollProgress := scrollPercent scrollTop scrollHeight innerHeight;
     scrolled := (50 <? scrollTop)%float |}.
End UseScrollOptimized.

Module App.
Import PrimFloat.

(** [(scrollTop / docHeight) * 100] *)
Definition scrollPercent (scrollTop scrollHeight innerHeight : float) : float :=
  let docHeight := (scrollHeight - innerHeight)%float in
  (scrollTop / docHeight * 100)%float.

Definition handleScroll (scrollTop scrollHeight innerHeight : float) : ScrollState :=
  {| scrollY := scrollTop;
     scrollProgress := scrollPercent scrollTop scrollHeight innerHeight;
     scrolled := (50 <? scrollTop)%float |}.
End App.

Module MagicalScrollEffects.
Import PrimFloat.

(** The number in the [width] of the progress ray,
    [(scrollY / (scrollHeight - innerHeight)) * 100]. *)
Definition progressWidth (scrollY scrollHeight innerHeight : float) : float :=
  (scrollY / (scrollHeight - innerHeight) * 100)%float.
End MagicalScrollEffects.

(** A float that is neither [NaN] nor an infinity. *)
Definition isFinite (v : PrimFloat.float) : bool :=
  negb (PrimFloat.is_nan v) && negb (PrimFloat.is_infinity v).

(** ** The states of the component *)

(** [resizeCanvas] assigns new dimensions to the canvas and touches nothing
    else of the state; [resized] holds the dimensions that
    [window.innerWidth * dpr] and [window.innerHeight * dpr] are converted
    to. *)
Definition resizeCanvas (resized : Canvas) (f : Field) : Field :=
  {| canvas := resized;
     particles := particles f;
     gridCells := gridCells f;
     gridCellSize := gridCellSize f;
     animationIdRef := animationIdRef f;
     lastMouseUpdateRef := lastMouseUpdateRef f;
     mouseRef := mouseRef f |}.

(** The states the component can be in: the initial one, built from results
    of [Math.random()], and those reached from it by the frames and by the
    resize, mouse-move and mouse-leave handlers. *)
Inductive reachable : Field -> Prop :=
| reach_initial canvasAtMount resized isLowPower rnd :
    (forall i, Particle.validDraws (rnd i)) ->
    reachable (initialField canvasAtMount resized isLowPower rnd)
| reach_animate reducedMotion f :
    reachable f -> reachable (animate reducedMotion f).1
| reach_resize resized f :
    reachable f -> reachable (resizeCanvas resized f)
| reach_mouseMove now rect event f f' :
    reachable f -> handleMouseMove now rect event f = Some f' -> reachable f'
| reach_mouseLeave f :
    reachable f -> reachable (handleMouseLeave f).

(** ** Frames in sequence *)

(** The state after the first [n] frames; [reduced k] is
    [mediaQuery.matches] during the frame of index [k]. *)
Fixpoint afterFrames (reduced : nat -> bool) (n : nat) (f : Field) : Field :=
  match n with
  | O => f
  | S k => (animate (reduced k) (afterFrames reduced k f)).1
  end.

(** The command that paints a particle. *)
Definition isFill (cmd : DrawCmd) : bool :=
  match cmd with Fill => true | _ => false end.

(** How many commands of a frame pass [test]. *)
Definition countCmds (test : DrawCmd -> bool) (cmds : list DrawCmd) : nat :=
  length (List.filter test cmds).

(** What [new Particle()] fixes for the life of a particle: a size in
    [0.5, 2.5] and one of the three colours.  The random number is below 1,
    but in binary64 the largest one, 1 - 2^-53, gives [r * 2 + 0.5] the
    value 2.5 itself, so the interval is closed. *)
Definition constructed (p : Particle) : Prop :=
  (0.5 <= Particle.size p <= 2.5)%R /\
  exists c, Particle.color p = Some c /\ c ∈ Particle.colors.

(** ** The scroll hooks: [throttle], [debounce] and the handlers they wrap *)

Module ScrollHooks.
Import PrimFloat.

(** What happens to a wrapped function: it is called with [args] when
    [Date.now()] is [now], or the timeout it has pending runs its callback
    when [Date.now()] is [now]. *)
Inductive TimerEvent (A : Type) : Type :=
| Called (now : Z) (args : A)
| Expired (now : Z).
Arguments Called {A} now args.
Arguments Expired {A} now.

(** The closure variables of [throttle]; a pending timeout is the time it
    is due at and the arguments its callback will pass on. *)
Record Throttle (A : Type) : Type := {
  lastTime : Z;
  timeoutId : option (Z * A)
}.
Arguments lastTime {A} _.
Arguments timeoutId {A} _.

Definition throttleInitial {A : Type} : Throttle A :=
  {| lastTime := 0; timeoutId := None |}.

(** One call of [throttled(...args)]: the new closure variables and the
    calls of [callback] made, each with the time it is made at. *)
Definition throttled {A : Type} (delay : Z) (st : Throttle A) (now : Z) (args : A)
    : Throttle A * list (Z * A) :=
  let timeSinceLastCall := (now - lastTime st)%Z in
  if (delay <=? timeSinceLastCall)%Z
  then ({| lastTime := now; timeoutId := None |}, [(now, args)])
  else ({| lastTime := lastTime st;
           timeoutId := Some (now + (delay - timeSinceLastCall), args)%Z |}, []).

(** The callback of the timeout of [throttle], run when [Date.now()] is
    [now]. *)
Definition throttleTimeout {A : Type} (st : Throttle A) (now : Z)
    : Throttle A * list (Z * A) :=
  match timeoutId st with
  | Some (_, args) => ({| lastTime := now; timeoutId := None |}, [(now, args)])
  | None => (st, [])
  end.

Definition throttleStep {A : Type} (delay : Z) (st : Throttle A) (ev : TimerEvent A)
    : Throttle A * list (Z * A) :=
  match ev with
  | Called now args => throttled delay st now args
  | Expired now => throttleTimeout st now
  end.

Fixpoint throttleRun {A : Type} (delay : Z) (st : Throttle A)
    (events : list (TimerEvent A)) : Throttle A * list (Z * A) :=
  match events with
  | [] => (st, [])
  | ev :: rest =>
      let '(st1, out1) := throttleStep delay st ev in
      let '(st2, out2) := throttleRun delay st1 rest in
      (st2, out1 ++ out2)
  end.

(** No timeout runs before it is due. *)
Fixpoint throttlePunctual {A : Type} (delay : Z) (st : Throttle A)
    (events : list (TimerEvent A)) : Prop :=
  match events with
  | [] => True
  | ev :: rest =>
      match ev, timeoutId st with
      | Expired now, Some (due, _) => (due <= now)%Z
      | _, _ => True
      end /\ throttlePunctual delay (throttleStep delay st ev).1 rest
  end.

(** A pending timeout of [throttle] is due [delay] after the last call of
    the callback. *)
Definition throttleDue {A : Type} (delay : Z) (st : Throttle A) : Prop :=
  forall due args, timeoutId st = Some (due, args) -> due = (lastTime st + delay)%Z.

(** Successive times are at least [delay] apart. *)
Definition spaced (delay : Z) (times : list Z) : Prop :=
  forall i a b, times !! i = Some a -> times !! S i = Some b -> (delay <= b - a)%Z.

(** The closure variable of [debounce]: the pending timeout, if any. *)
Definition Debounce (A : Type) : Type := option (Z * A).

(** One call of [debounced(...args)]: the pending timeout is replaced. *)
Definition debounced {A : Type} (delay : Z) (st : Debounce A) (now : Z) (args : A)
    : Debounce A * list (Z * A) :=
  (Some ((now + delay)%Z, args), []).

Definition debounceTimeout {A : Type} (st : Debounce A) (now : Z)
    : Debounce A * list (Z * A) :=
  match st with
  | Some (_, args) => (None, [(now, args)])
  | None => (None, [])
  end.

Definition debounceStep {A : Type} (delay : Z) (st : Debounce A) (ev : TimerEvent A)
    : Debounce A * list (Z * A) :=
  match ev with
  | Called now args => debounced delay st now args
  | Expired now => debounceTimeout st now
  end.

Fixpoint debounceRun {A : Type} (delay : Z) (st : Debounce A)
    (events : list (TimerEvent A)) : Debounce A * list (Z * A) :=
  match events with
  | [] => (st, [])
  | ev :: rest =>
      let '(st1, out1) := debounceStep delay st ev in
      let '(st2, out2) := debounceRun delay st1 rest in
      (st2, out1 ++ out2)
  end.

Fixpoint debouncePunctual {A : Type} (delay : Z) (st : Debounce A)
    (events : list (TimerEvent A)) : Prop :=
  match events with
  | [] => True
  | ev :: rest =>
      match ev, st with
      | Expired now, Some (due, _) => (due <= now)%Z
      | _, _ => True
      end /\ debouncePunctual delay (debounceStep delay st ev).1 rest
  end.

(** The direction part of [handleScroll] of [useScrollOptimized]: the new
    [direction] state and the new [lastScrollYRef.current]. *)
Definition handleScrollDirection (direction : string) (lastScrollY scrollTop : float)
    : string * float :=
  let newDirection := if (lastScrollY <? scrollTop)%float then "down" else "up" in
  let direction' :=
    if negb (String.eqb newDirection direction)
       && (10 <? abs (scrollTop - lastScrollY))%float
    then newDirection else direction in
  (direction', scrollTop).

(** The handler of [useScrollDirectionOptimized]. *)
Definition scrollDirectionOptimized (scrollDirection : string)
    (lastScrollY scrollY : float) : string * float :=
  let direction := if (lastScrollY <? scrollY)%float then "down" else "up" in
  (if (10 <? abs (scrollY - lastScrollY))%float then direction else scrollDirection,
   scrollY).

(** [handleScrollDirection] at each scroll position of [tops] in turn. *)
Definition scrollThrough (direction : string) (lastScrollY : float)
    (tops : list float) : string * float :=
  fold_left (fun st scrollTop => handleScrollDirection st.1 st.2 scrollTop)
            tops (direction, lastScrollY).

(** Every step of the scroll is one that the handler does not measure as
    longer than 10. *)
Fixpoint smallSteps (lastScrollY : float) (tops : list float) : Prop :=
  match tops with
  | [] => True
  | scrollTop :: rest =>
      (10 <? abs (scrollTop - lastScrollY))%float = false /\ smallSteps scrollTop rest
  end.

(** [top] and [bottom] of [element.getBoundingClientRect()]. *)
Record SectionRect := { rectTop : float; rectBottom : float }.

Definition sections : list string :=
  [ "home"; "about"; "skills"; "experience"; "projects"; "contact" ].

(** [rect.top <= 200 && rect.bottom >= 200] *)
Definition inViewport (rect : SectionRect) : bool :=
  (rectTop rect <=? 200)%float && (200 <=? rectBottom rect)%float.

(** The loop of [detectActiveSection] over the sections left to visit;
    [layout section] is the rectangle of the element of that id, [None] when
    there is no such element.  It returns [sectionCacheRef.current] and the
    [activeSection] state. *)
Fixpoint detectLoop (layout : string -> option SectionRect) (todo : list string)
    (cache : gmap string SectionRect) (activeSection : string)
    : gmap string SectionRect * string :=
  match todo with
  | [] => (cache, activeSection)
  | section :: rest =>
      match layout section with
      | Some rect =>
          let cache' := <[section := rect]> cache in
          if inViewport rect then (cache', section)
          else detectLoop layout rest cache' activeSection
      | None => detectLoop layout rest cache activeSection
      end
  end.

Definition detectActiveSection (layout : string -> option SectionRect)
    (cache : gmap string SectionRect) (activeSection : string)
    : gmap string SectionRect * string :=
  detectLoop layout sections cache activeSection.

(** The section detection of [handleScroll] in [App.jsx]:
    [sections.find(...)], then [if (current) setActiveSection(current)]. *)
Definition appActiveSection (layout : string -> option SectionRect)
    (activeSection : string) : string :=
  match find (fun section =>
                match layout section with
                | Some rect => inViewport rect
                | None => false
                end) sections with
  | Some current => if String.eqb current "" then activeSection else current
  | None => activeSection
  end.

End ScrollHooks.

(** ** The sparks of [MagicalScrollEffects] *)

Module Sparks.
Import PrimFloat.
#[local] Set Warnings "-inexact-float".

Record Spark := {
  id : float;
  x : float;
  y : float;
  life : float;
  color : string
}.

(** [prev.slice(-n)]: the last [n] elements, all of them when there are
    fewer. *)
Definition sliceLast {A : Type} (n : nat) (prev : list A) : list A :=
  drop (length prev - n) prev.

(** The four results of [Math.random()] of one [handleScroll], in the order
    of the calls. *)
Record Draws := { rndId : float; rndX : float; rndY : float; rndColor : float }.

(** [handleScroll] when the [scrollY] state is [scrollY], [window.scrollY] is
    [newScrollY] and [Date.now()] is [now]: the new [particles] state. *)
Definition handleScroll (scrollY newScrollY now innerWidth innerHeight : float)
    (d : Draws) (prev : list Spark) : list Spark :=
  if (5 <? abs (newScrollY - scrollY))%float then
    let newParticle :=
      {| id := (now + rndId d)%float;
         x := (rndX d * innerWidth)%float;
         y := (newScrollY + innerHeight * rndY d)%float;
         life := 1%float;
         color := if (0.5 <? rndColor d)%float then "purple" else "cyan" |} in
    sliceLast 20 prev ++ [newParticle]
  else prev.

(** [prev.map(p => ({ ...p, life: p.life - 0.02 })).filter(p => p.life > 0)] *)
Definition animateParticles (prev : list Spark) : list Spark :=
  filter (fun p => (0 <? life p)%float = true)
    (map (fun p => {| id := id p; x := x p; y := y p;
                      life := (life p - 0.02)%float; color := color p |}) prev).

(** [n] calls of [animateParticles]. *)
Fixpoint animateTimes (n : nat) (prev : list Spark) : list Spark :=
  match n with
  | O => prev
  | S k => animateTimes k (animateParticles prev)
  end.

End Sparks.

(** ** The pointer force in binary64 *)

(** The pointer code once more, over the binary64 floats a JavaScript number
    is: what the running code computes, digit for digit.  [a ** 2] is read
    as [a * a]. *)
Module Binary64.
Import PrimFloat.
#[local] Set Warnings "-inexact-float".

Record Particle := {
  x : float;
  y : float;
  size : float;
  speedX : float;
  speedY : float;
  color : option string;
  opacity : float;
  opacityDirection : float
}.

Record MouseRef := { mouseX : float; mouseY : float; active : bool }.

Definition interactionRadius : float := 100.
Definition maxSpeed : float := 1.5.

(** The body of [particles.forEach] in [handleMouseMove]. *)
Definition mouseInteraction (mouse : MouseRef) (particle : Particle) : Particle :=
  let dx := (mouseX mouse - x particle)%float in
  let dy := (mouseY mouse - y particle)%float in
  let distance := sqrt (dx * dx + dy * dy) in
  if (distance <? interactionRadius)%float then
    let force := ((interactionRadius - distance) / interactionRadius)%float in
    let speedX1 := (speedX particle + dx * force * 0.005)%float in
    let speedY1 := (speedY particle + dy * force * 0.005)%float in
    let speed := sqrt (speedX1 * speedX1 + speedY1 * speedY1) in
    if (maxSpeed <? speed)%float then
      {| x := x particle; y := y particle; size := size particle;
         speedX := (speedX1 / speed * maxSpeed)%float;
         speedY := (speedY1 / speed * maxSpeed)%float;
         color := color particle; opacity := opacity particle;
         opacityDirection := opacityDirection particle |}
    else
      {| x := x particle; y := y particle; size := size particle;
         speedX := speedX1; speedY := speedY1;
         color := color particle; opacity := opacity particle;
         opacityDirection := opacityDirection particle |}
  else particle.

(** The speed of a particle as the code computes it,
    [Math.sqrt(speedX ** 2 + speedY ** 2)]. *)
Definition speedOf (p : Particle) : float :=
  sqrt (speedX p * speedX p + speedY p * speedY p).

(** One axis of the wrap of [update]. *)
Definition wrap (bound v : float) : float :=
  let v1 := if (bound <? v)%float then 0%float else v in
  if (v1 <? 0)%float then bound else v1.

(** [update] on a canvas [canvasWidth] wide and [canvasHeight] high. *)
Definition update (canvasWidth canvasHeight : float) (p : Particle) : Particle :=
  let x1 := (x p + speedX p)%float in
  let y1 := (y p + speedY p)%float in
  let opacity1 := (opacity p + opacityDirection p * 0.005)%float in
  let direction1 :=
    if (0.6 <? opacity1)%float then (-1)%float else opacityDirection p in
  let direction2 :=
    if (opacity1 <? 0.15)%float then 1%float else direction1 in
  {| x := wrap canvasWidth x1; y := wrap canvasHeight y1; size := size p;
     speedX := speedX p; speedY := speedY p; color := color p;
     opacity := opacity1; opacityDirection := direction2 |}.

(** The real number a finite float denotes (0 for the others). *)
Definition toReal (v : float) : R :=
  match FloatOps.Prim2SF v with
  | SpecFloat.S754_finite s m e =>
      let magnitude :=
        if (0 <=? e)%Z then IZR (Z.pos m * 2 ^ e)
        else (IZR (Z.pos m) / IZR (2 ^ (- e)))%R in
      if s then (- magnitude)%R else magnitude
  | _ => 0%R
  end.

(** The exact length of the velocity of a particle. *)
Definition exactSpeed (p : Particle) : R :=
  R_sqrt.sqrt (toReal (speedX p) ^ 2 + toReal (speedY p) ^ 2)%R.

(** Two floats that are the same, or two zeros (of any signs): the same
    number. *)
Definition sameNumber (a b : float) : Prop :=
  a = b \/
  exists s s', FloatOps.Prim2SF a = SpecFloat.S754_zero s /\
               FloatOps.Prim2SF b = SpecFloat.S754_zero s'.

(** The particle [new Particle()] builds on a 800 x 600 canvas when
    [Math.random()] returns 0.25, 0.5, 0.5, 0.75, 0.25, 0.5, 0.9 and 0.75. *)
Definition sampleParticle : Particle :=
  {| x := 0.25 * 800; y := 0.5 * 600; size := 0.5 * 2 + 0.5;
     speedX := (0.75 - 0.5) * 0.3; speedY := (0.25 - 0.5) * 0.3;
     color := Some "rgba(6, 182, 212, "%string;
     opacity := 0.9 * 0.4 + 0.2; opacityDirection := 1 |}%float.

(** Two frames on the 800 x 600 canvas, then an accepted pointer event with
    the pointer at (250, 300). *)
Definition twoFramesAndPointer (p : Particle) : Particle :=
  mouseInteraction {| mouseX := 250; mouseY := 300; active := true |}
    (update 800 600 (update 800 600 p)).

(** [sampleParticle] after [n] rounds of [twoFramesAndPointer]. *)
Fixpoint afterRounds (n : nat) : Particle :=
  match n with
  | O => sampleParticle
  | S k => twoFramesAndPointer (afterRounds k)
  end.

End Binary64.

(** ** The pointer force with rounding *)

(** The pointer code a third time, over the reals with the rounding of
    every operation made explicit: each operation of the code is the exact
    operation followed by [rnd].  The constants 100 and 1.5 are binary64
    numbers; 0.005 is not and is rounded.  [a ** 2] is read as [a * a]. *)
Module Rounded.
Section Arithmetic.
Variable rnd : R -> R.

(** [Math.sqrt(a * a + b * b)] *)
Definition computedLength (a b : R) : R :=
  rnd (sqrt (rnd (rnd (a * a) + rnd (b * b)))).

(** The body of [particles.forEach] in [handleMouseMove]. *)
Definition mouseInteraction (mouse : MouseRef) (particle : Particle) : Particle :=
  let dx := rnd (mouseX mouse - Particle.x particle) in
  let dy := rnd (mouseY mouse - Particle.y particle) in
  let distance := rnd (sqrt (rnd (rnd (dx * dx) + rnd (dy * dy)))) in
  if Rlt_dec distance interactionRadius then
    let force := rnd (rnd (interactionRadius - distance) / interactionRadius) in
    let speedX1 :=
      rnd (Particle.speedX particle + rnd (rnd (dx * force) * rnd 0.005)) in
    let speedY1 :=
      rnd (Particle.speedY particle + rnd (rnd (dy * force) * rnd 0.005)) in
    let speed :=
      rnd (sqrt (rnd (rnd (speedX1 * speedX1) + rnd (speedY1 * speedY1)))) in
    if Rlt_dec maxSpeed speed then
      {| Particle.x := Particle.x particle; Particle.y := Particle.y particle;
         Particle.size := Particle.size particle;
         Particle.speedX := rnd (rnd (speedX1 / speed) * maxSpeed);
         Particle.speedY := rnd (rnd (speedY1 / speed) * maxSpeed);
         Particle.color := Particle.color particle;
         Particle.opacity := Particle.opacity particle;
         Particle.opacityDirection := Particle.opacityDirection particle |}
    else
      {| Particle.x := Particle.x particle; Particle.y := Particle.y particle;
         Particle.size := Particle.size particle;
         Particle.speedX := speedX1; Particle.speedY := speedY1;
         Particle.color := Particle.color particle;
         Particle.opacity := Particle.opacity particle;
         Particle.opacityDirection := Particle.opacityDirection particle |}
  else particle.

(** [colors[Math.floor(Math.random() * colors.length)]] *)
Definition getRandomColor (r : R) : option string :=
  match Zfloor (rnd (r * INR (length Particle.colors))) with
  | Zneg _ => None
  | i => Particle.colors !! Z.to_nat i
  end.

(** [new Particle()]; 2 and 0.5 are binary64 numbers, 0.3, 0.4 and 0.2 are
    rounded. *)
Definition constructor (canvas : Canvas) (d : Particle.Draws) : Particle :=
  {| Particle.x := rnd (Particle.rndX d * canvasWidth canvas);
     Particle.y := rnd (Particle.rndY d * canvasHeight canvas);
     Particle.size := rnd (rnd (Particle.rndSize d * 2) + 0.5);
     Particle.speedX := rnd (rnd (Particle.rndSpeedX d - 0.5) * rnd 0.3);
     Particle.speedY := rnd (rnd (Particle.rndSpeedY d - 0.5) * rnd 0.3);
     Particle.color := getRandomColor (Particle.rndColor d);
     Particle.opacity := rnd (rnd (Particle.rndOpacity d * rnd 0.4) + rnd 0.2);
     Particle.opacityDirection :=
       if Rlt_dec 0.5 (Particle.rndDirection d) then 1%Z else (-1)%Z |}.

(** [update]; the constants 0.005, 0.6 and 0.15 are rounded. *)
Definition update (canvas : Canvas) (p : Particle) : Particle :=
  let x1 := rnd (Particle.x p + Particle.speedX p) in
  let y1 := rnd (Particle.y p + Particle.speedY p) in
  let x2 := Particle.wrap (canvasWidth canvas) x1 in
  let y2 := Particle.wrap (canvasHeight canvas) y1 in
  let opacity1 :=
    rnd (Particle.opacity p + rnd (IZR (Particle.opacityDirection p) * rnd 0.005)) in
  let direction1 :=
    if Rlt_dec (rnd 0.6) opacity1 then (-1)%Z else Particle.opacityDirection p in
  let direction2 :=
    if Rlt_dec opacity1 (rnd 0.15) then 1%Z else direction1 in
  {| Particle.x := x2; Particle.y := y2; Particle.size := Particle.size p;
     Particle.speedX := Particle.speedX p; Particle.speedY := Particle.speedY p;
     Particle.color := Particle.color p;
     Particle.opacity := opacity1; Particle.opacityDirection := direction2 |}.

(** The states a particle can be in: built by the constructor from results
    of [Math.random()], then updated by frames on canvases of any size and
    pulled by accepted pointer events at any position, in any order. *)
Inductive reachable : Particle -> Prop :=
| built canvas d :
    Particle.validDraws d -> reachable (constructor canvas d)
| updated canvas p :
    reachable p -> reachable (update canvas p)
| pulled mouse p :
    reachable p -> reachable (mouseInteraction mouse p).

End Arithmetic.
End Rounded.

(** The unit roundoff of binary64, half the distance from 1 to the next
    float. *)
Definition unitRoundoff : R := (/ 2 ^ 53)%R.

(** Half the smallest positive binary64 number: the largest error of a
    rounding that underflows. *)
Definition underflowError : R := (/ 2 ^ 1075)%R.

(** What rounding to nearest in binary64 guarantees of the result of an
    operation whose exact value is [x], as long as it does not overflow: an
    error of at most [unitRoundoff] relative to [x], or of at most
    [underflowError] when the result is subnormal. *)
Definition standardModel (rnd : R -> R) : Prop :=
  forall x, (Rabs (rnd x - x) <= unitRoundoff * Rabs x + underflowError)%R.

(** How far above [maxSpeed] rounding can leave a speed. *)
Definition speedSlack : R := (/ 10 ^ 15)%R.

(** The exponent of the binade of [x]: [2 ^ e <= |x| < 2 ^ (e + 1)]. *)
Definition binadeOf (x : R) : Z := Zfloor (ln (Rabs x) / ln 2).

(** The exponent of the binary64 grid around [x].  With 53 significant
    bits, the binary64 numbers of the binade of exponent [e] are the
    multiples of [2 ^ (e - 52)]; below [2 ^ -1022] they are the multiples of
    [2 ^ -1074]. *)
Definition gridExponent (x : R) : Z := Z.max (-1074) (binadeOf x - 52).

(** Rounding to a nearest number of the binary64 grid.  A tie goes upward
    here (binary64 sends it to the neighbour with the even mantissa), and
    the grid is continued above the largest binary64 number, where the code
    would produce an infinity. *)
Definition roundToNearest (x : R) : R :=
  (IZR (Zfloor (x / powerRZ 2 (gridExponent x) + / 2))
   * powerRZ 2 (gridExponent x))%R.

(** What the oscillator keeps true under rounding: the opacity stays within
    a step and a little of the two thresholds, and once it is clearly past a
    threshold the direction points back. *)
Definition oscillatesRounded (p : Particle) : Prop :=
  (0.144 <= Particle.opacity p <= 0.606)%R /\
  (Particle.opacityDirection p = 1%Z \/ Particle.opacityDirection p = (-1)%Z) /\
  ((0.6001 < Particle.opacity p)%R -> Particle.opacityDirection p = (-1)%Z) /\
  ((Particle.opacity p < 0.1499)%R -> Particle.opacityDirection p = 1%Z).

(** ** Notions used in the statements *)

(** What the oscillator keeps true: the opacity stays within one step of
    the two thresholds, and once it has passed a threshold the direction
    points back. *)
Definition oscillates (p : Particle) : Prop :=
  (0.145 <= Particle.opacity p <= 0.605)%R /\
  (Particle.opacityDirection p = 1%Z \/ Particle.opacityDirection p = (-1)%Z) /\
  ((0.6 < Particle.opacity p)%R -> Particle.opacityDirection p = (-1)%Z) /\
  ((Particle.opacity p < 0.15)%R -> Particle.opacityDirection p = 1%Z).

(** The particle after one [update] per canvas of [canvases] (the canvas
    may be resized between two frames). *)
Definition afterUpdates (canvases : list Canvas) (p : Particle) : Particle :=
  fold_left (fun q canvas => Particle.update canvas q) canvases p.

(** The command that paints a line; particles are painted with [Fill]. *)
Definition isStroke (cmd : DrawCmd) : bool :=
  match cmd with Stroke => true | _ => false end.

Fixpoint hasComma (s : string) : bool :=
  match s with
  | EmptyString => false
  | String c rest => if Ascii.eqb c ","%char then true else hasComma rest
  end.

(** The key of the cell a particle lies in. *)
Definition cellOf (cellSize : R) (p : Particle) : string :=
  cellKey (Zfloor (Particle.x p / cellSize)) (Zfloor (Particle.y p / cellSize)).

(** The references, from [start] on, of the particles of [ps] that lie in the
    cell of key [key], in the order of [ps]. *)
Fixpoint membersFrom (cellSize : R) (key : string) (start : nat)
    (ps : list Particle) : list nat :=
  match ps with
  | [] => []
  | p :: rest =>
      if decide (cellOf cellSize p = key)
      then start :: membersFrom cellSize key (S start) rest
      else membersFrom cellSize key (S start) rest
  end.

(** ** Sample data *)

Definition canvas800x600 : Canvas := {| width := 800; height := 600 |}.

(** The size a canvas element has before anything assigns its dimensions. *)
Definition defaultCanvas : Canvas := {| width := 300; height := 150 |}.

(** The canvas as [resizeCanvas] leaves it in a 1920 x 1080 window at a
    device pixel ratio of 1. *)
Definition canvas1920x1080 : Canvas := {| width := 1920; height := 1080 |}.

(** A particle at the left edge that moves left. *)
Definition leftEdgeParticle : Particle :=
  {| Particle.x := 0; Particle.y := 300; Particle.size := 1;
     Particle.speedX := -0.1; Particle.speedY := 0;
     Particle.color := Some "rgba(6, 182, 212, "%string;
     Particle.opacity := 0.3; Particle.opacityDirection := 1 |}%R.

Definition sampleDraws : Particle.Draws :=
  {| Particle.rndX := 0.25; Particle.rndY := 0.5; Particle.rndSize := 0.5;
     Particle.rndSpeedX := 0.75; Particle.rndSpeedY := 0.25;
     Particle.rndColor := 0.5; Particle.rndOpacity := 0.9;
     Particle.rndDirection := 0.75 |}%R.

(** A particle at rest at the position ([px], [py]). *)
Definition restingAt (px py : R) : Particle :=
  {| Particle.x := px; Particle.y := py; Particle.size := 1;
     Particle.speedX := 0; Particle.speedY := 0;
     Particle.color := Some "rgba(139, 92, 246, "%string;
     Particle.opacity := 0.3; Particle.opacityDirection := 1 |}%R.

(** Two particles 50 apart and a third one far from both. *)
Definition threeParticles : list Particle :=
  [ restingAt 10 10; restingAt 40 50; restingAt 700 500 ]%R.

(** The state at the first frame on a constrained device whose canvas was
    resized to 800 x 600, every particle built from [sampleDraws]. *)
Definition sampleInitialField : Field :=
  initialField {| width := 300; height := 150 |} canvas800x600 true
    (fun _ => sampleDraws).

Definition sampleField : Field :=
  {| canvas := canvas800x600;
     particles := threeParticles;
     gridCells := ∅;
     gridCellSize := 150;
     animationIdRef := None;
     lastMouseUpdateRef := 0;
     mouseRef := {| mouseX := 0; mouseY := 0; active := false |} |}.

(** * Properties *)

(** ** The definitions on small inputs *)

Section WorkedExamples.

(** The keys of the nine cells around the cell (0, 0), in the order of the
    two loops. *)
Example getNearbyCells_origin :
  getNearbyCells 0 0 =
  [ "-1,-1"; "-1,0"; "-1,1"; "0,-1"; "0,0"; "0,1"; "1,-1"; "1,0"; "1,1" ]%string.
Proof. vm_compute. reflexivity. Qed.

Example cellKey_far : cellKey 12 (-3) = "12,-3"%string.
Proof. vm_compute. reflexivity. Qed.

(** A canvas that has not been resized yet is 300 x 150. *)
Example particleCount_default_canvas :
  particleCount true {| width := 300; height := 150 |} = 30%N /\
  particleCount false {| width := 300; height := 150 |} = 80%N /\
  particleCount false {| width := 1000; height := 720 |} = 90%N /\
  particleCount false {| width := 1920; height := 1080 |} = 100%N /\
  particleCount true {| width := 1920; height := 1080 |} = 103%N.
Proof. vm_compute. repeat split. Qed.

(** The grid is rebuilt on the first frame and then on every third one. *)
Example gridIsDue_first_frames :
  map gridIsDue [None; Some 1; Some 2; Some 3; Some 4; Some 5; Some 6]%N =
  [true; false; false; true; false; false; true].
Proof. reflexivity. Qed.

Example nextAnimationId_first_frames :
  nextAnimationId None = 1%N /\ nextAnimationId (Some 1%N) = 2%N.
Proof. split; reflexivity. Qed.

Example isLowPowerDevice_cases :
  isLowPowerDevice 2 (Some 8%N) = false /\
  isLowPowerDevice 2 None = true /\
  isLowPowerDevice 0.5 (Some 8%N) = true.
Proof.
  unfold isLowPowerDevice.
  destruct (Rlt_dec 2 1) as [H|_]; [lra|].
  destruct (Rlt_dec 0.5 1) as [_|H]; [|lra].
  repeat split.
Qed.

Lemma Zfloor_small a : (0 <= a < 1)%R -> Zfloor a = 0%Z.
Proof. intros H. apply Zfloor_eq. lra. Qed.

(** The grid of [threeParticles]: the first two particles share the cell
    (0, 0), the third one lies in the cell (4, 3). *)
Example buildGrid_threeParticles :
  buildGrid threeParticles 150 =
  <["0,0"%string := [0; 1]%nat]> (<["4,3"%string := [2]%nat]> ∅).
Proof.
  assert (H10 : Zfloor (10 / 150) = 0%Z) by (apply Zfloor_eq; lra).
  assert (H40 : Zfloor (40 / 150) = 0%Z) by (apply Zfloor_eq; lra).
  assert (H50 : Zfloor (50 / 150) = 0%Z) by (apply Zfloor_eq; lra).
  assert (H700 : Zfloor (700 / 150) = 4%Z) by (apply Zfloor_eq; lra).
  assert (H500 : Zfloor (500 / 150) = 3%Z) by (apply Zfloor_eq; lra).
  unfold buildGrid, threeParticles, buildGridFrom, pushToCell.
  cbn [restingAt Particle.x Particle.y].
  rewrite H10, H40, H50, H700, H500.
  change (cellKey 0 0) with "0,0"%string.
  change (cellKey 4 3) with "4,3"%string.
  rewrite lookup_empty. cbv iota.
  rewrite lookup_insert_eq. cbv iota.
  rewrite !lookup_insert_ne, lookup_empty by done. cbv iota.
  apply map_eq. intros key.
  destruct (decide (key = "4,3"%string)) as [->|H43].
  { rewrite lookup_insert_eq, lookup_insert_ne, lookup_insert_eq by done.
    reflexivity. }
  rewrite (lookup_insert_ne _ "4,3"%string) by done.
  destruct (decide (key = "0,0"%string)) as [->|H00].
  - rewrite !lookup_insert_eq. reflexivity.
  - rewrite !lookup_insert_ne by done. reflexivity.
Qed.

End WorkedExamples.

(** ** Wrapping of the position *)

Section Wrapping.
Local Open Scope R_scope.

Lemma canvasWidth_nonneg canvas : 0 <= canvasWidth canvas.
Proof. unfold canvasWidth. apply IZR_le. lia. Qed.

Lemma canvasHeight_nonneg canvas : 0 <= canvasHeight canvas.
Proof. unfold canvasHeight. apply IZR_le. lia. Qed.

Lemma wrap_cases bound v :
  (bound < v /\ Particle.wrap bound v = 0) \/
  (v < 0 /\ v <= bound /\ Particle.wrap bound v = bound) \/
  (0 <= v <= bound /\ Particle.wrap bound v = v).
Proof.
  unfold Particle.wrap.
  destruct (Rlt_dec bound v) as [Hhi|Hhi].
  - left. split; [assumption|].
    destruct (Rlt_dec 0 0); [lra | reflexivity].
  - destruct (Rlt_dec v 0) as [Hlo|Hlo].
    + right; left. repeat split; lra.
    + right; right. repeat split; lra.
Qed.

Lemma wrap_closed bound v : 0 <= bound -> 0 <= Particle.wrap bound v <= bound.
Proof.
  intros Hb.
  destruct (wrap_cases bound v) as [[_ ->]|[(_ & _ & ->)|[? ->]]]; lra.
Qed.

(** C3, as the code has it: after [update] both position components lie
    in the closed intervals [0, width] and [0, height], whatever the
    position and the velocity were. *)
Theorem update_position_within_closed_bounds canvas (p : Particle) :
  0 <= Particle.x (Particle.update canvas p) <= canvasWidth canvas /\
  0 <= Particle.y (Particle.update canvas p) <= canvasHeight canvas.
Proof.
  split; cbn [Particle.update Particle.x Particle.y].
  - apply wrap_closed, canvasWidth_nonneg.
  - apply wrap_closed, canvasHeight_nonneg.
Qed.

(** C3, counterexample: on an 800 x 600 canvas a particle at x = 0 with
    speedX = -0.1 is put at x = 800 = width by [update], which is outside
    the half-open interval [0, width). *)
Lemma update_position_can_equal_width :
  Particle.x (Particle.update canvas800x600 leftEdgeParticle) = 800 /\
  ~ (0 <= Particle.x (Particle.update canvas800x600 leftEdgeParticle)
       < canvasWidth canvas800x600).
Proof.
  assert (Hx : Particle.x (Particle.update canvas800x600 leftEdgeParticle) = 800).
  { cbn [Particle.update Particle.x Particle.speedX leftEdgeParticle].
    unfold canvasWidth; cbn [width canvas800x600 Z.of_N].
    unfold Particle.wrap.
    destruct (Rlt_dec 800 (0 + -0.1)) as [H|_]; [lra|].
    destruct (Rlt_dec (0 + -0.1) 0) as [_|H]; [reflexivity | lra]. }
  split; [exact Hx|].
  rewrite Hx. unfold canvasWidth; cbn [width canvas800x600 Z.of_N]. lra.
Qed.

End Wrapping.

(** ** The opacity oscillator *)

Section Oscillator.
Local Open Scope R_scope.

Lemma constructor_oscillates canvas d :
  Particle.unitInterval (Particle.rndOpacity d) ->
  oscillates (Particle.constructor canvas d).
Proof.
  intros [Hlo Hhi]. unfold oscillates.
  cbn [Particle.constructor Particle.opacity Particle.opacityDirection].
  repeat split; try lra.
  destruct (Rlt_dec 0.5 (Particle.rndDirection d)); auto.
Qed.

Lemma update_oscillates canvas p :
  oscillates p -> oscillates (Particle.update canvas p).
Proof.
  intros (Hrange & Hdir & Hhigh & Hlow). unfold oscillates.
  cbn [Particle.update Particle.opacity Particle.opacityDirection].
  set (o1 := Particle.opacity p + IZR (Particle.opacityDirection p) * 0.005).
  assert (Ho1 : 0.145 <= o1 <= 0.605).
  { subst o1. destruct Hdir as [Hd|Hd]; rewrite Hd.
    - destruct (Rlt_dec 0.6 (Particle.opacity p)) as [Hgt|Hle].
      + apply Hhigh in Hgt. congruence.
      + lra.
    - destruct (Rlt_dec (Particle.opacity p) 0.15) as [Hlt|Hge].
      + apply Hlow in Hlt. congruence.
      + lra. }
  split; [exact Ho1|].
  destruct (Rlt_dec o1 0.15) as [Hlt|Hge];
    destruct (Rlt_dec 0.6 o1) as [Hgt|Hle];
    repeat split; auto; intros; try lra.
Qed.

Lemma afterUpdates_oscillates canvases : forall p,
  oscillates p -> oscillates (afterUpdates canvases p).
Proof.
  induction canvases as [|c cs IH]; intros p Hp; [exact Hp|].
  cbn [afterUpdates fold_left]. apply IH, update_oscillates, Hp.
Qed.

(** C4: a particle built from random numbers of [0, 1) has an opacity in
    [0, 1] after construction and after any number of [update] calls. *)
Theorem opacity_stays_in_unit_interval canvas d canvases :
  Particle.validDraws d ->
  0 <= Particle.opacity (afterUpdates canvases (Particle.constructor canvas d)) <= 1.
Proof.
  intros Hd.
  assert (Hop : Particle.unitInterval (Particle.rndOpacity d))
    by (unfold Particle.validDraws in Hd; tauto).
  destruct (afterUpdates_oscillates canvases _
              (constructor_oscillates canvas d Hop)) as [Hrange _].
  lra.
Qed.

Lemma sampleDraws_valid : Particle.validDraws sampleDraws.
Proof.
  unfold Particle.validDraws, Particle.unitInterval; cbn.
  repeat split; lra.
Defined.

Lemma opacity_stays_in_unit_interval_witness :
  0 <= Particle.opacity
         (afterUpdates [canvas800x600; canvas800x600; canvas800x600]
            (Particle.constructor canvas800x600 sampleDraws)) <= 1.
Proof.
  apply (opacity_stays_in_unit_interval canvas800x600 sampleDraws
           [canvas800x600; canvas800x600; canvas800x600]).
  exact sampleDraws_valid.
Defined.

End Oscillator.

(** ** The particle count *)

Section ParticleCount.
Local Open Scope N_scope.

(** C6, the divergence.  On a capable device the count is the quotient
    area / 8000 clamped between 80 and 100.  The constrained branch is
    [Math.max(30, floor(area / 20000))]: it has the lower bound and no
    [Math.min], so that the count is the quotient itself as soon as the
    quotient exceeds 100.  When the effect runs on a canvas that an earlier
    run has already resized to a 1920 x 1080 window, a constrained device
    gets 103 particles (a capable one 100); on a first run the canvas still
    has its default size of 300 x 150 and the count is 30.  No number bounds
    the count of the constrained branch. *)
Theorem particleCount_constrained_has_no_maximum (rnd : nat -> Particle.Draws) :
  (forall canvas,
     particleCount false canvas = clamp (width canvas * height canvas / 8000) 80 100) /\
  (forall canvas, 30 <= particleCount true canvas) /\
  (forall canvas,
     100 < width canvas * height canvas / 20000 ->
     particleCount true canvas = width canvas * height canvas / 20000) /\
  particleCount true canvas1920x1080 = 103 /\
  particleCount false canvas1920x1080 = 100 /\
  length (particles (initialField canvas1920x1080 canvas1920x1080 true rnd)) = 103%nat /\
  length (particles (initialField defaultCanvas canvas1920x1080 true rnd)) = 30%nat /\
  ~ (exists maxCount, forall canvas, particleCount true canvas <= maxCount).
Proof.
  split_and!.
  - intros canvas. unfold particleCount, clamp.
    destruct (N.ltb_spec (width canvas * height canvas / 8000) 80); [lia|].
    destruct (N.ltb_spec 100 (width canvas * height canvas / 8000)); lia.
  - intros canvas. unfold particleCount. lia.
  - intros canvas Hq. unfold particleCount. lia.
  - reflexivity.
  - reflexivity.
  - cbn [initialField particles]. unfold initParticles.
    rewrite length_map, length_seq. reflexivity.
  - cbn [initialField particles]. unfold initParticles.
    rewrite length_map, length_seq. reflexivity.
  - intros [maxCount Hmax].
    specialize (Hmax {| width := 20000 * (maxCount + 31); height := 1 |}).
    unfold particleCount in Hmax. cbn [width height] in Hmax.
    rewrite N.mul_1_r, N.mul_comm, N.div_mul in Hmax by lia.
    lia.
Qed.

End ParticleCount.

(** ** One frame with and without the reduced-motion preference *)

Section ReducedMotion.

Lemma updateAndDraw_spec canvas ps :
  updateAndDraw canvas ps =
  (map (Particle.update canvas) ps,
   flat_map Particle.draw (map (Particle.update canvas) ps)).
Proof.
  induction ps as [|p rest IH]; [reflexivity|].
  cbn [updateAndDraw map flat_map]. rewrite IH. reflexivity.
Qed.

Lemma draw_has_no_stroke ps :
  forallb (fun cmd => negb (isStroke cmd)) (flat_map Particle.draw ps) = true.
Proof.
  induction ps as [|p rest IH]; [reflexivity|].
  cbn [flat_map]. rewrite forallb_app, IH. reflexivity.
Qed.

(** What [update] does to one particle on a canvas [w] wide and [h] high:
    the position is moved by the velocity and wrapped on each axis, the
    opacity is stepped by 0.005 in its direction and the direction is turned
    back past a threshold; velocity, size and colour are kept. *)
Lemma update_fields canvas (p : Particle) :
  let w := canvasWidth canvas in
  let h := canvasHeight canvas in
  let x1 := (Particle.x p + Particle.speedX p)%R in
  let y1 := (Particle.y p + Particle.speedY p)%R in
  let opacity1 := (Particle.opacity p + IZR (Particle.opacityDirection p) * 0.005)%R in
  Particle.update canvas p =
  {| Particle.x := if Rlt_dec w x1 then 0%R else if Rlt_dec x1 0 then w else x1;
     Particle.y := if Rlt_dec h y1 then 0%R else if Rlt_dec y1 0 then h else y1;
     Particle.size := Particle.size p;
     Particle.speedX := Particle.speedX p;
     Particle.speedY := Particle.speedY p;
     Particle.color := Particle.color p;
     Particle.opacity := opacity1;
     Particle.opacityDirection :=
       if Rlt_dec opacity1 0.15 then 1%Z
       else if Rlt_dec 0.6 opacity1 then (-1)%Z
       else Particle.opacityDirection p |}.
Proof.
  intros w h x1 y1 opacity1.
  assert (Hw : (0 <= w)%R) by apply canvasWidth_nonneg.
  assert (Hh : (0 <= h)%R) by apply canvasHeight_nonneg.
  unfold Particle.update, Particle.wrap. fold w h x1 y1 opacity1.
  f_equal.
  - destruct (Rlt_dec w x1); [destruct (Rlt_dec 0 0); [lra | reflexivity] | reflexivity].
  - destruct (Rlt_dec h y1); [destruct (Rlt_dec 0 0); [lra | reflexivity] | reflexivity].
Qed.

(** C7: a frame under the reduced-motion preference leaves the component in
    the state a frame without the preference leaves it in.  In that state
    every particle has been updated: moved by its velocity, wrapped at the
    edges of the canvas (past the right or bottom edge to 0, before the left
    or top edge to the width or height), its opacity stepped by 0.005 in its
    direction and the direction turned back above 0.6 and below 0.15, with
    velocity, size and colour kept.  The frame clears the canvas and paints
    every updated particle, in order, with its opacity, colour, position and
    size, and issues no stroke; the frame without the preference issues the
    same commands followed by the connection lines. *)
Theorem animate_reduced_motion (f : Field) :
  let w := canvasWidth (canvas f) in
  let h := canvasHeight (canvas f) in
  ((animate true f).1 = (animate false f).1) /\
  length (particles (animate true f).1) = length (particles f) /\
  (forall i p, particles f !! i = Some p ->
     exists p', particles (animate true f).1 !! i = Some p' /\
       (let x1 := (Particle.x p + Particle.speedX p)%R in
        let y1 := (Particle.y p + Particle.speedY p)%R in
        let opacity1 :=
          (Particle.opacity p + IZR (Particle.opacityDirection p) * 0.005)%R in
        (Particle.x p' =
           (if Rlt_dec w x1 then 0%R else if Rlt_dec x1 0 then w else x1)) /\
        (Particle.y p' =
           (if Rlt_dec h y1 then 0%R else if Rlt_dec y1 0 then h else y1)) /\
        Particle.opacity p' = opacity1 /\
        (Particle.opacityDirection p' =
           (if Rlt_dec opacity1 0.15 then 1%Z
            else if Rlt_dec 0.6 opacity1 then (-1)%Z
            else Particle.opacityDirection p)) /\
        Particle.speedX p' = Particle.speedX p /\
        Particle.speedY p' = Particle.speedY p /\
        Particle.size p' = Particle.size p /\
        Particle.color p' = Particle.color p)) /\
  (animate true f).2 =
    [ ClearRect 0 0 w h; GlobalAlpha 1 ] ++
    flat_map (fun p' =>
                [ GlobalAlpha (Particle.opacity p');
                  FillStyle (Particle.color p') (Particle.opacity p');
                  BeginPath;
                  Arc (Particle.x p') (Particle.y p') (Particle.size p') 0 (PI * 2);
                  Fill ])
             (particles (animate true f).1) /\
  forallb (fun cmd => negb (isStroke cmd)) (animate true f).2 = true /\
  (animate false f).2 =
    (animate true f).2 ++
    strokeLines (particles (animate false f).1)
      (connectionLines (particles (animate false f).1)
         (gridCells (animate false f).1) (gridCellSize f)).
Proof.
  intros w h. subst w h.
  unfold animate. rewrite updateAndDraw_spec. cbn [fst snd particles gridCells].
  rewrite app_nil_r.
  split; [reflexivity|]. split; [apply length_map|]. split.
  { intros i p Hp. exists (Particle.update (canvas f) p). split.
    - rewrite list_lookup_fmap, Hp. reflexivity.
    - cbv zeta. rewrite (update_fields (canvas f) p).
      cbn [Particle.x Particle.y Particle.opacity Particle.opacityDirection
           Particle.speedX Particle.speedY Particle.size Particle.color].
      repeat split. }
  split; [reflexivity|]. split; [|reflexivity].
  cbn [app forallb isStroke negb andb]. apply draw_has_no_stroke.
Qed.

End ReducedMotion.

(** ** The pointer force *)

Section PointerForce.
Local Open Scope R_scope.

Lemma jsSqrt_nonneg a : 0 <= a -> jsSqrt a = Some (sqrt a).
Proof. intros Ha. unfold jsSqrt. destruct (Rlt_dec a 0); [lra | reflexivity]. Qed.

Lemma jsDiv_nonzero a b : b <> 0 -> jsDiv a b = Some (a / b).
Proof. intros Hb. unfold jsDiv. destruct (Req_dec_T b 0); [contradiction | reflexivity]. Qed.

Lemma sum_of_squares_nonneg a b : 0 <= a ^ 2 + b ^ 2.
Proof. nra. Qed.

(** The interaction never divides by zero and never takes the square root
    of a negative number. *)
Lemma mouseInteraction_defined mouse (p : Particle) :
  exists q, mouseInteraction mouse p = Some q.
Proof.
  unfold mouseInteraction.
  set (dx := mouseX mouse - Particle.x p).
  set (dy := mouseY mouse - Particle.y p).
  rewrite jsSqrt_nonneg by nra. cbn [mbind option_bind].
  destruct (Rlt_dec (sqrt (dx * dx + dy * dy)) interactionRadius) as [Hnear|Hfar].
  2: { exists p. reflexivity. }
  rewrite jsDiv_nonzero by (unfold interactionRadius; lra). cbn [mbind option_bind].
  set (force := (interactionRadius - sqrt (dx * dx + dy * dy)) / interactionRadius).
  set (sx := Particle.speedX p + dx * force * 0.005).
  set (sy := Particle.speedY p + dy * force * 0.005).
  rewrite jsSqrt_nonneg by apply sum_of_squares_nonneg. cbn [mbind option_bind].
  destruct (Rlt_dec maxSpeed (sqrt (sx ^ 2 + sy ^ 2))) as [Hfast|Hslow].
  - assert (Hpos : 0 < sqrt (sx ^ 2 + sy ^ 2)) by (unfold maxSpeed in Hfast; lra).
    rewrite !jsDiv_nonzero by lra. cbn [mbind option_bind].
    eexists. reflexivity.
  - eexists. reflexivity.
Qed.

Lemma mapM_mouseInteraction mouse (ps : list Particle) :
  exists qs, mapM (mouseInteraction mouse) ps = Some qs /\
             Forall2 (fun p q => mouseInteraction mouse p = Some q) ps qs.
Proof.
  induction ps as [|p rest [qs [Hqs Hall]]].
  - exists []. split; [reflexivity | constructor].
  - destruct (mouseInteraction_defined mouse p) as [q Hq].
    exists (q :: qs). split.
    + cbn [mapM]. rewrite Hq. cbn [mbind option_bind]. rewrite Hqs. reflexivity.
    + constructor; assumption.
Qed.

(** The pointer force changes the velocity and nothing else. *)
Lemma mouseInteraction_velocity_only mouse (p q : Particle) :
  mouseInteraction mouse p = Some q ->
  Particle.x q = Particle.x p /\ Particle.y q = Particle.y p /\
  Particle.size q = Particle.size p /\ Particle.color q = Particle.color p /\
  Particle.opacity q = Particle.opacity p /\
  Particle.opacityDirection q = Particle.opacityDirection p.
Proof.
  unfold mouseInteraction. intros H.
  repeat (match type of H with
          | context [jsSqrt ?a] => destruct (jsSqrt a); cbn [mbind option_bind] in H
          | context [jsDiv ?a ?b] => destruct (jsDiv a b); cbn [mbind option_bind] in H
          | context [Rlt_dec ?a ?b] => destruct (Rlt_dec a b)
          end; try discriminate).
  all: injection H as <-; repeat split.
Qed.

Lemma sampleInitialField_reachable : reachable sampleInitialField.
Proof. apply reach_initial. intros _. exact sampleDraws_valid. Qed.

End PointerForce.

(** ** The speed limit under rounding *)

Section RoundedPointerForce.
Local Open Scope R_scope.
Variable rnd : R -> R.
Hypothesis rnd_error : standardModel rnd.

(** The error of one rounding, with constants that are easier to compute
    with: a relative error of at most 1.111e-16 and an absolute error of at
    most 1e-30. *)
Lemma rnd_near x : Rabs (rnd x - x) <= 1111 / 10 ^ 19 * Rabs x + / 10 ^ 30.
Proof.
  pose proof (rnd_error x) as H.
  assert (HU : unitRoundoff <= 1111 / 10 ^ 19) by (unfold unitRoundoff; lra).
  assert (HE : underflowError <= / 10 ^ 30).
  { unfold underflowError. apply Rinv_le_contravar; [lra|].
    apply Rle_trans with (2 ^ 100); [lra|]. apply Rle_pow; [lra | lia]. }
  pose proof (Rabs_pos x) as Hx.
  assert (unitRoundoff * Rabs x <= 1111 / 10 ^ 19 * Rabs x)
    by (apply Rmult_le_compat_r; assumption).
  lra.
Qed.

Lemma Rabs_le_bounds d c : Rabs d <= c -> - c <= d <= c.
Proof. unfold Rabs. destruct (Rcase_abs d); lra. Qed.

Lemma rnd_of_nonneg x :
  0 <= x ->
  (1 - 1111 / 10 ^ 19) * x - / 10 ^ 30 <= rnd x <= (1 + 1111 / 10 ^ 19) * x + / 10 ^ 30.
Proof.
  intros Hx. pose proof (rnd_near x) as H.
  rewrite (Rabs_pos_eq x Hx) in H.
  apply Rabs_le_bounds in H. lra.
Qed.

Lemma rnd_within x b :
  Rabs x <= b -> Rabs (rnd x - x) <= 1111 / 10 ^ 19 * b + / 10 ^ 30.
Proof.
  intros Hx. pose proof (rnd_near x) as H.
  assert (1111 / 10 ^ 19 * Rabs x <= 1111 / 10 ^ 19 * b)
    by (apply Rmult_le_compat_l; [lra | assumption]).
  lra.
Qed.

(** How far the exact sum of squares can lie above the computed length. *)
Lemma squares_below_computedLength vx vy :
  let s := Rounded.computedLength rnd vx vy in
  let t := (s + / 10 ^ 30) / (1 - 1111 / 10 ^ 19) in
  0 <= t /\
  vx * vx + vy * vy <=
    ((t * t + / 10 ^ 30) / (1 - 1111 / 10 ^ 19) + 2 / 10 ^ 30) / (1 - 1111 / 10 ^ 19).
Proof.
  intros s t. subst s t. unfold Rounded.computedLength.
  set (a := rnd (vx * vx)). set (b := rnd (vy * vy)).
  set (c := rnd (a + b)). set (r := sqrt c). set (s := rnd r).
  set (k := 1 - 1111 / 10 ^ 19).
  assert (Hk : 0 < k) by (subst k; lra).
  assert (Hr : 0 <= r) by apply sqrt_pos.
  pose proof (rnd_of_nonneg r Hr) as Hs. fold s k in Hs.
  assert (Ht : r <= (s + / 10 ^ 30) / k).
  { apply Rmult_le_reg_r with k; [exact Hk|].
    unfold Rdiv. rewrite Rmult_assoc, Rinv_l by lra. lra. }
  set (t := (s + / 10 ^ 30) / k) in *.
  assert (Ht0 : 0 <= t) by lra.
  split; [exact Ht0|].
  assert (Hc : c <= t * t).
  { destruct (Rle_dec 0 c) as [Hc|Hc].
    - rewrite <- (sqrt_sqrt c Hc). fold r. apply Rmult_le_compat; assumption.
    - pose proof (Rmult_le_pos t t Ht0 Ht0). lra. }
  assert (Hab : a + b <= (t * t + / 10 ^ 30) / k).
  { apply Rmult_le_reg_r with k; [exact Hk|].
    unfold Rdiv. rewrite Rmult_assoc, Rinv_l by lra.
    destruct (Rle_dec 0 (a + b)) as [Hab|Hab].
    - pose proof (rnd_of_nonneg (a + b) Hab) as H. fold c k in H. lra.
    - pose proof (Rmult_le_pos t t Ht0 Ht0).
      pose proof (Rmult_lt_0_compat (- (a + b)) k ltac:(lra) Hk). lra. }
  pose proof (rnd_of_nonneg (vx * vx) (Rle_0_sqr vx)) as Ha. fold a k in Ha.
  pose proof (rnd_of_nonneg (vy * vy) (Rle_0_sqr vy)) as Hb. fold b k in Hb.
  apply Rmult_le_reg_r with k; [exact Hk|].
  unfold Rdiv at 1. rewrite Rmult_assoc, Rinv_l by lra. lra.
Qed.

(** A velocity whose computed speed is not above [maxSpeed] has an exact
    speed of at most [maxSpeed + speedSlack]. *)
Lemma slow_by_computedLength vx vy :
  Rounded.computedLength rnd vx vy <= maxSpeed ->
  sqrt (vx ^ 2 + vy ^ 2) <= maxSpeed + speedSlack.
Proof.
  intros Hslow.
  destruct (squares_below_computedLength vx vy) as [Ht0 Hsq]. cbv zeta in Ht0, Hsq.
  set (t := (Rounded.computedLength rnd vx vy + / 10 ^ 30) / (1 - 1111 / 10 ^ 19)) in *.
  unfold maxSpeed, speedSlack in *.
  assert (HtT : t <= (1.5 + / 10 ^ 30) / (1 - 1111 / 10 ^ 19)).
  { subst t. apply Rmult_le_compat_r; [|lra].
    apply Rlt_le, Rinv_0_lt_compat. lra. }
  set (T := (1.5 + / 10 ^ 30) / (1 - 1111 / 10 ^ 19)) in *.
  assert (Htt : t * t <= T * T) by (apply Rmult_le_compat; assumption).
  assert (HT : T * T <= 2.25 + 6 / 10 ^ 16) by (subst T; lra).
  rewrite <- (sqrt_pow2 (1.5 + / 10 ^ 15)) by lra.
  apply sqrt_le_1_alt.
  replace (vx ^ 2 + vy ^ 2) with (vx * vx + vy * vy) by ring.
  eapply Rle_trans; [exact Hsq|].
  apply Rle_trans with (((2.25 + 6 / 10 ^ 16 + / 10 ^ 30) / (1 - 1111 / 10 ^ 19)
                         + 2 / 10 ^ 30) / (1 - 1111 / 10 ^ 19)); [|lra].
  apply Rmult_le_compat_r; [apply Rlt_le, Rinv_0_lt_compat; lra|].
  apply Rplus_le_compat_r.
  apply Rmult_le_compat_r; [apply Rlt_le, Rinv_0_lt_compat; lra|].
  lra.
Qed.

(** A velocity whose computed speed [s] is above [maxSpeed] has an exact
    speed of at most [(1 + 2.23e-16) * s]. *)
Lemma fast_by_computedLength vx vy :
  let s := Rounded.computedLength rnd vx vy in
  let K := 1 + 223 / 10 ^ 18 in
  maxSpeed < s -> vx * vx + vy * vy <= (K * s) * (K * s).
Proof.
  intros s K Hfast. unfold maxSpeed in Hfast.
  destruct (squares_below_computedLength vx vy) as [Ht0 Hsq]. cbv zeta in Ht0, Hsq.
  fold s in Ht0, Hsq.
  set (k := 1 - 1111 / 10 ^ 19) in *.
  assert (Hk : 0 < / k) by (apply Rinv_0_lt_compat; subst k; lra).
  set (T1 := (1 + / 10 ^ 30) / k).
  assert (HT1 : 0 <= T1).
  { subst T1. apply Rmult_le_pos; lra. }
  assert (Ht : (s + / 10 ^ 30) / k <= s * T1).
  { subst T1. unfold Rdiv. rewrite <- Rmult_assoc.
    apply Rmult_le_compat_r; [lra|]. nra. }
  set (t := (s + / 10 ^ 30) / k) in *.
  assert (Hss : 1 <= s * s) by nra.
  assert (Htt : t * t <= (T1 * T1) * (s * s)).
  { replace (T1 * T1 * (s * s)) with ((s * T1) * (s * T1)) by ring.
    apply Rmult_le_compat; assumption. }
  assert (Hbound : ((t * t + / 10 ^ 30) / k + 2 / 10 ^ 30) / k
                   <= (((T1 * T1 + / 10 ^ 30) / k + 2 / 10 ^ 30) / k) * (s * s)).
  { replace ((((T1 * T1 + / 10 ^ 30) / k + 2 / 10 ^ 30) / k) * (s * s))
      with (((T1 * T1 * (s * s) + / 10 ^ 30 * (s * s)) / k
             + 2 / 10 ^ 30 * (s * s)) / k) by (unfold Rdiv; ring).
    apply Rmult_le_compat_r; [lra|].
    apply Rplus_le_compat; [|nra].
    apply Rmult_le_compat_r; [lra|].
    apply Rplus_le_compat; [exact Htt | nra]. }
  assert (Hconst : ((T1 * T1 + / 10 ^ 30) / k + 2 / 10 ^ 30) / k <= K * K).
  { subst T1 k K. lra. }
  replace (K * s * (K * s)) with (K * K * (s * s)) by ring.
  eapply Rle_trans; [exact Hsq|]. eapply Rle_trans; [exact Hbound|].
  apply Rmult_le_compat_r; [lra | exact Hconst].
Qed.

(** A vector within [g] per component of 1.5 times a vector of length at
    most [K] has a length of at most [1.5 * K + 1.4143 * g]. *)
Lemma length_of_nearby_vector ax ay rx ry K g :
  0 <= K -> 0 <= g ->
  ax * ax + ay * ay <= K * K ->
  Rabs (rx - 1.5 * ax) <= g ->
  Rabs (ry - 1.5 * ay) <= g ->
  sqrt (rx ^ 2 + ry ^ 2) <= 1.5 * K + 1.4143 * g.
Proof.
  intros HK Hg Hlen Hx Hy.
  set (A := Rabs ax). set (B := Rabs ay).
  assert (HA : 0 <= A) by apply Rabs_pos.
  assert (HB : 0 <= B) by apply Rabs_pos.
  assert (HAA : A * A = ax * ax).
  { subst A. rewrite <- Rabs_mult. apply Rabs_pos_eq, Rle_0_sqr. }
  assert (HBB : B * B = ay * ay).
  { subst B. rewrite <- Rabs_mult. apply Rabs_pos_eq, Rle_0_sqr. }
  assert (Hrx : Rabs rx <= 1.5 * A + g).
  { replace rx with ((rx - 1.5 * ax) + 1.5 * ax) by ring.
    eapply Rle_trans; [apply Rabs_triang|].
    rewrite Rabs_mult, (Rabs_pos_eq 1.5) by lra. fold A. lra. }
  assert (Hry : Rabs ry <= 1.5 * B + g).
  { replace ry with ((ry - 1.5 * ay) + 1.5 * ay) by ring.
    eapply Rle_trans; [apply Rabs_triang|].
    rewrite Rabs_mult, (Rabs_pos_eq 1.5) by lra. fold B. lra. }
  assert (Hrx2 : rx * rx <= (1.5 * A + g) * (1.5 * A + g)).
  { replace (rx * rx) with (Rabs rx * Rabs rx)
      by (rewrite <- Rabs_mult; apply Rabs_pos_eq, Rle_0_sqr).
    apply Rmult_le_compat; try apply Rabs_pos; assumption. }
  assert (Hry2 : ry * ry <= (1.5 * B + g) * (1.5 * B + g)).
  { replace (ry * ry) with (Rabs ry * Rabs ry)
      by (rewrite <- Rabs_mult; apply Rabs_pos_eq, Rle_0_sqr).
    apply Rmult_le_compat; try apply Rabs_pos; assumption. }
  assert (HAB : A + B <= 1.4143 * K).
  { apply Rnot_lt_le. intros Hlt.
    assert (Hsq : (1.4143 * K) * (1.4143 * K) < (A + B) * (A + B)).
    { apply Rmult_le_0_lt_compat; try lra; apply Rmult_le_pos; lra. }
    pose proof (Rle_0_sqr (A - B)) as Hd. unfold Rsqr in Hd.
    assert (HKK : 0 <= K * K) by (apply Rmult_le_pos; assumption).
    nra. }
  assert (HgAB : g * (A + B) <= g * (1.4143 * K))
    by (apply Rmult_le_compat_l; assumption).
  assert (Hgg : 0 <= g * g) by (apply Rmult_le_pos; assumption).
  rewrite <- (sqrt_pow2 (1.5 * K + 1.4143 * g))
    by (apply Rplus_le_le_0_compat; apply Rmult_le_pos; lra).
  apply sqrt_le_1_alt.
  replace (rx ^ 2 + ry ^ 2) with (rx * rx + ry * ry) by ring.
  nra.
Qed.

Lemma Rabs_le_of_squares a K : 0 <= K -> a * a <= K * K -> Rabs a <= K.
Proof.
  intros HK H. rewrite <- (Rabs_pos_eq K HK).
  apply Rsqr_le_abs_0. exact H.
Qed.

(** One component of the clamp, [(speedX / speed) * maxSpeed] with the quotient
    [a] already formed: two roundings away from [1.5 * a]. *)
Lemma rescaled_component a :
  Rabs a <= 1 + 223 / 10 ^ 18 ->
  Rabs (rnd (rnd a * maxSpeed) - 1.5 * a) <= 4 / 10 ^ 16.
Proof.
  intros Ha. unfold maxSpeed.
  set (K := 1 + 223 / 10 ^ 18) in *.
  set (d1 := 1111 / 10 ^ 19 * K + / 10 ^ 30).
  set (d2 := 1111 / 10 ^ 19 * (1.5 * (K + d1)) + / 10 ^ 30).
  pose proof (rnd_within a K Ha) as Hq. fold d1 in Hq.
  assert (Hqa : Rabs (rnd a) <= K + d1).
  { replace (rnd a) with ((rnd a - a) + a) by ring.
    eapply Rle_trans; [apply Rabs_triang|]. lra. }
  assert (Hq15 : Rabs (rnd a * 1.5) <= 1.5 * (K + d1)).
  { rewrite Rabs_mult, (Rabs_pos_eq 1.5) by lra. lra. }
  pose proof (rnd_within (rnd a * 1.5) _ Hq15) as Hr. fold d2 in Hr.
  replace (rnd (rnd a * 1.5) - 1.5 * a)
    with ((rnd (rnd a * 1.5) - rnd a * 1.5) + 1.5 * (rnd a - a)) by ring.
  eapply Rle_trans; [apply Rabs_triang|].
  rewrite Rabs_mult, (Rabs_pos_eq 1.5) by lra.
  apply Rle_trans with (d2 + 1.5 * d1); [lra|].
  subst d2 d1 K. lra.
Qed.

(** The quotients the clamp forms, [vx / s] and [vy / s], make a vector of
    length at most [1 + 2.23e-16]. *)
Lemma quotients_by_computedLength vx vy :
  let s := Rounded.computedLength rnd vx vy in
  let K := 1 + 223 / 10 ^ 18 in
  maxSpeed < s ->
  (vx / s) * (vx / s) + (vy / s) * (vy / s) <= K * K /\
  Rabs (vx / s) <= K /\ Rabs (vy / s) <= K.
Proof.
  intros s K Hfast.
  pose proof (fast_by_computedLength vx vy Hfast) as Hsq. cbv zeta in Hsq.
  fold s K in Hsq. unfold maxSpeed in Hfast.
  assert (HK : 0 <= K) by (subst K; lra).
  assert (Hs : 0 < s) by lra.
  assert (Hss : 0 < s * s) by (apply Rmult_lt_0_compat; assumption).
  set (ax := vx / s). set (ay := vy / s).
  assert (Hlen : ax * ax + ay * ay <= K * K).
  { apply Rmult_le_reg_r with (s * s); [exact Hss|].
    replace ((ax * ax + ay * ay) * (s * s)) with (vx * vx + vy * vy)
      by (subst ax ay; field; lra).
    replace (K * K * (s * s)) with (K * s * (K * s)) by ring.
    exact Hsq. }
  split; [exact Hlen|]. split.
  - apply Rabs_le_of_squares; [exact HK|]. pose proof (Rle_0_sqr ay) as H.
    unfold Rsqr in H. lra.
  - apply Rabs_le_of_squares; [exact HK|]. pose proof (Rle_0_sqr ax) as H.
    unfold Rsqr in H. lra.
Qed.

(** The velocity the clamp writes has an exact speed of at most
    [maxSpeed + speedSlack]. *)
Lemma rescaled_by_computedLength vx vy :
  let s := Rounded.computedLength rnd vx vy in
  maxSpeed < s ->
  sqrt (rnd (rnd (vx / s) * maxSpeed) ^ 2 + rnd (rnd (vy / s) * maxSpeed) ^ 2)
  <= maxSpeed + speedSlack.
Proof.
  intros s Hfast.
  destruct (quotients_by_computedLength vx vy Hfast) as (Hlen & Hax & Hay).
  fold s in Hlen, Hax, Hay.
  eapply Rle_trans.
  - apply (length_of_nearby_vector (vx / s) (vy / s) _ _ (1 + 223 / 10 ^ 18)
             (4 / 10 ^ 16)).
    + lra.
    + lra.
    + exact Hlen.
    + apply rescaled_component, Hax.
    + apply rescaled_component, Hay.
  - unfold maxSpeed, speedSlack. lra.
Qed.

(** The interaction keeps a particle within [maxSpeed + speedSlack]. *)
Lemma mouseInteraction_within_slack mouse (p : Particle) :
  speedOf p <= maxSpeed + speedSlack ->
  speedOf (Rounded.mouseInteraction rnd mouse p) <= maxSpeed + speedSlack.
Proof.
  intros Hp. unfold Rounded.mouseInteraction.
  set (dx := rnd (mouseX mouse - Particle.x p)).
  set (dy := rnd (mouseY mouse - Particle.y p)).
  destruct (Rlt_dec _ interactionRadius) as [Hnear|Hfar]; [|exact Hp].
  set (force := rnd (rnd (interactionRadius - _) / interactionRadius)).
  set (vx := rnd (Particle.speedX p + rnd (rnd (dx * force) * rnd 0.005))).
  set (vy := rnd (Particle.speedY p + rnd (rnd (dy * force) * rnd 0.005))).
  fold (Rounded.computedLength rnd vx vy).
  destruct (Rlt_dec maxSpeed (Rounded.computedLength rnd vx vy)) as [Hfast|Hslow];
    unfold speedOf; cbn [Particle.speedX Particle.speedY].
  - apply rescaled_by_computedLength, Hfast.
  - apply slow_by_computedLength. lra.
Qed.

(** C5, as the code has it in floating-point arithmetic: whatever rounding
    within the error bounds of binary64 the operations perform, for every
    pointer position a particle whose speed was at most 1.5 has a speed of
    at most 1.5 + 10^-15 after the force application, and so has one whose
    speed was at most 1.5 + 10^-15, which the code itself can leave.  The
    bound 1.5 itself does not hold in binary64: see
    [rounding_can_exceed_maxSpeed]. *)
Theorem handleMouseMove_keeps_speed_near_limit mouse (p : Particle) :
  (speedOf p <= maxSpeed ->
   speedOf (Rounded.mouseInteraction rnd mouse p) <= maxSpeed + speedSlack) /\
  (speedOf p <= maxSpeed + speedSlack ->
   speedOf (Rounded.mouseInteraction rnd mouse p) <= maxSpeed + speedSlack).
Proof.
  split; intros Hp; apply mouseInteraction_within_slack;
    [unfold speedSlack; lra | exact Hp].
Qed.

(** The length the code computes is within rounding of the exact one. *)
Lemma computedLength_near vx vy :
  Rabs (Rounded.computedLength rnd vx vy - sqrt (vx * vx + vy * vy))
  <= 3 / 10 ^ 16 * sqrt (vx * vx + vy * vy) + 3 / 10 ^ 15.
Proof.
  destruct (squares_below_computedLength vx vy) as [Ht0 Hsq]. cbv zeta in Ht0, Hsq.
  set (s := Rounded.computedLength rnd vx vy) in *.
  set (N := sqrt (vx * vx + vy * vy)).
  assert (Hvx : 0 <= vx * vx) by apply Rle_0_sqr.
  assert (Hvy : 0 <= vy * vy) by apply Rle_0_sqr.
  assert (HN : 0 <= N) by apply sqrt_pos.
  assert (HNN : N * N = vx * vx + vy * vy) by (apply sqrt_sqrt; lra).
  assert (Hupper : s <= (1 + 1111 / 10 ^ 19) * ((1 + 1111 / 10 ^ 19) * N) + 3 / 10 ^ 15).
  { subst s. unfold Rounded.computedLength.
    set (a := rnd (vx * vx)). set (b := rnd (vy * vy)).
    set (c := rnd (a + b)). set (r := sqrt c).
    pose proof (rnd_of_nonneg (vx * vx) Hvx) as Ha. fold a in Ha.
    pose proof (rnd_of_nonneg (vy * vy) Hvy) as Hb. fold b in Hb.
    assert (HNN0 : 0 <= N * N) by lra.
    assert (Hab : Rabs (a + b) <= (1 + 1111 / 10 ^ 19) * (N * N) + 2 / 10 ^ 30).
    { apply Rabs_le. lra. }
    pose proof (rnd_within (a + b) _ Hab) as Hc. fold c in Hc.
    apply Rabs_le_bounds in Hc. apply Rabs_le_bounds in Hab.
    assert (Hr : r <= (1 + 1111 / 10 ^ 19) * N + 2 / 10 ^ 15).
    { destruct (Rle_dec 0 c) as [Hc0|Hc0].
      - rewrite <- (sqrt_square ((1 + 1111 / 10 ^ 19) * N + 2 / 10 ^ 15)) by lra.
        apply sqrt_le_1_alt.
        replace (((1 + 1111 / 10 ^ 19) * N + 2 / 10 ^ 15)
                 * ((1 + 1111 / 10 ^ 19) * N + 2 / 10 ^ 15))
          with ((1 + 1111 / 10 ^ 19) * ((1 + 1111 / 10 ^ 19) * (N * N))
                + 4 / 10 ^ 15 * (1 + 1111 / 10 ^ 19) * N + 4 / 10 ^ 30) by field.
        lra.
      - subst r. rewrite sqrt_neg_0 by lra. lra. }
    pose proof (rnd_of_nonneg r (sqrt_pos c)) as Hs. lra. }
  assert (Hlower : N <= (1 + 112 / 10 ^ 18) * ((s + / 10 ^ 30) / (1 - 1111 / 10 ^ 19))
                        + 2 / 10 ^ 15).
  { set (t := (s + / 10 ^ 30) / (1 - 1111 / 10 ^ 19)) in *.
    assert (Htt : 0 <= t * t) by (apply Rmult_le_pos; assumption).
    subst N.
    rewrite <- (sqrt_square ((1 + 112 / 10 ^ 18) * t + 2 / 10 ^ 15)) by lra.
    apply sqrt_le_1_alt.
    replace (((1 + 112 / 10 ^ 18) * t + 2 / 10 ^ 15) * ((1 + 112 / 10 ^ 18) * t + 2 / 10 ^ 15))
      with ((1 + 112 / 10 ^ 18) * ((1 + 112 / 10 ^ 18) * (t * t))
            + 4 / 10 ^ 15 * (1 + 112 / 10 ^ 18) * t + 4 / 10 ^ 30) by field.
    lra. }
  apply Rabs_le. lra.
Qed.

(** Two vectors within [g] of each other per component have lengths within
    [1.4143 * g] of each other. *)
Lemma length_within bx by' cx cy g :
  0 <= g ->
  Rabs (cx - bx) <= g -> Rabs (cy - by') <= g ->
  sqrt (cx * cx + cy * cy) <= sqrt (bx * bx + by' * by') + 1.4143 * g.
Proof.
  intros Hg Hx Hy.
  set (K := sqrt (bx * bx + by' * by')).
  assert (HK : 0 <= K) by apply sqrt_pos.
  assert (HKK : K * K = bx * bx + by' * by').
  { apply sqrt_sqrt. pose proof (Rle_0_sqr bx). pose proof (Rle_0_sqr by').
    unfold Rsqr in *. lra. }
  pose proof (length_of_nearby_vector (bx / 1.5) (by' / 1.5) cx cy (K / 1.5) g) as H.
  replace (cx * cx + cy * cy) with (cx ^ 2 + cy ^ 2) by ring.
  eapply Rle_trans; [apply H|]; try lra.
  - replace (1.5 * (bx / 1.5)) with bx by lra. exact Hx.
  - replace (1.5 * (by' / 1.5)) with by' by lra. exact Hy.
Qed.

Lemma product_within a b a' b' da db A B :
  Rabs (a - a') <= da -> Rabs (b - b') <= db -> Rabs a' <= A -> Rabs b <= B ->
  Rabs (a * b - a' * b') <= da * B + A * db.
Proof.
  intros Ha Hb HA HB.
  replace (a * b - a' * b') with ((a - a') * b + a' * (b - b')) by ring.
  eapply Rle_trans; [apply Rabs_triang|].
  rewrite !Rabs_mult.
  apply Rplus_le_compat; apply Rmult_le_compat; try apply Rabs_pos; assumption.
Qed.

Lemma Rabs_within a a' da A : Rabs (a - a') <= da -> Rabs a' <= A -> Rabs a <= A + da.
Proof.
  intros Ha HA. replace a with ((a - a') + a') by ring.
  eapply Rle_trans; [apply Rabs_triang|]. lra.
Qed.

Lemma component_le_length ex ey :
  Rabs ex <= sqrt (ex * ex + ey * ey) /\ Rabs ey <= sqrt (ex * ex + ey * ey).
Proof.
  pose proof (Rle_0_sqr ex) as Hx. pose proof (Rle_0_sqr ey) as Hy. unfold Rsqr in *.
  assert (H : sqrt (ex * ex + ey * ey) * sqrt (ex * ex + ey * ey) = ex * ex + ey * ey)
    by (apply sqrt_sqrt; lra).
  split; apply Rabs_le_of_squares; try apply sqrt_pos; lra.
Qed.

(** The distance the code computes from the rounded offsets is within
    rounding of the exact distance. *)
Lemma computedDistance_near ex ey :
  Rabs (Rounded.computedLength rnd (rnd ex) (rnd ey) - sqrt (ex * ex + ey * ey))
  <= 5 / 10 ^ 16 * sqrt (ex * ex + ey * ey) + 4 / 10 ^ 15.
Proof.
  destruct (component_le_length ex ey) as [Hex Hey].
  set (d := sqrt (ex * ex + ey * ey)) in *.
  assert (Hd : 0 <= d) by apply sqrt_pos.
  pose proof (rnd_within ex d Hex) as Hdx.
  pose proof (rnd_within ey d Hey) as Hdy.
  set (g := 1111 / 10 ^ 19 * d + / 10 ^ 30) in *.
  assert (Hg : 0 <= g) by (subst g; lra).
  pose proof (length_within ex ey (rnd ex) (rnd ey) g Hg Hdx Hdy) as Hup. fold d in Hup.
  rewrite Rabs_minus_sym in Hdx. rewrite Rabs_minus_sym in Hdy.
  pose proof (length_within (rnd ex) (rnd ey) ex ey g Hg Hdx Hdy) as Hlo. fold d in Hlo.
  pose proof (computedLength_near (rnd ex) (rnd ey)) as Hs.
  set (N := sqrt (rnd ex * rnd ex + rnd ey * rnd ey)) in *.
  apply Rabs_le_bounds in Hs. apply Rabs_le. subst g. lra.
Qed.

(** One component of the impulse, as computed, is within 1e-15 of
    [e * ((100 - d) / 100) * 0.005]. *)
Lemma computedImpulse_near e d D :
  Rabs e <= d -> d <= interactionRadius -> Rabs (D - d) <= 6 / 10 ^ 14 ->
  Rabs (rnd (rnd (rnd e * rnd (rnd (interactionRadius - D) / interactionRadius))
             * rnd 0.005)
        - e * ((interactionRadius - d) / interactionRadius) * 0.005) <= / 10 ^ 15.
Proof.
  unfold interactionRadius. intros He Hd HD.
  pose proof (Rabs_pos e) as He0.
  set (f := (100 - d) / 100).
  assert (Hf : Rabs f <= 1) by (apply Rabs_le; subst f; lra).
  assert (He100 : Rabs e <= 100) by lra.
  pose proof (rnd_within e 100 He100) as H1.
  apply Rabs_le_bounds in HD.
  assert (Ha0 : Rabs (100 - D) <= 100.1) by (apply Rabs_le; lra).
  pose proof (rnd_within (100 - D) _ Ha0) as H2.
  set (a1 := rnd (100 - D)) in *.
  assert (Ha1 : Rabs (a1 / 100 - f) <= 8 / 10 ^ 16).
  { apply Rabs_le_bounds in H2. apply Rabs_le. subst f. lra. }
  pose proof (Rabs_within _ _ _ _ Ha1 Hf) as Ha1b.
  pose proof (rnd_within (a1 / 100) _ Ha1b) as H3.
  set (force := rnd (a1 / 100)) in *.
  assert (Hforce : Rabs (force - f) <= 1 / 10 ^ 15).
  { replace (force - f) with ((force - a1 / 100) + (a1 / 100 - f)) by ring.
    eapply Rle_trans; [apply Rabs_triang|]. lra. }
  pose proof (Rabs_within _ _ _ _ Hforce Hf) as Hforceb.
  pose proof (product_within (rnd e) force e f _ _ _ _ H1 Hforce He100 Hforceb) as H4.
  assert (Hef : Rabs (e * f) <= 100).
  { rewrite Rabs_mult. replace 100 with (100 * 1) by ring.
    apply Rmult_le_compat; try apply Rabs_pos; assumption. }
  pose proof (Rabs_within _ _ _ _ H4 Hef) as H4b.
  pose proof (rnd_within (rnd e * force) _ H4b) as H5.
  set (m := rnd (rnd e * force)) in *.
  assert (Hm : Rabs (m - e * f) <= 13 / 10 ^ 14).
  { replace (m - e * f) with ((m - rnd e * force) + (rnd e * force - e * f)) by ring.
    eapply Rle_trans; [apply Rabs_triang|]. lra. }
  assert (Hc : Rabs 0.005 <= 0.005) by (rewrite Rabs_pos_eq; lra).
  pose proof (rnd_within 0.005 _ Hc) as H6.
  pose proof (Rabs_within _ _ _ _ H6 Hc) as H6b.
  pose proof (product_within m (rnd 0.005) (e * f) 0.005 _ _ _ _ Hm H6 Hef H6b) as H7.
  assert (Hefc : Rabs (e * f * 0.005) <= 0.5).
  { rewrite Rabs_mult, (Rabs_pos_eq 0.005) by lra. lra. }
  pose proof (Rabs_within _ _ _ _ H7 Hefc) as H7b.
  pose proof (rnd_within (m * rnd 0.005) _ H7b) as H8.
  replace (rnd (m * rnd 0.005) - e * f * 0.005)
    with ((rnd (m * rnd 0.005) - m * rnd 0.005) + (m * rnd 0.005 - e * f * 0.005))
    by ring.
  eapply Rle_trans; [apply Rabs_triang|]. lra.
Qed.

(** The exact impulse is largest half way into the radius: 50 * 0.5 * 0.005. *)
Lemma impulse_at_most e d :
  Rabs e <= d -> d <= interactionRadius ->
  Rabs (e * ((interactionRadius - d) / interactionRadius) * 0.005) <= 0.125.
Proof.
  unfold interactionRadius. intros He Hd.
  pose proof (Rabs_pos e) as He0.
  set (f := (100 - d) / 100).
  assert (Hf : 0 <= f) by (subst f; lra).
  rewrite !Rabs_mult, (Rabs_pos_eq f Hf), (Rabs_pos_eq 0.005) by lra.
  assert (H1 : Rabs e * f <= d * f) by (apply Rmult_le_compat_r; assumption).
  assert (H2 : d * f <= 25).
  { subst f. pose proof (Rle_0_sqr (d - 50)) as H. unfold Rsqr in H.
    replace (d * ((100 - d) / 100)) with ((100 * d - d * d) / 100) by field.
    lra. }
  lra.
Qed.

(** The velocity the clamp writes has an exact speed of at least
    [maxSpeed - 1e-14]. *)
Lemma rescaled_at_least vx vy :
  let s := Rounded.computedLength rnd vx vy in
  maxSpeed < s ->
  maxSpeed - / 10 ^ 14
  <= sqrt (rnd (rnd (vx / s) * maxSpeed) ^ 2 + rnd (rnd (vy / s) * maxSpeed) ^ 2).
Proof.
  intros s Hfast.
  destruct (quotients_by_computedLength vx vy Hfast) as (_ & Hax & Hay).
  fold s in Hax, Hay.
  pose proof (rescaled_component _ Hax) as Hrx.
  pose proof (rescaled_component _ Hay) as Hry.
  pose proof (computedLength_near vx vy) as Hs. fold s in Hs.
  apply Rabs_le_bounds in Hs.
  unfold maxSpeed in *.
  set (N := sqrt (vx * vx + vy * vy)) in *.
  assert (HNN : N * N = vx * vx + vy * vy).
  { apply sqrt_sqrt. pose proof (Rle_0_sqr vx). pose proof (Rle_0_sqr vy).
    unfold Rsqr in *. lra. }
  assert (HN : (1 - 3 / 10 ^ 15) * s <= N) by lra.
  remember (1 - 3 / 10 ^ 15) as c0 eqn:Hc0.
  assert (Hs0 : 0 < s) by lra.
  assert (Hss : 0 < s * s) by (apply Rmult_lt_0_compat; assumption).
  set (ax := vx / s) in *. set (ay := vy / s) in *.
  assert (Hlen : c0 * c0 <= ax * ax + ay * ay).
  { apply Rmult_le_reg_r with (s * s); [exact Hss|].
    replace ((ax * ax + ay * ay) * (s * s)) with (N * N)
      by (rewrite HNN; subst ax ay; field; lra).
    replace (c0 * c0 * (s * s)) with ((c0 * s) * (c0 * s)) by ring.
    assert (Hc0s : 0 <= c0 * s) by (apply Rmult_le_pos; lra).
    apply Rmult_le_compat; assumption. }
  assert (Hb : 1.5 * c0 <= sqrt ((1.5 * ax) * (1.5 * ax) + (1.5 * ay) * (1.5 * ay))).
  { rewrite <- (sqrt_square (1.5 * c0)) by lra.
    apply sqrt_le_1_alt.
    replace (1.5 * c0 * (1.5 * c0)) with (1.5 * 1.5 * (c0 * c0)) by ring.
    replace (1.5 * ax * (1.5 * ax) + 1.5 * ay * (1.5 * ay))
      with (1.5 * 1.5 * (ax * ax + ay * ay)) by ring.
    lra. }
  rewrite Rabs_minus_sym in Hrx. rewrite Rabs_minus_sym in Hry.
  pose proof (length_within _ _ _ _ (4 / 10 ^ 16) ltac:(lra) Hrx Hry) as Htri.
  replace (rnd (rnd ax * 1.5) ^ 2 + rnd (rnd ay * 1.5) ^ 2)
    with (rnd (rnd ax * 1.5) * rnd (rnd ax * 1.5) + rnd (rnd ay * 1.5) * rnd (rnd ay * 1.5))
    by ring.
  lra.
Qed.

(** A velocity component after the impulse, as computed, is within 2e-15
    of the exact sum. *)
Lemma computedVelocity_near ps imp i :
  Rabs ps <= 1.51 -> Rabs (imp - i) <= / 10 ^ 15 -> Rabs i <= 0.125 ->
  Rabs (rnd (ps + imp) - (ps + i)) <= 2 / 10 ^ 15.
Proof.
  intros Hps Himp Hi.
  apply Rabs_le_bounds in Hps. apply Rabs_le_bounds in Himp. apply Rabs_le_bounds in Hi.
  assert (Hsum : Rabs (ps + imp) <= 1.7) by (apply Rabs_le; lra).
  pose proof (rnd_within _ _ Hsum) as H. apply Rabs_le_bounds in H.
  apply Rabs_le. lra.
Qed.

(** X14.  Which particles a pointer event pulls, and by how much, whatever
    rounding within the error bounds of binary64 the operations perform.
    With [d] the exact distance between pointer and particle, and
    [(ix, iy) = (ex, ey) * ((100 - d) / 100) * 0.005] the exact impulse:
    - a particle at [d >= 100 + 1e-12] is left as it is;
    - a particle at [d <= 100 - 1e-12] whose exact speed after the impulse
      is at most [1.5 - 1e-12] gets the impulse: each velocity component
      ends within 2e-15 of the exact sum, and so changes by at most
      0.125 + 2e-15 (50 * 0.5 * 0.005, half way into the radius);
    - a particle at [d <= 100 - 1e-12] whose exact speed after the impulse
      is at least [1.5 + 1e-12] is clamped: its speed ends between
      [1.5 - 1e-14] and [1.5 + 1e-15]. *)
Theorem pointer_pulls_near_particles_only mouse (p : Particle) :
  speedOf p <= maxSpeed + speedSlack ->
  let q := Rounded.mouseInteraction rnd mouse p in
  let ex := mouseX mouse - Particle.x p in
  let ey := mouseY mouse - Particle.y p in
  let d := sqrt (ex * ex + ey * ey) in
  let ix := ex * ((interactionRadius - d) / interactionRadius) * 0.005 in
  let iy := ey * ((interactionRadius - d) / interactionRadius) * 0.005 in
  let v := sqrt ((Particle.speedX p + ix) ^ 2 + (Particle.speedY p + iy) ^ 2) in
  (interactionRadius + / 10 ^ 12 <= d -> q = p) /\
  (d <= interactionRadius - / 10 ^ 12 ->
   (v <= maxSpeed - / 10 ^ 12 ->
    Rabs (Particle.speedX q - (Particle.speedX p + ix)) <= 2 / 10 ^ 15 /\
    Rabs (Particle.speedY q - (Particle.speedY p + iy)) <= 2 / 10 ^ 15 /\
    Rabs (Particle.speedX q - Particle.speedX p) <= 0.125 + 2 / 10 ^ 15 /\
    Rabs (Particle.speedY q - Particle.speedY p) <= 0.125 + 2 / 10 ^ 15) /\
   (maxSpeed + / 10 ^ 12 <= v ->
    maxSpeed - / 10 ^ 14 <= speedOf q <= maxSpeed + speedSlack)).
Proof.
  intros Hp q ex ey d ix iy v.
  destruct (component_le_length ex ey) as [Hex Hey]. fold d in Hex, Hey.
  pose proof (computedDistance_near ex ey) as HD. fold d in HD.
  apply Rabs_le_bounds in HD.
  assert (Hd0 : 0 <= d) by apply sqrt_pos.
  subst q. unfold Rounded.mouseInteraction. fold ex ey.
  change (rnd (sqrt (rnd (rnd (rnd ex * rnd ex) + rnd (rnd ey * rnd ey)))))
    with (Rounded.computedLength rnd (rnd ex) (rnd ey)).
  set (D := Rounded.computedLength rnd (rnd ex) (rnd ey)) in *.
  destruct (Rlt_dec D interactionRadius) as [Hnear|Hfar].
  2: { unfold interactionRadius in *. split; [reflexivity|]. intros Hd. exfalso. lra. }
  split; [unfold interactionRadius in *; intros Hd; exfalso; lra|].
  intros Hd.
  assert (Hd100 : d <= interactionRadius) by (unfold interactionRadius in *; lra).
  assert (HDd : Rabs (D - d) <= 6 / 10 ^ 14)
    by (unfold interactionRadius in *; apply Rabs_le; lra).
  pose proof (computedImpulse_near ex d D Hex Hd100 HDd) as Hix.
  pose proof (computedImpulse_near ey d D Hey Hd100 HDd) as Hiy.
  pose proof (impulse_at_most ex d Hex Hd100) as Hixb.
  pose proof (impulse_at_most ey d Hey Hd100) as Hiyb.
  fold ix in Hix, Hixb. fold iy in Hiy, Hiyb.
  unfold interactionRadius in Hix, Hiy. unfold interactionRadius.
  set (force := rnd (rnd (100 - D) / 100)) in *.
  set (impx := rnd (rnd (rnd ex * force) * rnd 0.005)) in *.
  set (impy := rnd (rnd (rnd ey * force) * rnd 0.005)) in *.
  destruct (component_le_length (Particle.speedX p) (Particle.speedY p)) as [Hsx Hsy].
  unfold speedOf, maxSpeed, speedSlack in Hp.
  replace (Particle.speedX p ^ 2 + Particle.speedY p ^ 2)
    with (Particle.speedX p * Particle.speedX p + Particle.speedY p * Particle.speedY p)
    in Hp by ring.
  pose proof (computedVelocity_near (Particle.speedX p) impx ix ltac:(lra) Hix Hixb) as Hvx.
  pose proof (computedVelocity_near (Particle.speedY p) impy iy ltac:(lra) Hiy Hiyb) as Hvy.
  set (vx1 := rnd (Particle.speedX p + impx)) in *.
  set (vy1 := rnd (Particle.speedY p + impy)) in *.
  change (rnd (sqrt (rnd (rnd (vx1 * vx1) + rnd (vy1 * vy1)))))
    with (Rounded.computedLength rnd vx1 vy1).
  pose proof (computedLength_near vx1 vy1) as HS. apply Rabs_le_bounds in HS.
  assert (Hg : 0 <= 2 / 10 ^ 15) by lra.
  pose proof (length_within _ _ _ _ _ Hg Hvx Hvy) as Hup.
  assert (Hvx' := Hvx). assert (Hvy' := Hvy).
  rewrite Rabs_minus_sym in Hvx'. rewrite Rabs_minus_sym in Hvy'.
  pose proof (length_within _ _ _ _ _ Hg Hvx' Hvy') as Hlo.
  replace ((Particle.speedX p + ix) * (Particle.speedX p + ix)
           + (Particle.speedY p + iy) * (Particle.speedY p + iy))
    with ((Particle.speedX p + ix) ^ 2 + (Particle.speedY p + iy) ^ 2) in Hup, Hlo by ring.
  fold v in Hup, Hlo.
  set (V1 := sqrt (vx1 * vx1 + vy1 * vy1)) in *.
  set (S := Rounded.computedLength rnd vx1 vy1) in *.
  destruct (Rlt_dec maxSpeed S) as [Hfast|Hslow].
  - split; intros Hv.
    + exfalso. unfold maxSpeed in *. lra.
    + unfold speedOf. cbn [Particle.speedX Particle.speedY]. split.
      * apply rescaled_at_least, Hfast.
      * apply rescaled_by_computedLength, Hfast.
  - split; intros Hv.
    + cbn [Particle.speedX Particle.speedY].
      split; [exact Hvx|]. split; [exact Hvy|].
      apply Rabs_le_bounds in Hvx. apply Rabs_le_bounds in Hvy.
      apply Rabs_le_bounds in Hixb. apply Rabs_le_bounds in Hiyb.
      split; apply Rabs_le; lra.
    + exfalso. unfold maxSpeed in *. lra.
Qed.

(** A constant is rounded to within 1e-15 of itself when it is at most 1. *)
Lemma rnd_constant c : 0 <= c <= 1 -> c - / 10 ^ 15 <= rnd c <= c + / 10 ^ 15.
Proof.
  intros Hc. pose proof (rnd_of_nonneg c ltac:(lra)) as H. lra.
Qed.

Lemma constructor_oscillatesRounded canvas d :
  Particle.validDraws d -> oscillatesRounded (Rounded.constructor rnd canvas d).
Proof.
  intros Hd. unfold Particle.validDraws, Particle.unitInterval in Hd.
  destruct Hd as (_ & _ & _ & _ & _ & _ & Hr & _).
  unfold oscillatesRounded.
  cbn [Rounded.constructor Particle.opacity Particle.opacityDirection].
  set (r := Particle.rndOpacity d) in *.
  pose proof (rnd_constant 0.4 ltac:(lra)) as H4.
  pose proof (rnd_constant 0.2 ltac:(lra)) as H2.
  assert (Hprod : 0 <= r * rnd 0.4 <= 0.4 + / 10 ^ 15) by nra.
  pose proof (rnd_of_nonneg (r * rnd 0.4) ltac:(lra)) as Hm.
  assert (Hsum : 0.19 <= rnd (r * rnd 0.4) + rnd 0.2 <= 0.6 + / 10 ^ 14) by lra.
  pose proof (rnd_of_nonneg (rnd (r * rnd 0.4) + rnd 0.2) ltac:(lra)) as Ho.
  split_and!; try lra.
  destruct (Rlt_dec 0.5 (Particle.rndDirection d)); auto.
Qed.

Lemma update_oscillatesRounded canvas p :
  oscillatesRounded p -> oscillatesRounded (Rounded.update rnd canvas p).
Proof.
  intros (Hrange & Hdir & Hhigh & Hlow).
  unfold oscillatesRounded.
  cbn [Rounded.update Particle.opacity Particle.opacityDirection].
  pose proof (rnd_constant 0.005 ltac:(lra)) as H5.
  pose proof (rnd_constant 0.6 ltac:(lra)) as H6.
  pose proof (rnd_constant 0.15 ltac:(lra)) as H15.
  set (o := Particle.opacity p) in *.
  set (step := rnd (IZR (Particle.opacityDirection p) * rnd 0.005)).
  assert (Hstep : (Particle.opacityDirection p = 1%Z /\ o <= 0.6001 /\
                   0.00499 <= step <= 0.00501) \/
                  (Particle.opacityDirection p = (-1)%Z /\ 0.1499 <= o /\
                   -0.00501 <= step <= -0.00499)).
  { destruct Hdir as [Hd|Hd]; [left | right]; (split; [exact Hd|]).
    - split.
      + destruct (Rle_dec o 0.6001) as [H|H]; [exact H|].
        rewrite Hhigh in Hd by lra. discriminate.
      + subst step. rewrite Hd.
        pose proof (rnd_near (1 * rnd 0.005)) as Hs.
        rewrite (Rabs_pos_eq (1 * rnd 0.005)) in Hs by lra.
        apply Rabs_le_bounds in Hs. lra.
    - split.
      + destruct (Rle_dec 0.1499 o) as [H|H]; [exact H|].
        rewrite Hlow in Hd by lra. discriminate.
      + subst step. rewrite Hd.
        pose proof (rnd_near (-1 * rnd 0.005)) as Hs.
        rewrite (Rabs_left (-1 * rnd 0.005)) in Hs by lra.
        apply Rabs_le_bounds in Hs. lra. }
  assert (Hsum : 0.13 <= o + step <= 0.62) by (destruct Hstep as [H|H]; lra).
  pose proof (rnd_of_nonneg (o + step) ltac:(lra)) as Ho.
  set (o1 := rnd (o + step)) in *.
  assert (Ho1 : 0.144 <= o1 <= 0.606) by (destruct Hstep as [H|H]; lra).
  split_and!.
  - lra.
  - lra.
  - destruct (Rlt_dec o1 (rnd 0.15)); [auto|].
    destruct (Rlt_dec (rnd 0.6) o1); auto.
  - intros Hhi. destruct (Rlt_dec o1 (rnd 0.15)); [lra|].
    destruct (Rlt_dec (rnd 0.6) o1); [reflexivity | lra].
  - intros Hlo. destruct (Rlt_dec o1 (rnd 0.15)); [reflexivity | lra].
Qed.

(** The pointer force changes the velocity and nothing else, under any
    rounding. *)
Lemma rounded_mouseInteraction_velocity_only mouse (p : Particle) :
  let q := Rounded.mouseInteraction rnd mouse p in
  Particle.x q = Particle.x p /\ Particle.y q = Particle.y p /\
  Particle.size q = Particle.size p /\ Particle.color q = Particle.color p /\
  Particle.opacity q = Particle.opacity p /\
  Particle.opacityDirection q = Particle.opacityDirection p.
Proof.
  cbv zeta. unfold Rounded.mouseInteraction.
  repeat match goal with
         | |- context [Rlt_dec ?a ?b] => destruct (Rlt_dec a b)
         end; repeat split.
Qed.

Lemma constructor_within_slack canvas d :
  Particle.validDraws d ->
  speedOf (Rounded.constructor rnd canvas d) <= maxSpeed + speedSlack.
Proof.
  intros Hd. unfold Particle.validDraws, Particle.unitInterval in Hd.
  destruct Hd as (_ & _ & _ & Hx & Hy & _).
  pose proof (rnd_constant 0.3 ltac:(lra)) as H3.
  assert (Hcomponent : forall r, 0 <= r < 1 ->
            Rabs (rnd (rnd (r - 0.5) * rnd 0.3)) <= 0.16).
  { intros r Hr.
    pose proof (rnd_within (r - 0.5) 0.5 ltac:(apply Rabs_le; lra)) as Hd1.
    apply Rabs_le_bounds in Hd1.
    assert (Hprod : Rabs (rnd (r - 0.5) * rnd 0.3) <= 0.151).
    { apply Rabs_le. split; nra. }
    pose proof (rnd_within _ _ Hprod) as Hd2.
    apply Rabs_le_bounds in Hprod. apply Rabs_le_bounds in Hd2.
    apply Rabs_le. lra. }
  pose proof (Hcomponent _ Hx) as Hvx. pose proof (Hcomponent _ Hy) as Hvy.
  unfold speedOf. cbn [Rounded.constructor Particle.speedX Particle.speedY].
  set (vx := rnd (rnd (Particle.rndSpeedX d - 0.5) * rnd 0.3)) in *.
  set (vy := rnd (rnd (Particle.rndSpeedY d - 0.5) * rnd 0.3)) in *.
  apply Rabs_le_bounds in Hvx. apply Rabs_le_bounds in Hvy.
  unfold maxSpeed, speedSlack.
  rewrite <- (sqrt_pow2 (1.5 + / 10 ^ 15)) by lra.
  apply sqrt_le_1_alt. nra.
Qed.

(** X26: whatever rounding within the error bounds of binary64 the
    operations perform, a particle keeps an opacity in [0.144, 0.606] and a
    speed of at most 1.5 + 10^-15 for its whole life: from its construction
    through any sequence of frames, on canvases of any size, and of accepted
    pointer events, at any position. *)
Theorem reachable_particles_stay_bounded (p : Particle) :
  Rounded.reachable rnd p ->
  0.144 <= Particle.opacity p <= 0.606 /\ speedOf p <= maxSpeed + speedSlack.
Proof.
  intros Hp.
  assert (Hinv : oscillatesRounded p /\ speedOf p <= maxSpeed + speedSlack).
  { induction Hp as [canvas d Hd | canvas p _ [Hosc Hspeed] | mouse p _ [Hosc Hspeed]].
    - split; [apply constructor_oscillatesRounded | apply constructor_within_slack];
        exact Hd.
    - split; [apply update_oscillatesRounded, Hosc | exact Hspeed].
    - split; [|apply mouseInteraction_within_slack, Hspeed].
      destruct (rounded_mouseInteraction_velocity_only mouse p)
        as (_ & _ & _ & _ & Ho & Hd).
      unfold oscillatesRounded in *. rewrite Ho, Hd. exact Hosc. }
  destruct Hinv as [[Hrange _] Hspeed]. split; assumption.
Qed.

End RoundedPointerForce.

(** ** Rounding to nearest satisfies the error bounds *)

Section NearestRounding.
Local Open Scope R_scope.

Lemma powerRZ_2_pos g : 0 < powerRZ 2 g.
Proof. apply powerRZ_lt. lra. Qed.

(** A number that is not 0 is at least the power of 2 of its binade. *)
Lemma binadeOf_below x : x <> 0 -> powerRZ 2 (binadeOf x) <= Rabs x.
Proof.
  intros Hx. unfold binadeOf.
  assert (Hpos : 0 < Rabs x) by (apply Rabs_pos_lt, Hx).
  assert (Hln2 : 0 < ln 2) by (rewrite <- ln_1; apply ln_increasing; lra).
  pose proof (Zfloor_bound (ln (Rabs x) / ln 2)) as [Hb _].
  rewrite powerRZ_Rpower by lra. unfold Rpower.
  rewrite <- (exp_ln (Rabs x) Hpos) at 2.
  destruct (Rle_lt_or_eq_dec _ _ Hb) as [Hlt| ->].
  - apply Rlt_le, exp_increasing.
    apply Rmult_lt_reg_r with (/ ln 2); [apply Rinv_0_lt_compat, Hln2|].
    rewrite Rmult_assoc, Rinv_r by lra. lra.
  - right. f_equal. field. lra.
Qed.

Lemma roundToNearest_standard : standardModel roundToNearest.
Proof.
  intros x.
  assert (Hu0 : 0 < unitRoundoff)
    by (unfold unitRoundoff; apply Rinv_0_lt_compat; lra).
  assert (He : 0 < underflowError)
    by (unfold underflowError; apply Rinv_0_lt_compat, pow_lt; lra).
  assert (Hu : 0 <= unitRoundoff * Rabs x)
    by (apply Rmult_le_pos; [lra | apply Rabs_pos]).
  unfold roundToNearest.
  set (g := gridExponent x). set (q := powerRZ 2 g).
  assert (Hq : 0 < q) by apply powerRZ_2_pos.
  destruct (Req_dec x 0) as [Hx|Hx].
  { assert (Hxq : x / q = 0) by (unfold Rdiv; rewrite Hx at 1; apply Rmult_0_l).
    rewrite Hxq, Rplus_0_l, (Zfloor_eq 0) by lra.
    replace (0 * q - x) with 0 by lra. rewrite Rabs_R0. lra. }
  pose proof (Zfloor_bound (x / q + / 2)) as Hn.
  set (n := IZR (Zfloor (x / q + / 2))) in *.
  assert (Herr : Rabs (n * q - x) <= q / 2).
  { replace (n * q - x) with ((n - x / q) * q) by (field; lra).
    rewrite Rabs_mult, (Rabs_pos_eq q) by lra.
    replace (q / 2) with (/ 2 * q) by field.
    apply Rmult_le_compat_r; [lra|]. apply Rabs_le. lra. }
  eapply Rle_trans; [exact Herr|].
  subst q g. unfold gridExponent.
  destruct (Z.max_spec (-1074) (binadeOf x - 52)) as [[_ ->]|[_ ->]].
  - pose proof (binadeOf_below x Hx) as Hb.
    replace (binadeOf x - 52)%Z with (binadeOf x + -52)%Z by lia.
    rewrite powerRZ_add by lra.
    change (powerRZ 2 (-52)) with (/ 2 ^ 52).
    pose proof (powerRZ_2_pos (binadeOf x)) as Hp.
    assert (Heq : powerRZ 2 (binadeOf x) * / 2 ^ 52 / 2
                  = unitRoundoff * powerRZ 2 (binadeOf x))
      by (unfold unitRoundoff; field).
    assert (Hle : unitRoundoff * powerRZ 2 (binadeOf x) <= unitRoundoff * Rabs x)
      by (apply Rmult_le_compat_l; [lra | exact Hb]).
    lra.
  - change (powerRZ 2 (-1074)) with (/ 2 ^ 1074).
    assert (Heq : / 2 ^ 1074 / 2 = underflowError).
    { unfold underflowError. change (2 ^ 1075) with (2 * 2 ^ 1074).
      pose proof (pow_lt 2 1074 ltac:(lra)). field. }
    lra.
Qed.

End NearestRounding.

Lemma restingAt_within_limit px py : (speedOf (restingAt px py) <= maxSpeed)%R.
Proof.
  unfold speedOf. cbn [restingAt Particle.speedX Particle.speedY].
  replace (0 ^ 2 + 0 ^ 2)%R with 0%R by ring. rewrite sqrt_0. unfold maxSpeed. lra.
Qed.

Lemma handleMouseMove_keeps_speed_near_limit_witness :
  standardModel roundToNearest /\
  (speedOf (restingAt 10 10) <= maxSpeed)%R /\
  (speedOf (Rounded.mouseInteraction roundToNearest
              {| mouseX := 13; mouseY := 14; active := true |} (restingAt 10 10))
   <= maxSpeed + speedSlack)%R.
Proof.
  split; [exact roundToNearest_standard|].
  split; [apply restingAt_within_limit|].
  exact (proj1 (handleMouseMove_keeps_speed_near_limit roundToNearest roundToNearest_standard
                  {| mouseX := 13; mouseY := 14; active := true |} (restingAt 10 10))
               (restingAt_within_limit 10 10)).
Defined.

Lemma reachable_particles_stay_bounded_witness :
  standardModel roundToNearest /\
  (0.144 <=
   Particle.opacity
     (Rounded.mouseInteraction roundToNearest
        {| mouseX := 250; mouseY := 300; active := true |}
        (Rounded.update roundToNearest canvas800x600
           (Rounded.constructor roundToNearest canvas800x600 sampleDraws)))
   <= 0.606)%R /\
  (speedOf
     (Rounded.mouseInteraction roundToNearest
        {| mouseX := 250; mouseY := 300; active := true |}
        (Rounded.update roundToNearest canvas800x600
           (Rounded.constructor roundToNearest canvas800x600 sampleDraws)))
   <= maxSpeed + speedSlack)%R.
Proof.
  split; [exact roundToNearest_standard|].
  apply (reachable_particles_stay_bounded roundToNearest roundToNearest_standard).
  apply Rounded.pulled, Rounded.updated, Rounded.built. exact sampleDraws_valid.
Defined.

Lemma pointer_pulls_near_particles_only_witness :
  standardModel roundToNearest /\
  (speedOf (restingAt 10 10) <= maxSpeed + speedSlack)%R /\
  (Rabs (Particle.speedX
           (Rounded.mouseInteraction roundToNearest
              {| mouseX := 13; mouseY := 14; active := true |} (restingAt 10 10))
         - 0.01425) <= 2 / 10 ^ 15)%R /\
  (Rabs (Particle.speedY
           (Rounded.mouseInteraction roundToNearest
              {| mouseX := 13; mouseY := 14; active := true |} (restingAt 10 10))
         - 0.019) <= 2 / 10 ^ 15)%R.
Proof.
  assert (Hp : (speedOf (restingAt 10 10) <= maxSpeed + speedSlack)%R).
  { pose proof (restingAt_within_limit 10 10). unfold speedSlack. lra. }
  split; [exact roundToNearest_standard|]. split; [exact Hp|].
  pose proof (pointer_pulls_near_particles_only roundToNearest roundToNearest_standard
                {| mouseX := 13; mouseY := 14; active := true |} (restingAt 10 10) Hp) as T.
  cbv zeta in T. destruct T as [_ T].
  cbn [mouseX mouseY Particle.x Particle.y Particle.speedX Particle.speedY restingAt] in T.
  replace ((13 - 10) * (13 - 10) + (14 - 10) * (14 - 10))%R with (5 * 5)%R in T by lra.
  rewrite (sqrt_square 5) in T by lra.
  unfold interactionRadius, maxSpeed in T.
  destruct (T ltac:(lra)) as [T1 _].
  replace (0 + (13 - 10) * ((100 - 5) / 100) * 0.005)%R with 0.01425%R in T1 by lra.
  replace (0 + (14 - 10) * ((100 - 5) / 100) * 0.005)%R with 0.019%R in T1 by lra.
  assert (Hv : (sqrt (0.01425 ^ 2 + 0.019 ^ 2) <= 1.5 - / 10 ^ 12)%R).
  { apply Rle_trans with (sqrt (1 * 1)); [apply sqrt_le_1_alt; lra|].
    rewrite sqrt_square; lra. }
  destruct (T1 Hv) as (Tx & Ty & _).
  split; assumption.
Defined.

(** ** The pointer force in binary64 *)

Section Binary64PointerForce.
Import PrimFloat SpecFloat FloatOps FloatAxioms.
#[local] Set Warnings "-inexact-float".

Lemma Prim2SF_not_nan v : is_nan v = false -> Prim2SF v <> S754_nan.
Proof.
  unfold Prim2SF. intros ->.
  destruct (is_zero v); [discriminate|].
  destruct (is_infinity v); [discriminate|].
  destruct (Z.frexp v) as [r e].
  destruct (shr_fexp _ _ _ _ _) as [shr e'].
  destruct (shr_m shr); discriminate.
Qed.

Lemma is_nan_Prim2SF v : Prim2SF v <> S754_nan -> is_nan v = false.
Proof.
  unfold Prim2SF. destruct (is_nan v); [congruence | reflexivity].
Qed.

Lemma Prim2SF_not_infinity v s :
  is_nan v = false -> is_infinity v = false -> Prim2SF v <> S754_infinity s.
Proof.
  unfold Prim2SF. intros -> Hinf.
  destruct (is_zero v); [discriminate|].
  rewrite Hinf.
  destruct (Z.frexp v) as [r e].
  destruct (shr_fexp _ _ _ _ _) as [shr e'].
  destruct (shr_m shr); discriminate.
Qed.

(** A finite float is a zero or has a sign, a mantissa and an exponent. *)
Lemma finite_cases v :
  isFinite v = true ->
  (exists s, Prim2SF v = S754_zero s) \/ (exists s m e, Prim2SF v = S754_finite s m e).
Proof.
  unfold isFinite. intros H. apply andb_prop in H as [Hnan Hinf].
  apply negb_true_iff in Hnan, Hinf.
  pose proof (Prim2SF_not_nan v Hnan) as H1.
  pose proof (fun s => Prim2SF_not_infinity v s Hnan Hinf) as H2.
  destruct (Prim2SF v) as [s|s| |s m e]; eauto.
  - destruct (H2 s eq_refl).
  - destruct (H1 eq_refl).
Qed.

Lemma isFinite_not_nan v : isFinite v = true -> is_nan v = false.
Proof.
  unfold isFinite. intros H. apply andb_prop in H as [H _].
  apply negb_true_iff in H. exact H.
Qed.

(** A finite float and a float numerically equal to it have the difference
    0 (of either sign). *)
Lemma sub_coincident a b :
  isFinite b = true -> (a =? b)%float = true ->
  (a - b = 0 \/ a - b = -0)%float.
Proof.
  intros Hb Heq. rewrite eqb_spec in Heq.
  assert (H : Prim2SF (a - b) = S754_zero false \/ Prim2SF (a - b) = S754_zero true).
  { rewrite sub_spec. unfold SF64sub.
    destruct (finite_cases b Hb) as [[s' Hs]|(s' & m' & e' & Hs)]; rewrite Hs in *.
    - destruct (Prim2SF a) as [s|s| |s m e]; cbn in Heq; try discriminate.
      + destruct s, s'; cbn; auto.
      + destruct s; discriminate.
      + destruct s; discriminate.
    - destruct (Prim2SF a) as [s|s| |s m e]; cbn in Heq; try discriminate.
      + destruct s'; discriminate.
      + destruct s; discriminate.
      + assert (s = s' /\ e = e' /\ m = m') as (<- & <- & <-).
        { change (PosDef.Pos.compare_cont Eq m m') with (Pos.compare m m') in Heq.
          destruct s, s'; try discriminate;
            destruct (Z.compare_spec e e'); try discriminate;
            (split; [reflexivity|]; split; [assumption|]);
            destruct (Pos.compare_spec m m') as [Hc|Hc|Hc];
              solve [exact Hc | discriminate]. }
        left. unfold SFsub. rewrite Z.sub_diag. reflexivity. }
  destruct H as [H|H]; [left | right]; apply Prim2SF_inj; rewrite H; reflexivity.
Qed.

Lemma SFeqb_refl X : X <> S754_nan -> SFeqb X X = true.
Proof.
  destruct X as [s|s| |s m e]; intros HX; unfold SFeqb; cbn.
  - reflexivity.
  - destruct s; reflexivity.
  - congruence.
  - change (PosDef.Pos.compare_cont Eq m m) with (Pos.compare m m).
    rewrite Z.compare_refl, Pos.compare_refl. destruct s; reflexivity.
Qed.

Lemma sameNumber_eqb a b :
  Binary64.sameNumber a b -> is_nan b = false -> (a =? b)%float = true.
Proof.
  intros [->|(s & s' & Ha & Hb)] Hnan; rewrite eqb_spec.
  - apply SFeqb_refl, Prim2SF_not_nan, Hnan.
  - rewrite Ha, Hb. reflexivity.
Qed.

Lemma sameNumber_not_nan a b :
  Binary64.sameNumber a b -> is_nan b = false -> is_nan a = false.
Proof.
  intros [->|(s & s' & Ha & _)] Hb; [exact Hb|].
  apply is_nan_Prim2SF. rewrite Ha. discriminate.
Qed.

(** Adding a zero does not change the number. *)
Lemma add_zero_sameNumber v z :
  (z = 0 \/ z = -0)%float -> Binary64.sameNumber (v + z)%float v.
Proof.
  intros Hz.
  assert (Hspec : exists sz, Prim2SF z = S754_zero sz).
  { destruct Hz as [->| ->]; eexists; reflexivity. }
  destruct Hspec as [sz Hsz].
  pose proof (add_spec v z) as Hadd. rewrite Hsz in Hadd. unfold SF64add in Hadd.
  destruct (Prim2SF v) as [s|s| |s m e] eqn:Hv.
  - right. exists (if s then (if sz then true else false) else false), s.
    split; [|exact Hv]. rewrite Hadd. destruct s, sz; reflexivity.
  - left. apply Prim2SF_inj. rewrite Hadd, Hv. reflexivity.
  - left. apply Prim2SF_inj. rewrite Hadd, Hv. reflexivity.
  - left. apply Prim2SF_inj. rewrite Hadd, Hv. reflexivity.
Qed.

Lemma sameNumber_square a b : Binary64.sameNumber a b -> (a * a = b * b)%float.
Proof.
  intros [->|(s & s' & Ha & Hb)]; [reflexivity|].
  apply Prim2SF_inj. rewrite !mul_spec, Ha, Hb. unfold SF64mul. cbn.
  destruct s, s'; reflexivity.
Qed.

(** Shifting and rounding keep a mantissa non-negative, so that rounding a
    non-negative mantissa never yields [NaN]. *)
Lemma shr_1_nonneg mrs : (0 <= shr_m mrs)%Z -> (0 <= shr_m (shr_1 mrs))%Z.
Proof.
  destruct mrs as [m r t]. cbn [shr_m shr_1].
  destruct m as [|p|p]; [cbn; lia | | lia].
  intros _. destruct p; cbn; lia.
Qed.

Lemma iter_pos_shr_1_nonneg p : forall mrs,
  (0 <= shr_m mrs)%Z -> (0 <= shr_m (iter_pos shr_1 p mrs))%Z.
Proof.
  induction p as [p IH|p IH|]; intros mrs H; cbn [iter_pos].
  - apply IH, IH, shr_1_nonneg, H.
  - apply IH, IH, H.
  - apply shr_1_nonneg, H.
Qed.

Lemma shr_fexp_nonneg m e l :
  (0 <= m)%Z -> (0 <= shr_m (shr_fexp prec emax m e l).1)%Z.
Proof.
  intros Hm. unfold shr_fexp, shr.
  assert (H0 : (0 <= shr_m (shr_record_of_loc m l))%Z).
  { destruct l as [|[| |]]; exact Hm. }
  destruct (fexp prec emax (Zdigits2 m + e) - e)%Z; cbn [fst]; auto.
  apply iter_pos_shr_1_nonneg, H0.
Qed.

Lemma binary_round_aux_not_nan s m e l :
  (0 <= m)%Z -> binary_round_aux prec emax s m e l <> S754_nan.
Proof.
  intros Hm. unfold binary_round_aux.
  pose proof (shr_fexp_nonneg m e l Hm) as H1.
  destruct (shr_fexp prec emax m e l) as [mrs' e']. cbn [fst] in H1.
  assert (H2 : (0 <= round_nearest_even (shr_m mrs') (loc_of_shr_record mrs'))%Z).
  { unfold round_nearest_even.
    destruct (loc_of_shr_record mrs') as [|[| |]]; try lia.
    destruct (Z.even (shr_m mrs')); lia. }
  pose proof (shr_fexp_nonneg _ e' loc_Exact H2) as H3.
  destruct (shr_fexp prec emax _ e' loc_Exact) as [mrs'' e'']. cbn [fst] in H3.
  destruct (shr_m mrs'') as [|p|p]; [discriminate | | lia].
  destruct (e'' <=? emax - prec)%Z; discriminate.
Qed.

(** What [maxSpeed <? speed] says of [speed]: it is a positive number or
    the positive infinity. *)
Lemma above_maxSpeed speed :
  (Binary64.maxSpeed <? speed)%float = true ->
  Prim2SF speed = S754_infinity false \/
  exists m e, Prim2SF speed = S754_finite false m e.
Proof.
  rewrite ltb_spec.
  change (Prim2SF Binary64.maxSpeed) with (S754_finite false 6755399441055744 (-52)).
  destruct (Prim2SF speed) as [s|s| |s m e]; unfold SFltb; cbn.
  - discriminate.
  - destruct s; [discriminate | auto].
  - discriminate.
  - destruct s; [discriminate | eauto].
Qed.

Lemma SFdiv_not_nan s m e s' m' e' :
  SFdiv prec emax (S754_finite s m e) (S754_finite s' m' e') <> S754_nan.
Proof.
  unfold SFdiv.
  destruct (SFdiv_core_binary prec emax (Z.pos m) e (Z.pos m') e')
    as [[mz ez] lz] eqn:Hcore.
  apply binary_round_aux_not_nan.
  unfold SFdiv_core_binary in Hcore.
  set (shift := (e - e' - _)%Z) in Hcore.
  set (m1 := match shift with
             | Z.pos _ => Z.shiftl (Z.pos m) shift
             | 0%Z => Z.pos m
             | Z.neg _ => 0%Z
             end) in Hcore.
  assert (Hm1 : (0 <= m1)%Z).
  { subst m1. destruct shift; [lia | | lia]. apply Z.shiftl_nonneg. lia. }
  pose proof (Z.div_pos m1 (Z.pos m') Hm1 ltac:(lia)) as Hq.
  unfold Z.div in Hq.
  destruct (Z.div_eucl m1 (Z.pos m')) as [q r].
  injection Hcore as <- _ _. exact Hq.
Qed.

Lemma rescale_zero v speed :
  (exists s, Prim2SF v = S754_zero s) ->
  (Binary64.maxSpeed <? speed)%float = true ->
  exists s, Prim2SF (v / speed * Binary64.maxSpeed)%float = S754_zero s.
Proof.
  intros [s Hs] Hspeed.
  assert (Hdiv : exists s0, Prim2SF (v / speed)%float = S754_zero s0).
  { rewrite div_spec, Hs. unfold SF64div.
    destruct (above_maxSpeed speed Hspeed) as [Hinf|(m' & e' & Hfin)];
      rewrite ?Hinf, ?Hfin; eexists; reflexivity. }
  destruct Hdiv as [s0 Hs0].
  rewrite mul_spec, Hs0. unfold SF64mul.
  change (Prim2SF Binary64.maxSpeed) with (S754_finite false 6755399441055744 (-52)).
  eexists. reflexivity.
Qed.

(** Rescaling a finite component by [maxSpeed / speed], for a [speed]
    above [maxSpeed], gives no [NaN]. *)
Lemma rescale_not_nan v speed :
  isFinite v = true -> (Binary64.maxSpeed <? speed)%float = true ->
  is_nan (v / speed * Binary64.maxSpeed)%float = false.
Proof.
  intros Hv Hspeed.
  assert (Hdiv : Prim2SF (v / speed)%float <> S754_nan).
  { rewrite div_spec. unfold SF64div.
    destruct (finite_cases v Hv) as [[s Hs]|(s & m & e & Hs)];
      destruct (above_maxSpeed speed Hspeed) as [Hinf|(m' & e' & Hfin)];
      rewrite Hs, ?Hinf, ?Hfin; try discriminate.
    apply SFdiv_not_nan. }
  apply is_nan_Prim2SF.
  rewrite mul_spec. unfold SF64mul.
  change (Prim2SF Binary64.maxSpeed) with (S754_finite false 6755399441055744 (-52)).
  destruct (Prim2SF (v / speed)%float) as [s|s| |s m e]; try discriminate.
  - congruence.
  - apply binary_round_aux_not_nan. lia.
Qed.

Lemma sameNumber_rescale a b speed :
  Binary64.sameNumber a b -> (Binary64.maxSpeed <? speed)%float = true ->
  Binary64.sameNumber (a / speed * Binary64.maxSpeed)%float
                      (b / speed * Binary64.maxSpeed)%float.
Proof.
  intros [->|(s & s' & Ha & Hb)] Hspeed; [left; reflexivity|].
  right.
  destruct (rescale_zero a speed (ex_intro _ s Ha) Hspeed) as [sa Hza].
  destruct (rescale_zero b speed (ex_intro _ s' Hb) Hspeed) as [sb Hzb].
  eauto.
Qed.

(** What the pointer code computes when both differences are zeros. *)
Lemma coincident_distance z1 z2 :
  (z1 = 0 \/ z1 = -0)%float -> (z2 = 0 \/ z2 = -0)%float ->
  sqrt (z1 * z1 + z2 * z2)%float = 0%float.
Proof. intros [-> | ->] [-> | ->]; reflexivity. Qed.

Lemma coincident_impulse z :
  (z = 0 \/ z = -0)%float ->
  let force :=
    ((Binary64.interactionRadius - 0) / Binary64.interactionRadius)%float in
  (z * force * 0.005 = 0 \/ z * force * 0.005 = -0)%float.
Proof. intros [-> | ->]; [left | right]; reflexivity. Qed.

(** C9, as the code has it in binary64.  For a particle with finite position
    and velocity whose position equals the pointer position, the distance is
    0, the code divides only by the interaction radius and by a speed above
    1.5, and the impulse added to the velocity is a zero: no [NaN] reaches
    the velocity, and the velocity keeps its value whenever the speed the
    code computes for the particle is not above 1.5.  When that speed is
    above 1.5, the clamp rescales the velocity: the velocity changes without
    any force.  Position, size, colour and opacity are kept. *)
Theorem coincident_pointer_adds_nothing mouse (p : Binary64.Particle) :
  isFinite (Binary64.x p) = true ->
  isFinite (Binary64.y p) = true ->
  isFinite (Binary64.speedX p) = true ->
  isFinite (Binary64.speedY p) = true ->
  (Binary64.mouseX mouse =? Binary64.x p)%float = true ->
  (Binary64.mouseY mouse =? Binary64.y p)%float = true ->
  let q := Binary64.mouseInteraction mouse p in
  let speed := Binary64.speedOf p in
  is_nan (Binary64.speedX q) = false /\
  is_nan (Binary64.speedY q) = false /\
  ((Binary64.maxSpeed <? speed)%float = false ->
   (Binary64.speedX q =? Binary64.speedX p)%float = true /\
   (Binary64.speedY q =? Binary64.speedY p)%float = true) /\
  ((Binary64.maxSpeed <? speed)%float = true ->
   (Binary64.speedX q =? Binary64.speedX p / speed * Binary64.maxSpeed)%float = true /\
   (Binary64.speedY q =? Binary64.speedY p / speed * Binary64.maxSpeed)%float = true) /\
  Binary64.x q = Binary64.x p /\ Binary64.y q = Binary64.y p /\
  Binary64.size q = Binary64.size p /\ Binary64.color q = Binary64.color p /\
  Binary64.opacity q = Binary64.opacity p /\
  Binary64.opacityDirection q = Binary64.opacityDirection p.
Proof.
  intros Hx Hy Hsx Hsy Hmx Hmy q speed. subst q speed.
  pose proof (sub_coincident _ _ Hx Hmx) as Hdx.
  pose proof (sub_coincident _ _ Hy Hmy) as Hdy.
  unfold Binary64.mouseInteraction.
  set (dx := (Binary64.mouseX mouse - Binary64.x p)%float) in *.
  set (dy := (Binary64.mouseY mouse - Binary64.y p)%float) in *.
  rewrite (coincident_distance dx dy Hdx Hdy).
  change (0 <? Binary64.interactionRadius)%float with true. cbv iota.
  pose proof (coincident_impulse dx Hdx) as Hix.
  pose proof (coincident_impulse dy Hdy) as Hiy.
  cbv zeta in Hix, Hiy.
  set (ix := (dx * _ * 0.005)%float) in *.
  set (iy := (dy * _ * 0.005)%float) in *.
  pose proof (add_zero_sameNumber (Binary64.speedX p) ix Hix) as Hsamex.
  pose proof (add_zero_sameNumber (Binary64.speedY p) iy Hiy) as Hsamey.
  rewrite (sameNumber_square _ _ Hsamex), (sameNumber_square _ _ Hsamey).
  fold (Binary64.speedOf p).
  pose proof (isFinite_not_nan _ Hsx) as Hnx.
  pose proof (isFinite_not_nan _ Hsy) as Hny.
  destruct (Binary64.maxSpeed <? Binary64.speedOf p)%float eqn:Hfast;
    cbn [Binary64.speedX Binary64.speedY Binary64.x Binary64.y Binary64.size
         Binary64.color Binary64.opacity Binary64.opacityDirection].
  - pose proof (rescale_not_nan _ _ Hsx Hfast) as Hrx.
    pose proof (rescale_not_nan _ _ Hsy Hfast) as Hry.
    pose proof (sameNumber_rescale _ _ _ Hsamex Hfast) as Hqx.
    pose proof (sameNumber_rescale _ _ _ Hsamey Hfast) as Hqy.
    split_and!; try reflexivity.
    + apply (sameNumber_not_nan _ _ Hqx Hrx).
    + apply (sameNumber_not_nan _ _ Hqy Hry).
    + discriminate.
    + intros _. split; apply sameNumber_eqb; assumption.
  - split_and!; try reflexivity.
    + apply (sameNumber_not_nan _ _ Hsamex Hnx).
    + apply (sameNumber_not_nan _ _ Hsamey Hny).
    + intros _. split; apply sameNumber_eqb; assumption.
    + discriminate.
Qed.

Lemma coincident_pointer_adds_nothing_witness :
  let p := Binary64.sampleParticle in
  let q := Binary64.mouseInteraction
             {| Binary64.mouseX := 200; Binary64.mouseY := 300;
                Binary64.active := true |} p in
  (Binary64.maxSpeed <? Binary64.speedOf p)%float = false /\
  (Binary64.speedX q =? Binary64.speedX p)%float = true /\
  (Binary64.speedY q =? Binary64.speedY p)%float = true.
Proof.
  cbv zeta. split; [reflexivity|].
  apply (coincident_pointer_adds_nothing
           {| Binary64.mouseX := 200; Binary64.mouseY := 300;
              Binary64.active := true |} Binary64.sampleParticle);
    reflexivity.
Defined.

(** C9, counterexample.  The particle built from the random numbers of
    [sampleParticle], after twelve rounds of two frames and one accepted
    pointer event at (250, 300), has a speed the code computes as
    1.5000000000000002: the twelfth clamp left it one unit in the last place
    above 1.5.  With the pointer exactly on that particle the impulse is 0,
    and yet both components of the velocity change, because the clamp
    fires. *)
Lemma coincident_pointer_can_change_velocity :
  let p := Binary64.afterRounds 12 in
  let q := Binary64.mouseInteraction
             {| Binary64.mouseX := Binary64.x p; Binary64.mouseY := Binary64.y p;
                Binary64.active := true |} p in
  Binary64.speedOf p = 1.5000000000000002%float /\
  (Binary64.maxSpeed <? Binary64.speedOf p)%float = true /\
  (Binary64.speedX q =? Binary64.speedX p)%float = false /\
  (Binary64.speedY q =? Binary64.speedY p)%float = false.
Proof. cbv zeta. split_and!; vm_compute; reflexivity. Qed.

Lemma sqrt_above a s : (0 <= a)%R -> (a * a < s)%R -> (a < R_sqrt.sqrt s)%R.
Proof.
  intros Ha Hs. rewrite <- (sqrt_square a Ha) at 1.
  apply sqrt_lt_1_alt. split; [apply Rle_0_sqr | exact Hs].
Qed.

Lemma sqrt_below a s : (0 <= a)%R -> (s <= a * a)%R -> (R_sqrt.sqrt s <= a)%R.
Proof.
  intros Ha Hs. rewrite <- (sqrt_square a Ha).
  apply sqrt_le_1_alt. exact Hs.
Qed.

(** C5, counterexample.  The particle built from the random numbers of
    [sampleParticle], after eleven rounds of two frames and one accepted
    pointer event at (250, 300) and two more frames, has a speed below 1.5
    (about 1.418).  The next accepted pointer event at (250, 300) clamps
    its velocity to (1.4994196656859202, -0.041721291378906109): the code
    computes the speed of that velocity as 1.5000000000000002, and its exact
    length, the square root of the exact sum of the squares of the two
    floats, is above 1.5 too. *)
Lemma rounding_can_exceed_maxSpeed :
  let p := Binary64.update 800 600 (Binary64.update 800 600 (Binary64.afterRounds 11)) in
  let q := Binary64.mouseInteraction
             {| Binary64.mouseX := 250; Binary64.mouseY := 300;
                Binary64.active := true |} p in
  (Binary64.speedOf p <=? Binary64.maxSpeed)%float = true /\
  (Binary64.exactSpeed p <= 1.5)%R /\
  Binary64.speedOf q = 1.5000000000000002%float /\
  (Binary64.maxSpeed <? Binary64.speedOf q)%float = true /\
  (1.5 < Binary64.exactSpeed q)%R.
Proof.
  cbv zeta.
  set (p := Binary64.update 800 600 _).
  set (q := Binary64.mouseInteraction _ p).
  assert (Hpx : Prim2SF (Binary64.speedX p) = S754_finite false 6383451101251073 (-52))
    by (vm_compute; reflexivity).
  assert (Hpy : Prim2SF (Binary64.speedY p) = S754_finite true 6889772076696222 (-57))
    by (vm_compute; reflexivity).
  assert (Hqx : Prim2SF (Binary64.speedX q) = S754_finite false 6752785847655104 (-52))
    by (vm_compute; reflexivity).
  assert (Hqy : Prim2SF (Binary64.speedY q) = S754_finite true 6012671753838638 (-57))
    by (vm_compute; reflexivity).
  split; [vm_compute; reflexivity|]. split.
  { unfold Binary64.exactSpeed, Binary64.toReal. rewrite Hpx, Hpy.
    change (0 <=? -52)%Z with false. change (0 <=? -57)%Z with false.
    change (2 ^ (- -52))%Z with 4503599627370496%Z.
    change (2 ^ (- -57))%Z with 144115188075855872%Z.
    cbv beta iota zeta. apply sqrt_below; lra. }
  split; [vm_compute; reflexivity|].
  split; [vm_compute; reflexivity|].
  unfold Binary64.exactSpeed, Binary64.toReal. rewrite Hqx, Hqy.
  change (0 <=? -52)%Z with false. change (0 <=? -57)%Z with false.
  change (2 ^ (- -52))%Z with 4503599627370496%Z.
  change (2 ^ (- -57))%Z with 144115188075855872%Z.
  cbv beta iota zeta. apply sqrt_above; lra.
Qed.

End Binary64PointerForce.

(** ** Scroll progress *)

Section ScrollProgress.
Import PrimFloat.

(** A float equal to zero ([+0] or [-0]) is not above zero. *)
Lemma zero_is_not_positive (d : float) :
  (d =? 0)%float = true -> (0 <? d)%float = false.
Proof.
  rewrite FloatAxioms.eqb_spec, FloatAxioms.ltb_spec.
  destruct (FloatOps.Prim2SF d) as [s| s | |s m e]; try destruct s; cbn; congruence.
Qed.

(** The guarded computation of [useScrollOptimized]: when the document is
    exactly as high as the viewport, the progress is zero, whatever the
    scroll offset. *)
Lemma useScrollOptimized_guards_zero_height scrollTop scrollHeight innerHeight :
  (scrollHeight - innerHeight =? 0)%float = true ->
  UseScrollOptimized.scrollPercent scrollTop scrollHeight innerHeight = 0%float /\
  scrollProgress (UseScrollOptimized.handleScroll scrollTop scrollHeight innerHeight)
    = 0%float.
Proof.
  intros Hzero. apply zero_is_not_positive in Hzero.
  cbn [UseScrollOptimized.handleScroll scrollProgress].
  unfold UseScrollOptimized.scrollPercent. rewrite Hzero. auto.
Qed.

Lemma useScrollOptimized_guards_zero_height_witness :
  UseScrollOptimized.scrollPercent 0 800 800 = 0%float /\
  scrollProgress (UseScrollOptimized.handleScroll 0 800 800) = 0%float.
Proof.
  apply (useScrollOptimized_guards_zero_height 0 800 800). reflexivity.
Defined.

(** C8, at the failing input: a document of height 800 in a viewport of
    height 800, scrolled to the top.  [App.handleScroll] stores [NaN] as the
    scroll progress and the progress ray of [MagicalScrollEffects] gets the
    width [NaN]; scrolled by one pixel both get an infinity.  Neither is the
    zero that [useScrollOptimized] computes there. *)
Theorem unguarded_scroll_progress_is_not_finite :
  is_nan (scrollProgress (App.handleScroll 0 800 800)) = true /\
  is_nan (MagicalScrollEffects.progressWidth 0 800 800) = true /\
  is_infinity (scrollProgress (App.handleScroll 1 800 800)) = true /\
  is_infinity (MagicalScrollEffects.progressWidth 1 800 800) = true /\
  isFinite (scrollProgress (App.handleScroll 0 800 800)) = false /\
  scrollProgress (UseScrollOptimized.handleScroll 0 800 800) = 0%float.
Proof. vm_compute. repeat split. Qed.

End ScrollProgress.

(** ** The spatial grid *)

Section CellKeys.

Lemma pretty_N_char_not_comma d : Ascii.eqb (pretty_N_char d) ","%char = false.
Proof. unfold pretty_N_char. repeat case_match; reflexivity. Qed.

Lemma pretty_N_go_no_comma x :
  forall s, hasComma s = false -> hasComma (pretty_N_go x s) = false.
Proof.
  induction (N.lt_wf_0 x) as [x _ IH]; intros s Hs.
  destruct (decide (x = 0)%N) as [->|Hx].
  - rewrite pretty_N_go_0. exact Hs.
  - rewrite pretty_N_go_step by lia. apply IH.
    + apply N.div_lt; lia.
    + cbn [hasComma]. rewrite pretty_N_char_not_comma. exact Hs.
Qed.

Lemma pretty_Z_no_comma (z : Z) : hasComma (pretty z) = false.
Proof.
  destruct z as [|p|p]; [reflexivity| |].
  - unfold pretty, pretty_Z, pretty, pretty_positive, pretty, pretty_N.
    case_decide; [reflexivity|]. by apply pretty_N_go_no_comma.
  - unfold pretty, pretty_Z. cbn [String.append hasComma Ascii.eqb].
    unfold pretty, pretty_positive, pretty, pretty_N.
    case_decide; [reflexivity|]. by apply pretty_N_go_no_comma.
Qed.

Lemma split_at_comma s1 : forall s2 t1 t2,
  hasComma s1 = false -> hasComma s2 = false ->
  s1 +:+ "," +:+ t1 = s2 +:+ "," +:+ t2 -> s1 = s2 /\ t1 = t2.
Proof.
  induction s1 as [|c s1 IH]; intros [|d s2] t1 t2 H1 H2 Heq; cbn in *.
  - by injection Heq.
  - injection Heq as <- _. by rewrite Ascii.eqb_refl in H2.
  - injection Heq as -> _. by rewrite Ascii.eqb_refl in H1.
  - injection Heq as -> Heq.
    destruct (Ascii.eqb d ","%char); [done|].
    destruct (IH _ _ _ H1 H2 Heq) as [-> ->]. done.
Qed.

(** Two cells have the same key only when they are the same cell. *)
Lemma cellKey_inj a b c d : cellKey a b = cellKey c d -> a = c /\ b = d.
Proof.
  unfold cellKey. intros H.
  apply split_at_comma in H as [Ha Hb]; auto using pretty_Z_no_comma.
  split; by apply (inj pretty).
Qed.

Lemma elem_of_getNearbyCells cellX cellY a b :
  cellKey a b ∈ getNearbyCells cellX cellY <->
  (-1 <= a - cellX <= 1 /\ -1 <= b - cellY <= 1)%Z.
Proof.
  unfold getNearbyCells. cbn [flat_map map app].
  rewrite !elem_of_cons, elem_of_nil. split.
  - intros H. repeat destruct H as [H|H]; try done;
      apply cellKey_inj in H as [-> ->]; lia.
  - intros [Ha Hb].
    assert (a = cellX + -1 \/ a = cellX + 0 \/ a = cellX + 1)%Z
      as [ -> | [ -> | -> ] ] by lia;
    assert (b = cellY + -1 \/ b = cellY + 0 \/ b = cellY + 1)%Z
      as [ -> | [ -> | -> ] ] by lia; tauto.
Qed.

Lemma getNearbyCells_NoDup cellX cellY : NoDup (getNearbyCells cellX cellY).
Proof.
  unfold getNearbyCells. cbn [flat_map map app].
  repeat (apply NoDup_cons; split;
    [rewrite ?elem_of_cons, elem_of_nil; intros H;
     repeat destruct H as [H|H]; try done; apply cellKey_inj in H; lia|]).
  apply NoDup_nil_2.
Qed.

End CellKeys.

Section GridContents.
Variable cellSize : R.

Lemma pushToCell_lookup grid ref p key :
  pushToCell grid cellSize ref p !! key =
  if decide (cellOf cellSize p = key) then Some (default [] (grid !! key) ++ [ref])
  else grid !! key.
Proof.
  unfold pushToCell. fold (cellOf cellSize p).
  destruct (decide (cellOf cellSize p = key)) as [<-|Hne].
  - destruct (grid !! cellOf cellSize p) as [bucket|] eqn:Hb;
      rewrite lookup_insert_eq; reflexivity.
  - destruct (grid !! cellOf cellSize p); rewrite lookup_insert_ne by done; reflexivity.
Qed.

Lemma buildGridFrom_lookup ps : forall grid start key,
  buildGridFrom grid cellSize start ps !! key =
  match membersFrom cellSize key start ps with
  | [] => grid !! key
  | members => Some (default [] (grid !! key) ++ members)
  end.
Proof.
  induction ps as [|p rest IH]; intros grid start key; [reflexivity|].
  cbn [buildGridFrom membersFrom]. rewrite IH, pushToCell_lookup.
  destruct (decide (cellOf cellSize p = key)) as [_|_]; [|reflexivity].
  destruct (membersFrom cellSize key (S start) rest) as [|m ms]; [reflexivity|].
  cbn [default from_option]. unfold Datatypes.id.
  rewrite <- app_assoc. reflexivity.
Qed.

(** A bucket of a freshly built grid holds exactly the particles of its cell. *)
Lemma buildGrid_bucket ps key :
  default [] (buildGrid ps cellSize !! key) = membersFrom cellSize key 0 ps.
Proof.
  unfold buildGrid. rewrite buildGridFrom_lookup, lookup_empty.
  destruct (membersFrom cellSize key 0 ps); reflexivity.
Qed.

Lemma elem_of_membersFrom key ps : forall start j,
  j ∈ membersFrom cellSize key start ps <->
  start <= j /\ exists p, ps !! (j - start) = Some p /\ cellOf cellSize p = key.
Proof.
  induction ps as [|p rest IH]; intros start j; cbn [membersFrom].
  - rewrite elem_of_nil. split; [done|]. intros [_ [q [Hq _]]]. done.
  - assert (Hstep : j ∈ membersFrom cellSize key (S start) rest <->
                    S start <= j /\
                    exists q, (p :: rest) !! (j - start) = Some q /\ cellOf cellSize q = key).
    { rewrite IH. split; intros [Hle [q [Hq Hk]]]; (split; [lia|]); exists q;
        (split; [|done]).
      - replace (j - start) with (S (j - S start)) by lia. exact Hq.
      - replace (j - start) with (S (j - S start)) in Hq by lia. exact Hq. }
    destruct (decide (cellOf cellSize p = key)) as [Hkey|Hkey].
    + rewrite elem_of_cons, Hstep. split.
      * intros [->|[Hle Hq]]; [|split; [lia | done]].
        split; [lia|]. exists p. by rewrite Nat.sub_diag.
      * intros [Hle [q [Hq Hk]]].
        destruct (decide (j = start)) as [->|Hne]; [by left|].
        right. split; [lia|]. eauto.
    + rewrite Hstep. split.
      * intros [Hle Hq]. split; [lia | done].
      * intros [Hle [q [Hq Hk]]].
        destruct (decide (j = start)) as [->|Hne].
        -- rewrite Nat.sub_diag in Hq. cbn in Hq. congruence.
        -- split; [lia|]. eauto.
Qed.

Lemma membersFrom_NoDup key ps : forall start, NoDup (membersFrom cellSize key start ps).
Proof.
  induction ps as [|p rest IH]; intros start; cbn [membersFrom].
  - apply NoDup_nil_2.
  - destruct (decide (cellOf cellSize p = key)); [|apply IH].
    apply NoDup_cons. split; [|apply IH].
    rewrite elem_of_membersFrom. lia.
Qed.

Lemma elem_of_bucket ps key j :
  j ∈ default [] (buildGrid ps cellSize !! key) <->
  exists p, ps !! j = Some p /\ cellOf cellSize p = key.
Proof.
  rewrite buildGrid_bucket, elem_of_membersFrom, Nat.sub_0_r.
  split; [tauto|]. intros H. split; [lia | exact H].
Qed.

Lemma flat_map_bind {A B} (f : A -> list B) (l : list A) :
  flat_map f l = l ≫= f.
Proof. induction l as [|a l IH]; [reflexivity|]. cbn. by rewrite IH. Qed.

Lemma nearbyParticles_bind cells (p : Particle) :
  nearbyParticles cells cellSize p =
  getNearbyCells (Zfloor (Particle.x p / cellSize)) (Zfloor (Particle.y p / cellSize))
    ≫= (fun key => default [] (cells !! key)).
Proof.
  unfold nearbyParticles.
  generalize (getNearbyCells (Zfloor (Particle.x p / cellSize))
                (Zfloor (Particle.y p / cellSize))) as keys.
  assert (Hgen : forall keys acc,
    fold_left (fun nearby key =>
                 match cells !! key with
                 | Some bucket => nearby ++ bucket
                 | None => nearby
                 end) keys acc
    = acc ++ (keys ≫= (fun key => default [] (cells !! key)))).
  { induction keys as [|key keys IH]; intros acc; cbn.
    - by rewrite app_nil_r.
    - rewrite IH. destruct (cells !! key); cbn; by rewrite ?app_assoc. }
  intros keys. apply (Hgen keys []).
Qed.

(** The neighbours found in a freshly built grid are the particles whose cell
    is the particle's own cell or one of the eight cells around it. *)
Lemma elem_of_nearbyParticles_buildGrid ps (p : Particle) j :
  j ∈ nearbyParticles (buildGrid ps cellSize) cellSize p <->
  exists q, ps !! j = Some q /\
    (-1 <= Zfloor (Particle.x q / cellSize) - Zfloor (Particle.x p / cellSize) <= 1 /\
     -1 <= Zfloor (Particle.y q / cellSize) - Zfloor (Particle.y p / cellSize) <= 1)%Z.
Proof.
  rewrite nearbyParticles_bind, list_elem_of_bind. split.
  - intros [key [Hj Hkey]]. apply elem_of_bucket in Hj as [q [Hq <-]].
    exists q. split; [exact Hq|]. by apply elem_of_getNearbyCells.
  - intros [q [Hq Hnear]]. exists (cellOf cellSize q). split.
    + apply elem_of_bucket. eauto.
    + by apply elem_of_getNearbyCells.
Qed.

Lemma nearbyParticles_buildGrid_NoDup ps (p : Particle) :
  NoDup (nearbyParticles (buildGrid ps cellSize) cellSize p).
Proof.
  rewrite nearbyParticles_bind. apply NoDup_bind.
  - intros k1 k2 j _ _ H1 H2.
    apply elem_of_bucket in H1 as [q1 [Hq1 <-]].
    apply elem_of_bucket in H2 as [q2 [Hq2 <-]]. congruence.
  - intros key _. rewrite buildGrid_bucket. apply membersFrom_NoDup.
  - apply getNearbyCells_NoDup.
Qed.

End GridContents.

Section CellGeometry.
Local Open Scope R_scope.
Variable cellSize : R.
Hypothesis cellSize_pos : 0 < cellSize.

Lemma Rabs_le_between d c : Rabs d <= c -> - c <= d <= c.
Proof. unfold Rabs. destruct (Rcase_abs d); lra. Qed.

Lemma scaled_difference a b :
  a / cellSize - b / cellSize = (a - b) / cellSize.
Proof. field. lra. Qed.

Lemma scaled_le d k : d <= k * cellSize -> d / cellSize <= k.
Proof.
  intros H. apply Rmult_le_reg_r with cellSize; [exact cellSize_pos|].
  unfold Rdiv. rewrite Rmult_assoc, Rinv_l by lra. lra.
Qed.

Lemma scaled_lt_inv d k : d / cellSize < k -> d < k * cellSize.
Proof.
  intros H. apply Rmult_lt_compat_r with (r := cellSize) in H; [|exact cellSize_pos].
  unfold Rdiv in H. rewrite Rmult_assoc, Rinv_l in H by lra. lra.
Qed.

(** Two coordinates at most one cell size apart fall into the same column
    (row) of cells or into adjacent ones. *)
Lemma cells_of_close_coordinates a b :
  Rabs (a - b) <= cellSize ->
  (-1 <= Zfloor (a / cellSize) - Zfloor (b / cellSize) <= 1)%Z.
Proof.
  intros Hab. apply Rabs_le_between in Hab.
  assert (Hup : a / cellSize - b / cellSize <= 1).
  { rewrite scaled_difference. apply scaled_le. lra. }
  assert (Hdown : b / cellSize - a / cellSize <= 1).
  { rewrite scaled_difference. apply scaled_le. lra. }
  pose proof (Zfloor_bound (a / cellSize)) as Ha.
  pose proof (Zfloor_bound (b / cellSize)) as Hb.
  assert (H1 : IZR (Zfloor (a / cellSize)) < IZR (Zfloor (b / cellSize) + 2))
    by (rewrite plus_IZR; lra).
  assert (H2 : IZR (Zfloor (b / cellSize)) < IZR (Zfloor (a / cellSize) + 2))
    by (rewrite plus_IZR; lra).
  apply lt_IZR in H1, H2. lia.
Qed.

(** Two coordinates that fall into the same or adjacent columns (rows) are
    less than two cell sizes apart. *)
Lemma coordinates_of_close_cells a b :
  (-1 <= Zfloor (a / cellSize) - Zfloor (b / cellSize) <= 1)%Z ->
  Rabs (a - b) < 2 * cellSize.
Proof.
  intros [Hlo Hhi].
  pose proof (Zfloor_bound (a / cellSize)) as Ha.
  pose proof (Zfloor_bound (b / cellSize)) as Hb.
  assert (H1 : IZR (Zfloor (a / cellSize)) <= IZR (Zfloor (b / cellSize) + 1))
    by (apply IZR_le; lia).
  assert (H2 : IZR (Zfloor (b / cellSize)) <= IZR (Zfloor (a / cellSize) + 1))
    by (apply IZR_le; lia).
  rewrite plus_IZR in H1, H2.
  assert (Hup : (a - b) / cellSize < 2) by (rewrite <- scaled_difference; lra).
  assert (Hdown : (b - a) / cellSize < 2) by (rewrite <- scaled_difference; lra).
  apply scaled_lt_inv in Hup, Hdown.
  apply Rabs_def1; lra.
Qed.

(** C2: in a grid built from the current positions with a positive cell
    size, the neighbours of a particle contain the particle itself and
    every particle at most one cell size away on both axes, contain no
    reference twice, and contain no particle more than two cell sizes away
    on an axis. *)
Theorem nearbyParticles_of_fresh_grid (ps : list Particle) (i : nat) (p : Particle) :
  ps !! i = Some p ->
  let nearby := nearbyParticles (buildGrid ps cellSize) cellSize p in
  i ∈ nearby /\
  (forall j q, ps !! j = Some q ->
     Rabs (Particle.x q - Particle.x p) <= cellSize ->
     Rabs (Particle.y q - Particle.y p) <= cellSize ->
     j ∈ nearby) /\
  NoDup nearby /\
  (forall j q, ps !! j = Some q ->
     2 * cellSize < Rabs (Particle.x q - Particle.x p) \/
     2 * cellSize < Rabs (Particle.y q - Particle.y p) ->
     j ∉ nearby).
Proof.
  intros Hi nearby. subst nearby. repeat split.
  - apply elem_of_nearbyParticles_buildGrid. exists p. split; [exact Hi | lia].
  - intros j q Hq Hx Hy. apply elem_of_nearbyParticles_buildGrid.
    exists q. split; [exact Hq|].
    split; apply cells_of_close_coordinates; assumption.
  - apply nearbyParticles_buildGrid_NoDup.
  - intros j q Hq Hfar Hin.
    apply elem_of_nearbyParticles_buildGrid in Hin as [q' [Hq' [Hcx Hcy]]].
    assert (q' = q) as -> by congruence.
    apply coordinates_of_close_cells in Hcx, Hcy.
    destruct Hfar; lra.
Qed.

End CellGeometry.

Lemma nearbyParticles_of_fresh_grid_witness :
  (0 < 150)%R /\
  threeParticles !! 0%nat = Some (restingAt 10 10) /\
  0%nat ∈ nearbyParticles (buildGrid threeParticles 150) 150 (restingAt 10 10) /\
  NoDup (nearbyParticles (buildGrid threeParticles 150) 150 (restingAt 10 10)).
Proof.
  assert (Hpos : (0 < 150)%R) by lra.
  split; [exact Hpos|]. split; [reflexivity|].
  pose proof (nearbyParticles_of_fresh_grid 150 Hpos threeParticles 0
                (restingAt 10 10) eq_refl) as H.
  cbv zeta in H. destruct H as (Hself & _ & Hnodup & _).
  split; [exact Hself | exact Hnodup].
Defined.

(** ** The connection pass *)

Section ConnectionPass.
Local Open Scope R_scope.

Lemma elem_of_connectionTo ps i (p : Particle) other line :
  line ∈ connectionTo ps i p other <->
  line = (i, other) /\ i <> other /\
  exists o, ps !! other = Some o /\ distSq p o < maxDistSq.
Proof.
  unfold connectionTo.
  destruct (decide (i = other)) as [Heq|Hne].
  { rewrite elem_of_nil. split; [done|]. intros (_ & Hne & _). done. }
  destruct (ps !! other) as [o|].
  2: { rewrite elem_of_nil. split; [done|]. intros (_ & _ & o & Ho & _). done. }
  destruct (Rlt_dec (distSq p o) maxDistSq) as [Hlt|Hge].
  - rewrite list_elem_of_singleton. split.
    + intros ->. eauto.
    + tauto.
  - rewrite elem_of_nil. split; [done|].
    intros (_ & _ & o' & Ho' & Hlt). congruence.
Qed.

Lemma elem_of_connectionsFrom ps cells cellSize i (p : Particle) line :
  line ∈ connectionsFrom ps cells cellSize i p <->
  line.1 = i /\ i <> line.2 /\ line.2 ∈ nearbyParticles cells cellSize p /\
  exists o, ps !! line.2 = Some o /\ distSq p o < maxDistSq.
Proof.
  unfold connectionsFrom. rewrite flat_map_bind, list_elem_of_bind. split.
  - intros [other [Hline Hother]].
    apply elem_of_connectionTo in Hline as (-> & Hne & Ho). cbn. auto.
  - intros (Hi & Hne & Hnear & Ho). exists line.2. split; [|exact Hnear].
    apply elem_of_connectionTo. destruct line as [a b]. cbn in *. subst a. auto.
Qed.

Lemma elem_of_concat_imap {A B} (F : nat -> A -> list B) (l : list A) z :
  z ∈ concat (imap F l) <-> exists i x, l !! i = Some x /\ z ∈ F i x.
Proof.
  rewrite list_elem_of_In, in_concat. split.
  - intros [l' [Hl' Hz]].
    apply list_elem_of_In, elem_of_lookup_imap in Hl' as [i [x [-> Hx]]].
    exists i, x. split; [exact Hx|]. apply list_elem_of_In, Hz.
  - intros [i [x [Hx Hz]]]. exists (F i x). split.
    + apply list_elem_of_In, elem_of_lookup_imap. eauto.
    + apply list_elem_of_In, Hz.
Qed.

Lemma NoDup_concat_imap {A B} (l : list A) : forall (F : nat -> A -> list B),
  (forall i x, l !! i = Some x -> NoDup (F i x)) ->
  (forall i j x y z, l !! i = Some x -> l !! j = Some y ->
     z ∈ F i x -> z ∈ F j y -> i = j) ->
  NoDup (concat (imap F l)).
Proof.
  induction l as [|a l IH]; intros F Hnodup Hdisjoint; cbn [imap concat].
  - apply NoDup_nil_2.
  - apply NoDup_app. split_and!.
    + by apply (Hnodup 0%nat a).
    + intros z Hz Hin. apply elem_of_concat_imap in Hin as [j [y [Hy Hzy]]].
      by specialize (Hdisjoint 0%nat (S j) a y z eq_refl Hy Hz Hzy).
    + apply IH.
      * intros i x Hx. by apply (Hnodup (S i) x).
      * intros i j x y z Hx Hy Hzx Hzy.
        by specialize (Hdisjoint (S i) (S j) x y z Hx Hy Hzx Hzy) as [= ->].
Qed.

(** The lines of a connection pass, whatever the grid: a line goes from a
    particle to a different one that the grid lists among its neighbours and
    that is closer than the threshold. *)
Lemma elem_of_connectionLines ps cells cellSize line :
  line ∈ connectionLines ps cells cellSize <->
  exists p o, ps !! line.1 = Some p /\ ps !! line.2 = Some o /\
    line.1 <> line.2 /\ line.2 ∈ nearbyParticles cells cellSize p /\
    distSq p o < maxDistSq.
Proof.
  unfold connectionLines. rewrite elem_of_concat_imap. split.
  - intros [i [p [Hp Hline]]].
    apply elem_of_connectionsFrom in Hline as (Hi & Hne & Hnear & o & Ho & Hlt).
    subst i. exists p, o. auto.
  - intros (p & o & Hp & Ho & Hne & Hnear & Hlt).
    exists line.1, p. split; [exact Hp|].
    apply elem_of_connectionsFrom. eauto 10.
Qed.

Lemma connectionsFrom_NoDup ps cells cellSize i (p : Particle) :
  NoDup (nearbyParticles cells cellSize p) ->
  NoDup (connectionsFrom ps cells cellSize i p).
Proof.
  intros Hnear. unfold connectionsFrom. rewrite flat_map_bind.
  apply NoDup_bind; [| |exact Hnear].
  - intros o1 o2 line _ _ H1 H2.
    apply elem_of_connectionTo in H1 as [-> _].
    apply elem_of_connectionTo in H2 as [[= ->] _]. reflexivity.
  - intros other _. unfold connectionTo.
    destruct (decide (i = other)); [apply NoDup_nil_2|].
    destruct (ps !! other) as [o|]; [|apply NoDup_nil_2].
    destruct (Rlt_dec (distSq p o) maxDistSq);
      [apply NoDup_singleton | apply NoDup_nil_2].
Qed.

Lemma connectionLines_NoDup ps cells cellSize :
  (forall p, p ∈ ps -> NoDup (nearbyParticles cells cellSize p)) ->
  NoDup (connectionLines ps cells cellSize).
Proof.
  intros Hnear. apply NoDup_concat_imap.
  - intros i p Hp. apply connectionsFrom_NoDup, Hnear.
    by apply list_elem_of_lookup_2 in Hp.
  - intros i j p q line _ _ Hi Hj.
    apply elem_of_connectionsFrom in Hi as [Hi _].
    apply elem_of_connectionsFrom in Hj as [Hj _]. congruence.
Qed.

(** C10: no connection pass, whatever the state of the grid, draws a line
    from a particle to itself. *)
Theorem connection_pass_skips_self ps cells cellSize i j :
  (i, j) ∈ connectionLines ps cells cellSize -> i <> j.
Proof.
  intros Hline.
  apply elem_of_connectionLines in Hline as (p & o & _ & _ & Hne & _).
  exact Hne.
Qed.

End ConnectionPass.

(** ** The grid pass against the brute-force pass *)

Section GridAgainstBruteForce.
Local Open Scope R_scope.

Lemma elem_of_bruteForceTo ps i j line :
  line ∈ bruteForceTo ps i j <->
  line = (i, j) /\ i <> j /\
  exists p o, ps !! i = Some p /\ ps !! j = Some o /\ distSq p o < maxDistSq.
Proof.
  unfold bruteForceTo.
  destruct (ps !! i) as [p|].
  2: { rewrite elem_of_nil. split; [done|]. intros (_ & _ & p & o & Hp & _). done. }
  destruct (ps !! j) as [o|].
  2: { rewrite elem_of_nil. split; [done|]. intros (_ & _ & p' & o & _ & Ho & _). done. }
  destruct (decide (i = j)) as [Heq|Hne].
  { rewrite elem_of_nil. split; [done|]. intros (_ & Hne & _). done. }
  destruct (Rlt_dec (distSq p o) maxDistSq) as [Hlt|Hge].
  - rewrite list_elem_of_singleton. split.
    + intros ->. eauto 10.
    + tauto.
  - rewrite elem_of_nil. split; [done|].
    intros (_ & _ & p' & o' & [= <-] & [= <-] & Hlt). done.
Qed.

Lemma bruteForceTo_NoDup ps i j : NoDup (bruteForceTo ps i j).
Proof.
  unfold bruteForceTo.
  destruct (ps !! i); [|apply NoDup_nil_2].
  destruct (ps !! j); [|apply NoDup_nil_2].
  destruct (decide (i = j)); [apply NoDup_nil_2|].
  destruct (Rlt_dec _ _); [apply NoDup_singleton | apply NoDup_nil_2].
Qed.

Lemma bruteForceLines_bind ps :
  bruteForceLines ps =
  seq 0 (length ps) ≫= (fun i => seq 0 (length ps) ≫= bruteForceTo ps i).
Proof.
  unfold bruteForceLines. rewrite flat_map_bind.
  apply list_bind_ext; [|reflexivity].
  intros i. rewrite flat_map_bind. reflexivity.
Qed.

Lemma elem_of_bruteForceLines ps line :
  line ∈ bruteForceLines ps <->
  exists p o, ps !! line.1 = Some p /\ ps !! line.2 = Some o /\
    line.1 <> line.2 /\ distSq p o < maxDistSq.
Proof.
  rewrite bruteForceLines_bind, list_elem_of_bind. split.
  - intros [i [Hline _]]. apply list_elem_of_bind in Hline as [j [Hline _]].
    apply elem_of_bruteForceTo in Hline as (-> & Hne & p & o & Hp & Ho & Hlt).
    exists p, o. auto.
  - intros (p & o & Hp & Ho & Hne & Hlt). destruct line as [i j]. cbn in *.
    exists i. split; [|apply elem_of_seq; apply lookup_lt_Some in Hp; lia].
    apply list_elem_of_bind. exists j.
    split; [|apply elem_of_seq; apply lookup_lt_Some in Ho; lia].
    apply elem_of_bruteForceTo. eauto 10.
Qed.

Lemma bruteForceLines_NoDup ps : NoDup (bruteForceLines ps).
Proof.
  rewrite bruteForceLines_bind. apply NoDup_bind; [| |apply NoDup_seq].
  - intros i1 i2 line _ _ H1 H2.
    apply list_elem_of_bind in H1 as [j1 [H1 _]].
    apply list_elem_of_bind in H2 as [j2 [H2 _]].
    apply elem_of_bruteForceTo in H1 as [-> _].
    apply elem_of_bruteForceTo in H2 as [[= -> _] _]. reflexivity.
  - intros i _. apply NoDup_bind; [| |apply NoDup_seq].
    + intros j1 j2 line _ _ H1 H2.
      apply elem_of_bruteForceTo in H1 as [-> _].
      apply elem_of_bruteForceTo in H2 as [[= ->] _]. reflexivity.
    + intros j _. apply bruteForceTo_NoDup.
Qed.

Lemma square_below_threshold d : d * d < 120 * 120 -> -120 <= d <= 120.
Proof. intros H. split; apply Rnot_lt_le; intros Hc; nra. Qed.

(** Two particles closer than the threshold differ by less than 120 on each
    axis. *)
Lemma close_particles_axes (p o : Particle) :
  distSq p o < maxDistSq ->
  Rabs (Particle.x o - Particle.x p) <= 120 /\
  Rabs (Particle.y o - Particle.y p) <= 120.
Proof.
  unfold distSq, maxDistSq. intros Hlt.
  set (dx := Particle.x p - Particle.x o) in *.
  set (dy := Particle.y p - Particle.y o) in *.
  assert (Hx : -120 <= dx <= 120) by (apply square_below_threshold; nra).
  assert (Hy : -120 <= dy <= 120) by (apply square_below_threshold; nra).
  split; apply Rabs_le; subst dx dy; lra.
Qed.

(** The grid pass and the brute-force pass draw the same lines whenever the
    cells are at least as wide as the connection distance. *)
Lemma grid_lines_iff_brute_force_lines cellSize ps line :
  120 <= cellSize ->
  line ∈ connectionLines ps (buildGrid ps cellSize) cellSize <->
  line ∈ bruteForceLines ps.
Proof.
  intros Hsize. rewrite elem_of_connectionLines, elem_of_bruteForceLines. split.
  - intros (p & o & Hp & Ho & Hne & _ & Hlt). eauto 10.
  - intros (p & o & Hp & Ho & Hne & Hlt). exists p, o.
    repeat split; try assumption.
    apply elem_of_nearbyParticles_buildGrid. exists o. split; [exact Ho|].
    destruct (close_particles_axes p o Hlt) as [Hx Hy].
    split; apply cells_of_close_coordinates; lra.
Qed.

Lemma grid_lines_NoDup cellSize ps :
  NoDup (connectionLines ps (buildGrid ps cellSize) cellSize).
Proof.
  apply connectionLines_NoDup. intros p _. apply nearbyParticles_buildGrid_NoDup.
Qed.

Lemma grid_lines_Permutation cellSize ps :
  120 <= cellSize ->
  Permutation (connectionLines ps (buildGrid ps cellSize) cellSize)
              (bruteForceLines ps).
Proof.
  intros Hsize. apply NoDup_Permutation.
  - apply grid_lines_NoDup.
  - apply bruteForceLines_NoDup.
  - intros line. apply grid_lines_iff_brute_force_lines, Hsize.
Qed.

(** A frame of [animate] that rebuilds the grid (cell size 150) draws the
    lines of the brute-force pass over the updated particles. *)
Lemma animate_with_fresh_grid (f : Field) :
  gridIsDue (animationIdRef f) = true ->
  gridCellSize f = 150 ->
  let ps := map (Particle.update (canvas f)) (particles f) in
  exists lines,
    Permutation lines (bruteForceLines ps) /\
    (animate false f).2 =
      [ ClearRect 0 0 (canvasWidth (canvas f)) (canvasHeight (canvas f));
        GlobalAlpha 1 ] ++ flat_map Particle.draw ps ++ strokeLines ps lines.
Proof.
  intros Hdue Hsize ps.
  exists (connectionLines ps (buildGrid ps 150) 150). split.
  - apply grid_lines_Permutation. lra.
  - unfold animate. rewrite updateAndDraw_spec, Hdue, Hsize. reflexivity.
Qed.

(** C1: with the grid built from the current positions (cell size 150), the
    connection pass draws exactly the lines of the brute-force pass over all
    pairs: the same lines, each once, so the same number of lines. *)
Theorem grid_pass_equals_brute_force (ps : list Particle) :
  let gridLines := connectionLines ps (buildGrid ps 150) 150 in
  (forall line, line ∈ gridLines <-> line ∈ bruteForceLines ps) /\
  NoDup gridLines /\
  NoDup (bruteForceLines ps) /\
  Permutation gridLines (bruteForceLines ps) /\
  length gridLines = length (bruteForceLines ps).
Proof.
  intros gridLines.
  assert (Hperm : Permutation gridLines (bruteForceLines ps))
    by (apply grid_lines_Permutation; lra).
  split_and!.
  - intros line. apply grid_lines_iff_brute_force_lines. lra.
  - apply grid_lines_NoDup.
  - apply bruteForceLines_NoDup.
  - exact Hperm.
  - apply Permutation_length, Hperm.
Qed.

(** In [threeParticles] the first two particles are 50 apart: each pass
    draws the line between them. *)
Lemma threeParticles_line :
  (0%nat, 1%nat) ∈ connectionLines threeParticles (buildGrid threeParticles 150) 150.
Proof.
  apply grid_lines_iff_brute_force_lines; [lra|].
  apply elem_of_bruteForceLines.
  exists (restingAt 10 10), (restingAt 40 50).
  split_and!; try reflexivity; [discriminate|].
  unfold distSq, maxDistSq. cbn [restingAt Particle.x Particle.y]. lra.
Qed.

Lemma connection_pass_skips_self_witness :
  (0%nat, 1%nat) ∈ connectionLines threeParticles (buildGrid threeParticles 150) 150 /\
  0%nat <> 1%nat.
Proof.
  split; [exact threeParticles_line|].
  exact (connection_pass_skips_self threeParticles (buildGrid threeParticles 150)
           150 0 1 threeParticles_line).
Defined.

End GridAgainstBruteForce.

(** * Further properties of the particle background *)

(** ** Cell keys and the grid *)

Section GridFacts.
Local Open Scope R_scope.

(** X1: the template string of the cell key tells cells apart: two cells
    have the same key exactly when they have the same column and the same
    row. *)
Theorem cellKey_distinguishes_cells a b c d :
  cellKey a b = cellKey c d <-> a = c /\ b = d.
Proof.
  split.
  - apply cellKey_inj.
  - intros [-> ->]. reflexivity.
Qed.

(** X2: [getNearbyCells] returns nine pairwise different keys, the key of
    the cell itself among them, and the key of a cell is returned exactly
    when the cell is at most one column and one row away. *)
Theorem getNearbyCells_covers_the_neighbourhood cellX cellY :
  length (getNearbyCells cellX cellY) = 9%nat /\
  NoDup (getNearbyCells cellX cellY) /\
  cellKey cellX cellY ∈ getNearbyCells cellX cellY /\
  (forall a b, cellKey a b ∈ getNearbyCells cellX cellY <->
               (-1 <= a - cellX <= 1 /\ -1 <= b - cellY <= 1)%Z).
Proof.
  split_and!.
  - reflexivity.
  - apply getNearbyCells_NoDup.
  - apply elem_of_getNearbyCells. lia.
  - intros a b. apply elem_of_getNearbyCells.
Qed.

Lemma buildGrid_lookup ps cellSize key :
  buildGrid ps cellSize !! key =
  match membersFrom cellSize key 0 ps with
  | [] => None
  | members => Some members
  end.
Proof.
  unfold buildGrid. rewrite buildGridFrom_lookup, lookup_empty.
  destruct (membersFrom cellSize key 0 ps); reflexivity.
Qed.

(** X3: [buildGrid] partitions the particles by cell.  Every particle is
    listed in the bucket stored under the key of its own cell; a bucket is
    never empty, lists no reference twice, and lists exactly the particles
    that lie in its cell. *)
Theorem buildGrid_partitions_by_cell ps cellSize :
  (forall i p, ps !! i = Some p ->
     exists bucket,
       buildGrid ps cellSize
         !! cellKey (Zfloor (Particle.x p / cellSize)) (Zfloor (Particle.y p / cellSize))
       = Some bucket /\ i ∈ bucket) /\
  (forall key bucket, buildGrid ps cellSize !! key = Some bucket ->
     bucket <> [] /\ NoDup bucket /\
     forall j, j ∈ bucket <->
       exists p, ps !! j = Some p /\
         cellKey (Zfloor (Particle.x p / cellSize)) (Zfloor (Particle.y p / cellSize))
         = key).
Proof.
  split.
  - intros i p Hp. fold (cellOf cellSize p).
    assert (Hin : i ∈ default [] (buildGrid ps cellSize !! cellOf cellSize p))
      by (apply elem_of_bucket; eauto).
    destruct (buildGrid ps cellSize !! cellOf cellSize p) as [bucket|].
    + exists bucket. split; [reflexivity | exact Hin].
    + cbn in Hin. by apply elem_of_nil in Hin.
  - intros key bucket Hbucket.
    pose proof (elem_of_bucket cellSize ps key) as Hmem.
    pose proof (membersFrom_NoDup cellSize key ps 0) as Hnodup.
    rewrite <- buildGrid_bucket in Hnodup.
    rewrite Hbucket in Hmem, Hnodup. cbn in Hmem, Hnodup.
    split_and!; [|exact Hnodup|exact Hmem].
    rewrite buildGrid_lookup in Hbucket.
    destruct (membersFrom cellSize key 0 ps); congruence.
Qed.

Lemma elem_of_nearbyParticles cells cellSize (p : Particle) j :
  j ∈ nearbyParticles cells cellSize p <->
  exists key bucket,
    key ∈ getNearbyCells (Zfloor (Particle.x p / cellSize))
                         (Zfloor (Particle.y p / cellSize)) /\
    cells !! key = Some bucket /\ j ∈ bucket.
Proof.
  rewrite nearbyParticles_bind, list_elem_of_bind. split.
  - intros [key [Hj Hkey]]. destruct (cells !! key) as [bucket|] eqn:Hb.
    + exists key, bucket. auto.
    + cbn in Hj. by apply elem_of_nil in Hj.
  - intros (key & bucket & Hkey & Hb & Hj). exists key. rewrite Hb. auto.
Qed.

(** X4: whatever the grid holds, the neighbours of a particle are the
    references found in the buckets that exist under the nine keys around
    it, a key without a bucket contributing nothing; with an empty grid
    there are no neighbours and the connection pass draws no line. *)
Theorem nearbyParticles_reads_existing_buckets cells cellSize (p : Particle) :
  (forall j, j ∈ nearbyParticles cells cellSize p <->
     exists key bucket,
       key ∈ getNearbyCells (Zfloor (Particle.x p / cellSize))
                            (Zfloor (Particle.y p / cellSize)) /\
       cells !! key = Some bucket /\ j ∈ bucket) /\
  nearbyParticles ∅ cellSize p = [] /\
  (forall ps, connectionLines ps ∅ cellSize = []).
Proof.
  assert (Hempty : forall q : Particle, nearbyParticles ∅ cellSize q = []).
  { intros q. apply elem_of_nil_inv. intros j Hj.
    apply elem_of_nearbyParticles in Hj as (key & bucket & _ & Hb & _).
    by rewrite lookup_empty in Hb. }
  split_and!.
  - intros j. apply elem_of_nearbyParticles.
  - apply Hempty.
  - intros ps. apply elem_of_nil_inv. intros line Hline.
    apply elem_of_connectionLines in Hline as (q & o & _ & _ & _ & Hnear & _).
    rewrite Hempty in Hnear. by apply elem_of_nil in Hnear.
Qed.

(** X5: with a grid built from the positions the particles had at any
    earlier time, the connection pass still draws no line twice and only
    lines that the brute-force pass over the current positions draws: a line
    joins two different particles closer than the threshold. *)
Theorem stale_grid_draws_only_close_pairs (earlier ps : list Particle) cellSize :
  let lines := connectionLines ps (buildGrid earlier cellSize) cellSize in
  NoDup lines /\
  (forall line, line ∈ lines -> line ∈ bruteForceLines ps) /\
  (forall i j, (i, j) ∈ lines ->
     i <> j /\
     exists p o, ps !! i = Some p /\ ps !! j = Some o /\ distSq p o < 120 * 120).
Proof.
  intros lines. subst lines. split_and!.
  - apply connectionLines_NoDup. intros p _. apply nearbyParticles_buildGrid_NoDup.
  - intros line Hline. apply elem_of_bruteForceLines.
    apply elem_of_connectionLines in Hline as (p & o & Hp & Ho & Hne & _ & Hlt).
    eauto 10.
  - intros i j Hline.
    apply elem_of_connectionLines in Hline as (p & o & Hp & Ho & Hne & _ & Hlt).
    split; [exact Hne|]. exists p, o. auto.
Qed.

Lemma distSq_sym (p o : Particle) : distSq p o = distSq o p.
Proof. unfold distSq. ring. Qed.

(** X6: with the grid built from the current positions (cell size 150) the
    connection pass draws every connection from both of its ends: the line
    from one particle to another is drawn exactly when the line back is. *)
Theorem fresh_grid_draws_both_directions (ps : list Particle) i j :
  (i, j) ∈ connectionLines ps (buildGrid ps 150) 150 <->
  (j, i) ∈ connectionLines ps (buildGrid ps 150) 150.
Proof.
  rewrite !grid_lines_iff_brute_force_lines by lra.
  rewrite !elem_of_bruteForceLines. cbn [fst snd].
  split; intros (p & o & Hp & Ho & Hne & Hlt); exists o, p;
    rewrite distSq_sym; auto.
Qed.

End GridFacts.

(** ** Frames *)

Section FrameFacts.
Local Open Scope R_scope.

Lemma animate_state reduced (f : Field) :
  (animate reduced f).1 =
  {| canvas := canvas f;
     particles := map (Particle.update (canvas f)) (particles f);
     gridCells :=
       if gridIsDue (animationIdRef f)
       then buildGrid (map (Particle.update (canvas f)) (particles f)) (gridCellSize f)
       else gridCells f;
     gridCellSize := gridCellSize f;
     animationIdRef := Some (nextAnimationId (animationIdRef f));
     lastMouseUpdateRef := lastMouseUpdateRef f;
     mouseRef := mouseRef f |}.
Proof. unfold animate. rewrite updateAndDraw_spec. reflexivity. Qed.

Lemma afterFrames_gridCellSize reduced n f :
  gridCellSize (afterFrames reduced n f) = gridCellSize f.
Proof.
  induction n as [|n IH]; [reflexivity|].
  cbn [afterFrames]. rewrite animate_state. exact IH.
Qed.

Lemma afterFrames_animationIdRef reduced n f :
  animationIdRef f = None ->
  animationIdRef (afterFrames reduced (S n) f) = Some (N.of_nat (S n)).
Proof.
  intros Hnull. induction n as [|n IH].
  - cbn [afterFrames]. rewrite animate_state. cbn [animationIdRef].
    rewrite Hnull. reflexivity.
  - change (afterFrames reduced (S (S n)) f)
      with (animate (reduced (S n)) (afterFrames reduced (S n) f)).1.
    rewrite animate_state. cbn [animationIdRef]. rewrite IH.
    cbn [nextAnimationId]. f_equal. lia.
Qed.

Lemma gridIsDue_frame n :
  gridIsDue (Some (N.of_nat (S n))) = bool_decide ((S n) mod 3 = 0)%nat.
Proof.
  cbn [gridIsDue].
  replace (N.of_nat (S n) =? 0)%N with false by (symmetry; apply N.eqb_neq; lia).
  cbn [orb].
  change 3%N with (N.of_nat 3). rewrite <- Nat2N.inj_mod.
  destruct (N.eqb_spec (N.of_nat (S n mod 3)) 0) as [Heq|Hne];
    symmetry; [apply bool_decide_eq_true | apply bool_decide_eq_false]; lia.
Qed.

(** X7: counted from the first frame, [animate] rebuilds the grid in the
    frames 1, 4, 7, ... and in no other: after frame [n + 1] the frame
    counter is [n + 1] and the grid is the one built from the positions the
    particles had at the end of frame [3 * (n / 3) + 1], so that the grid a
    connection pass reads is at most two frames old. *)
Theorem grid_is_rebuilt_every_third_frame reduced (f : Field) n :
  animationIdRef f = None ->
  animationIdRef (afterFrames reduced (S n) f) = Some (N.of_nat (S n)) /\
  gridCells (afterFrames reduced (S n) f) =
    buildGrid (particles (afterFrames reduced (S (3 * (n / 3))) f)) (gridCellSize f).
Proof.
  intros Hnull. split; [apply afterFrames_animationIdRef, Hnull|].
  induction n as [|n IH].
  - cbn [afterFrames Nat.div Nat.divmod fst Nat.mul Nat.add].
    rewrite animate_state. cbn [gridCells particles]. rewrite Hnull. reflexivity.
  - change (afterFrames reduced (S (S n)) f)
      with (animate (reduced (S n)) (afterFrames reduced (S n) f)).1 at 1.
    rewrite animate_state. cbn [gridCells].
    rewrite afterFrames_animationIdRef by exact Hnull.
    rewrite gridIsDue_frame, afterFrames_gridCellSize.
    pose proof (Nat.div_mod_eq (S n) 3) as Hdiv.
    pose proof (Nat.mod_upper_bound (S n) 3) as Hmod.
    pose proof (Nat.div_mod_eq n 3) as Hdiv'.
    pose proof (Nat.mod_upper_bound n 3) as Hmod'.
    case_bool_decide as Hdue.
    + replace (3 * (S n / 3))%nat with (S n) by lia.
      change (afterFrames reduced (S (S n)) f)
        with (animate (reduced (S n)) (afterFrames reduced (S n) f)).1.
      rewrite animate_state. reflexivity.
    + rewrite IH. replace (S n / 3)%nat with (n / 3)%nat by lia. reflexivity.
Qed.

Lemma grid_is_rebuilt_every_third_frame_witness :
  animationIdRef (afterFrames (fun _ => false) 5 sampleInitialField) = Some 5%N /\
  gridCells (afterFrames (fun _ => false) 5 sampleInitialField) =
    buildGrid (particles (afterFrames (fun _ => false) 4 sampleInitialField)) 150.
Proof.
  exact (grid_is_rebuilt_every_third_frame (fun _ => false) sampleInitialField 4
           eq_refl).
Defined.

Lemma countCmds_app test l1 l2 :
  countCmds test (l1 ++ l2) = (countCmds test l1 + countCmds test l2)%nat.
Proof. unfold countCmds. rewrite List.filter_app, length_app. reflexivity. Qed.

Lemma countCmds_draws test (ps : list Particle) k :
  (forall p, countCmds test (Particle.draw p) = k) ->
  countCmds test (flat_map Particle.draw ps) = (k * length ps)%nat.
Proof.
  intros Hk. induction ps as [|p rest IH]; [cbn; lia|].
  cbn [flat_map length]. rewrite countCmds_app, Hk, IH. lia.
Qed.

Lemma countCmds_strokeLines test (ps : list Particle) lines k :
  (forall p o, countCmds test (strokeLine p o) = k) ->
  (forall line, line ∈ lines -> is_Some (ps !! line.1) /\ is_Some (ps !! line.2)) ->
  countCmds test (strokeLines ps lines) = (k * length lines)%nat.
Proof.
  intros Hk. induction lines as [|line rest IH]; intros Hvalid; [cbn; lia|].
  unfold strokeLines in *. cbn [flat_map length]. rewrite countCmds_app.
  rewrite IH by (intros l Hl; apply Hvalid; by right).
  destruct (Hvalid line) as [[p Hp] [o Ho]]; [by left|].
  rewrite Hp, Ho, Hk. lia.
Qed.

(** X8: a frame paints every particle once and strokes every connection
    line once: it issues one [fill] per particle, and one [stroke] per line
    of the connection pass (none under the reduced-motion preference), and
    it leaves the number of particles as it was. *)
Theorem frame_paints_particles_and_lines_once reduced (f : Field) :
  let f' := (animate reduced f).1 in
  length (particles f') = length (particles f) /\
  countCmds isFill (animate reduced f).2 = length (particles f) /\
  countCmds isStroke (animate reduced f).2 =
    if reduced then 0%nat
    else length (connectionLines (particles f') (gridCells f') (gridCellSize f)).
Proof.
  intros f'. subst f'. rewrite animate_state. cbn [particles gridCells].
  unfold animate. rewrite updateAndDraw_spec. cbn [snd].
  set (ps := map (Particle.update (canvas f)) (particles f)).
  set (cells := if gridIsDue (animationIdRef f) then buildGrid ps (gridCellSize f)
                else gridCells f).
  assert (Hlines : forall test k,
            (forall p o, countCmds test (strokeLine p o) = k) ->
            countCmds test
              (strokeLines ps (connectionLines ps cells (gridCellSize f)))
            = (k * length (connectionLines ps cells (gridCellSize f)))%nat).
  { intros test k Hk. apply countCmds_strokeLines; [exact Hk|].
    intros line Hline.
    apply elem_of_connectionLines in Hline as (p & o & Hp & Ho & _).
    split; eauto. }
  split_and!.
  - subst ps. apply length_map.
  - rewrite !countCmds_app, (countCmds_draws isFill ps 1) by reflexivity.
    destruct reduced.
    + subst ps. rewrite length_map. cbn. lia.
    + rewrite (Hlines isFill 0%nat) by reflexivity.
      subst ps. rewrite length_map. cbn. lia.
  - rewrite !countCmds_app, (countCmds_draws isStroke ps 0) by reflexivity.
    destruct reduced.
    + cbn. lia.
    + rewrite (Hlines isStroke 1%nat) by reflexivity. cbn. lia.
Qed.

End FrameFacts.

(** ** Particles *)

Section ParticleFacts.
Local Open Scope R_scope.

Lemma getRandomColor_defined r :
  0 <= r < 1 -> exists c, Particle.getRandomColor r = Some c /\ c ∈ Particle.colors.
Proof.
  intros Hr. unfold Particle.getRandomColor.
  cbn [Particle.colors length]. replace (INR 3) with 3 by (cbn; lra).
  pose proof (Zfloor_bound (r * 3)) as Hb.
  assert (Hlo : (0 <= Zfloor (r * 3))%Z) by (apply Zfloor_lub; lra).
  assert (Hhi : (Zfloor (r * 3) < 3)%Z) by (apply lt_IZR; lra).
  assert (Zfloor (r * 3) = 0 \/ Zfloor (r * 3) = 1 \/ Zfloor (r * 3) = 2)%Z
    as [ -> | [ -> | -> ] ] by lia;
    eexists; (split; [reflexivity|]); unfold Particle.colors;
    rewrite !elem_of_cons; tauto.
Qed.

(** X9: a particle built from random numbers of [0, 1) starts on the
    canvas (strictly inside the right and bottom edges unless the canvas is
    empty), with a size in [0.5, 2.5], velocity components in [-0.15, 0.15),
    an opacity in [0.2, 0.6), a direction of 1 or -1, and one of the three
    colours, never an undefined one.  The upper bound of the size is closed:
    in binary64 the largest random number, 1 - 2^-53, gives [r * 2 + 0.5]
    the value 2.5 itself. *)
Theorem constructor_ranges canvas d :
  Particle.validDraws d ->
  let p := Particle.constructor canvas d in
  (0 <= Particle.x p <= canvasWidth canvas /\
   (Particle.x p < canvasWidth canvas \/ canvasWidth canvas = 0)) /\
  (0 <= Particle.y p <= canvasHeight canvas /\
   (Particle.y p < canvasHeight canvas \/ canvasHeight canvas = 0)) /\
  0.5 <= Particle.size p <= 2.5 /\
  -0.15 <= Particle.speedX p < 0.15 /\
  -0.15 <= Particle.speedY p < 0.15 /\
  0.2 <= Particle.opacity p < 0.6 /\
  (Particle.opacityDirection p = 1%Z \/ Particle.opacityDirection p = (-1)%Z) /\
  exists c, Particle.color p = Some c /\ c ∈ Particle.colors.
Proof.
  intros Hd p. subst p.
  unfold Particle.validDraws, Particle.unitInterval in Hd.
  destruct Hd as (Hx & Hy & Hsize & Hsx & Hsy & Hcolor & Hop & Hdir).
  pose proof (canvasWidth_nonneg canvas) as Hw.
  pose proof (canvasHeight_nonneg canvas) as Hh.
  cbn [Particle.constructor Particle.x Particle.y Particle.size Particle.speedX
       Particle.speedY Particle.opacity Particle.opacityDirection Particle.color].
  split_and!; try lra; try nra.
  - destruct (Rlt_dec 0.5 (Particle.rndDirection d)); auto.
  - apply getRandomColor_defined, Hcolor.
Qed.

Lemma constructor_ranges_witness :
  0.5 <= Particle.size (Particle.constructor canvas800x600 sampleDraws) <= 2.5 /\
  exists c, Particle.color (Particle.constructor canvas800x600 sampleDraws) = Some c /\
            c ∈ Particle.colors.
Proof.
  pose proof (constructor_ranges canvas800x600 sampleDraws sampleDraws_valid) as H.
  cbv zeta in H. destruct H as (_ & _ & Hsize & _ & _ & _ & _ & Hcolor).
  split; [exact Hsize | exact Hcolor].
Defined.

(** X10: [update] moves a particle by its velocity and then wraps each axis
    on its own: a position past the right (bottom) edge becomes 0, a
    position before the left (top) edge becomes the width (height), any
    other position is kept; the velocity, the size and the colour are not
    touched. *)
Theorem update_moves_then_wraps canvas (p : Particle) :
  let p' := Particle.update canvas p in
  let x1 := Particle.x p + Particle.speedX p in
  let y1 := Particle.y p + Particle.speedY p in
  ((canvasWidth canvas < x1 /\ Particle.x p' = 0) \/
   (x1 < 0 /\ Particle.x p' = canvasWidth canvas) \/
   (0 <= x1 <= canvasWidth canvas /\ Particle.x p' = x1)) /\
  ((canvasHeight canvas < y1 /\ Particle.y p' = 0) \/
   (y1 < 0 /\ Particle.y p' = canvasHeight canvas) \/
   (0 <= y1 <= canvasHeight canvas /\ Particle.y p' = y1)) /\
  Particle.speedX p' = Particle.speedX p /\
  Particle.speedY p' = Particle.speedY p /\
  Particle.size p' = Particle.size p /\
  Particle.color p' = Particle.color p.
Proof.
  intros p' x1 y1. subst p' x1 y1.
  cbn [Particle.update Particle.x Particle.y Particle.speedX Particle.speedY
       Particle.size Particle.color].
  split_and!; try reflexivity.
  - destruct (wrap_cases (canvasWidth canvas) (Particle.x p + Particle.speedX p))
      as [H|[(H1 & _ & H2)|H]]; auto.
  - destruct (wrap_cases (canvasHeight canvas) (Particle.y p + Particle.speedY p))
      as [H|[(H1 & _ & H2)|H]]; auto.
Qed.

Lemma update_constructed canvas p :
  constructed p -> constructed (Particle.update canvas p).
Proof. intros H. exact H. Qed.

Lemma mouseInteraction_constructed mouse (p q : Particle) :
  mouseInteraction mouse p = Some q -> constructed p -> constructed q.
Proof.
  intros Hq Hp.
  destruct (mouseInteraction_velocity_only mouse p q Hq)
    as (_ & _ & Hsize & Hcolor & _).
  unfold constructed in *. rewrite Hsize, Hcolor. exact Hp.
Qed.

Lemma mapM_mouseInteraction_length mouse (ps qs : list Particle) :
  mapM (mouseInteraction mouse) ps = Some qs -> length qs = length ps.
Proof.
  intros H. apply mapM_Some in H. symmetry. eapply Forall2_length, H.
Qed.

Lemma particleCount_at_least_30 low canvas : (30 <= particleCount low canvas)%N.
Proof. unfold particleCount. destruct low; lia. Qed.

(** X11: in every state the component can reach there are at least 30
    particles, and every particle still has the size and the colour it was
    built with: a size in [0.5, 2.5] and one of the three colours, so that
    [draw] never paints with an undefined colour. *)
Theorem reachable_particles_keep_size_and_colour (f : Field) :
  reachable f ->
  (30 <= length (particles f))%nat /\
  Forall constructed (particles f) /\
  (forall i p, particles f !! i = Some p ->
     exists c, c ∈ Particle.colors /\
       FillStyle (Some c) (Particle.opacity p) ∈ Particle.draw p).
Proof.
  intros Hf.
  assert (Hinv : (30 <= length (particles f))%nat /\ Forall constructed (particles f)).
  { induction Hf as [mounted resized low rnd Hrnd | reduced f _ IH | resized f _ IH
                    | now rect event f f' _ IH Hmove | f _ IH].
    - cbn [initialField particles]. unfold initParticles. split.
      + rewrite length_map, length_seq.
        pose proof (particleCount_at_least_30 low mounted). lia.
      + apply Forall_forall. intros p Hp.
        apply list_elem_of_In, in_map_iff in Hp as [i [<- _]].
        pose proof (constructor_ranges resized (rnd i) (Hrnd i)) as H.
        cbv zeta in H. destruct H as (_ & _ & Hsize & _ & _ & _ & _ & Hcolor).
        split; assumption.
    - rewrite animate_state. cbn [particles]. destruct IH as [Hlen Hall].
      split; [by rewrite length_map|].
      apply Forall_fmap. eapply Forall_impl; [exact Hall|].
      intros p Hp. apply update_constructed, Hp.
    - exact IH.
    - unfold handleMouseMove in Hmove.
      destruct (now - lastMouseUpdateRef f <? 32)%Z.
      + injection Hmove as <-. exact IH.
      + destruct (mapM _ (particles f)) as [qs|] eqn:Hqs; [|discriminate].
        cbn [mbind option_bind] in Hmove. injection Hmove as <-.
        cbn [particles]. destruct IH as [Hlen Hall]. split.
        * by rewrite (mapM_mouseInteraction_length _ _ _ Hqs).
        * apply mapM_Some in Hqs. clear -Hqs Hall.
          induction Hqs as [|p q ps qs Hq _ IHqs]; [constructor|].
          apply Forall_cons in Hall as [Hp Hps]. constructor; [|auto].
          apply (mouseInteraction_constructed _ p q Hq Hp).
    - exact IH. }
  destruct Hinv as [Hlen Hall]. split_and!; [exact Hlen | exact Hall |].
  intros i p Hp.
  destruct (Forall_lookup_1 _ _ _ _ Hall Hp) as [_ (c & Hc & Hin)].
  exists c. split; [exact Hin|].
  unfold Particle.draw. rewrite Hc, !elem_of_cons. tauto.
Qed.

Lemma reachable_particles_keep_size_and_colour_witness :
  (30 <= length (particles sampleInitialField))%nat /\
  Forall constructed (particles sampleInitialField).
Proof.
  destruct (reachable_particles_keep_size_and_colour sampleInitialField
              sampleInitialField_reachable) as (Hlen & Hall & _).
  split; [exact Hlen | exact Hall].
Defined.

End ParticleFacts.

(** ** The pointer *)

Section PointerFacts.
Local Open Scope R_scope.

Lemma handleMouseMove_accepted now rect event (f : Field) :
  (32 <= now - lastMouseUpdateRef f)%Z ->
  exists qs,
    mapM (mouseInteraction {| mouseX := clientX event - left rect;
                              mouseY := clientY event - top rect;
                              active := true |}) (particles f) = Some qs /\
    handleMouseMove now rect event f =
    Some {| canvas := canvas f;
            particles := qs;
            gridCells := gridCells f;
            gridCellSize := gridCellSize f;
            animationIdRef := animationIdRef f;
            lastMouseUpdateRef := now;
            mouseRef := {| mouseX := clientX event - left rect;
                           mouseY := clientY event - top rect;
                           active := true |} |}.
Proof.
  intros Hlate. unfold handleMouseMove.
  replace (now - lastMouseUpdateRef f <? 32)%Z with false
    by (symmetry; apply Z.ltb_ge; lia).
  destruct (mapM_mouseInteraction
              {| mouseX := clientX event - left rect;
                 mouseY := clientY event - top rect; active := true |}
              (particles f)) as [qs [Hqs _]].
  exists qs. split; [exact Hqs|]. rewrite Hqs. reflexivity.
Qed.

(** X12: [handleMouseMove] samples the pointer at most once per 32 ms.  A
    call made at least 32 ms after the last accepted one is accepted: it
    records its time and the pointer position and marks the pointer active.
    Any call whose time is less than 32 ms after an accepted one changes
    nothing at all. *)
Theorem handleMouseMove_samples_every_32ms
    now1 now2 rect1 rect2 event1 event2 (f : Field) :
  (32 <= now1 - lastMouseUpdateRef f)%Z ->
  (now2 - now1 < 32)%Z ->
  exists f1,
    handleMouseMove now1 rect1 event1 f = Some f1 /\
    lastMouseUpdateRef f1 = now1 /\
    mouseRef f1 = {| mouseX := clientX event1 - left rect1;
                     mouseY := clientY event1 - top rect1;
                     active := true |} /\
    handleMouseMove now2 rect2 event2 f1 = Some f1.
Proof.
  intros Hlate Hsoon.
  destruct (handleMouseMove_accepted now1 rect1 event1 f Hlate) as [qs [_ Hf1]].
  eexists. split; [exact Hf1|]. split; [reflexivity|]. split; [reflexivity|].
  unfold handleMouseMove at 1. cbn [lastMouseUpdateRef].
  replace (now2 - now1 <? 32)%Z with true by (symmetry; apply Z.ltb_lt; lia).
  reflexivity.
Qed.

Lemma handleMouseMove_samples_every_32ms_witness :
  exists f1,
    handleMouseMove 1000 {| left := 0; top := 0 |}
      {| clientX := 13; clientY := 14 |} sampleField = Some f1 /\
    lastMouseUpdateRef f1 = 1000%Z /\
    mouseRef f1 = {| mouseX := 13 - 0; mouseY := 14 - 0; active := true |} /\
    handleMouseMove 1020 {| left := 0; top := 0 |}
      {| clientX := 500; clientY := 300 |} f1 = Some f1.
Proof.
  apply (handleMouseMove_samples_every_32ms 1000 1020
           {| left := 0; top := 0 |} {| left := 0; top := 0 |}
           {| clientX := 13; clientY := 14 |} {| clientX := 500; clientY := 300 |}
           sampleField); cbn; lia.
Defined.

(** X13: the pointer changes velocities and nothing else.  After
    [handleMouseMove] the canvas, the grid and the frame counter are as
    before, there are as many particles, and every particle has the
    position, size, colour, opacity and opacity direction it had. *)
Theorem handleMouseMove_changes_velocities_only
    now rect event (f f' : Field) :
  handleMouseMove now rect event f = Some f' ->
  canvas f' = canvas f /\
  gridCells f' = gridCells f /\
  gridCellSize f' = gridCellSize f /\
  animationIdRef f' = animationIdRef f /\
  length (particles f') = length (particles f) /\
  (forall i p, particles f !! i = Some p ->
     exists q, particles f' !! i = Some q /\
       Particle.x q = Particle.x p /\ Particle.y q = Particle.y p /\
       Particle.size q = Particle.size p /\ Particle.color q = Particle.color p /\
       Particle.opacity q = Particle.opacity p /\
       Particle.opacityDirection q = Particle.opacityDirection p).
Proof.
  unfold handleMouseMove. intros Hmove.
  destruct (now - lastMouseUpdateRef f <? 32)%Z.
  { injection Hmove as <-. split_and!; try reflexivity.
    intros i p Hp. exists p. auto 10. }
  destruct (mapM _ (particles f)) as [qs|] eqn:Hqs; [|discriminate].
  cbn [mbind option_bind] in Hmove. injection Hmove as <-.
  cbn [canvas gridCells gridCellSize animationIdRef particles].
  split_and!; try reflexivity.
  - apply (mapM_mouseInteraction_length _ _ _ Hqs).
  - intros i p Hp. apply mapM_Some in Hqs.
    destruct (Forall2_lookup_l _ _ _ _ _ Hqs Hp) as [q [Hq Hpq]].
    exists q. split; [exact Hq|].
    apply (mouseInteraction_velocity_only _ _ _ Hpq).
Qed.

Lemma handleMouseMove_changes_velocities_only_witness :
  exists f',
    handleMouseMove 1000 {| left := 0; top := 0 |}
      {| clientX := 13; clientY := 14 |} sampleField = Some f' /\
    gridCells f' = gridCells sampleField /\
    length (particles f') = length (particles sampleField).
Proof.
  destruct (handleMouseMove_accepted 1000 {| left := 0; top := 0 |}
              {| clientX := 13; clientY := 14 |} sampleField)
    as [qs [_ Hf']]; [cbn; lia|].
  eexists. split; [exact Hf'|].
  destruct (handleMouseMove_changes_velocities_only _ _ _ _ _ Hf')
    as (_ & Hgrid & _ & _ & Hlen & _).
  split; [exact Hgrid | exact Hlen].
Defined.

End PointerFacts.

(** ** Connection lines and the particle count *)

Section LineAndCountFacts.
Local Open Scope R_scope.

Lemma distSq_nonneg (p o : Particle) : 0 <= distSq p o.
Proof.
  unfold distSq. cbv zeta.
  pose proof (Rle_0_sqr (Particle.x p - Particle.x o)) as Hx.
  pose proof (Rle_0_sqr (Particle.y p - Particle.y o)) as Hy.
  unfold Rsqr in Hx, Hy. lra.
Qed.

Lemma distance_below_threshold (p o : Particle) :
  distSq p o < maxDistSq -> 0 <= sqrt (distSq p o) < 120.
Proof.
  intros Hlt. split; [apply sqrt_pos|].
  rewrite <- (sqrt_square 120) by lra.
  apply sqrt_lt_1_alt. split; [apply distSq_nonneg | exact Hlt].
Qed.

(** X16: a connection line is drawn with an opacity in (0, 0.15]: the
    closer the two particles, the more visible the line, and of two lines
    the one between the closer pair is never the fainter. *)
Theorem connection_line_fades_with_distance (p o : Particle) :
  distSq p o < maxDistSq ->
  let alpha := (120 - sqrt (distSq p o)) / 120 * 0.15 in
  GlobalAlpha alpha ∈ strokeLine p o /\
  0 < alpha <= 0.15 /\
  (forall p' o' : Particle,
     distSq p o <= distSq p' o' ->
     (120 - sqrt (distSq p' o')) / 120 * 0.15 <= alpha).
Proof.
  intros Hlt alpha. subst alpha.
  pose proof (distance_below_threshold p o Hlt) as Hd.
  split_and!.
  - unfold strokeLine. rewrite !elem_of_cons. tauto.
  - lra.
  - lra.
  - intros p' o' Hfar.
    assert (sqrt (distSq p o) <= sqrt (distSq p' o')) by (apply sqrt_le_1_alt, Hfar).
    lra.
Qed.

Lemma connection_line_fades_with_distance_witness :
  0 < (120 - sqrt (distSq (restingAt 10 10) (restingAt 40 50))) / 120 * 0.15 <= 0.15.
Proof.
  assert (Hlt : distSq (restingAt 10 10) (restingAt 40 50) < maxDistSq).
  { unfold distSq, maxDistSq. cbn [restingAt Particle.x Particle.y]. lra. }
  exact (proj1 (proj2 (connection_line_fades_with_distance
                         (restingAt 10 10) (restingAt 40 50) Hlt))).
Defined.

(** X17: a larger canvas never gets fewer particles, on either kind of
    device; a canvas of less than 620000 pixels gets the lower bound of 30
    on a constrained device, and one of less than 648000 pixels the lower
    bound of 80 on a capable one. *)
Theorem particleCount_grows_with_the_canvas low c1 c2 :
  (width c1 * height c1 <= width c2 * height c2)%N ->
  (particleCount low c1 <= particleCount low c2)%N /\
  ((width c1 * height c1 < 620000)%N -> particleCount true c1 = 30%N) /\
  ((width c1 * height c1 < 648000)%N -> particleCount false c1 = 80%N).
Proof.
  intros Harea. unfold particleCount. split_and!.
  - assert (H1 : (width c1 * height c1 / 20000 <= width c2 * height c2 / 20000)%N)
      by (apply N.Div0.div_le_mono; exact Harea).
    assert (H2 : (width c1 * height c1 / 8000 <= width c2 * height c2 / 8000)%N)
      by (apply N.Div0.div_le_mono; exact Harea).
    destruct low; lia.
  - intros Hsmall.
    assert ((width c1 * height c1 / 20000 < 31)%N)
      by (apply N.Div0.div_lt_upper_bound; lia).
    lia.
  - intros Hsmall.
    assert ((width c1 * height c1 / 8000 < 81)%N)
      by (apply N.Div0.div_lt_upper_bound; lia).
    lia.
Qed.

Lemma particleCount_grows_with_the_canvas_witness :
  (particleCount true {| width := 300; height := 150 |}
   <= particleCount true canvas800x600)%N /\
  particleCount true {| width := 300; height := 150 |} = 30%N /\
  particleCount false {| width := 300; height := 150 |} = 80%N.
Proof.
  assert (Harea : (width {| width := 300; height := 150 |}
                   * height {| width := 300; height := 150 |}
                   <= width canvas800x600 * height canvas800x600)%N)
    by (vm_compute; discriminate).
  destruct (particleCount_grows_with_the_canvas true
              {| width := 300; height := 150 |} canvas800x600 Harea)
    as (Hmono & Hlow & _).
  destruct (particleCount_grows_with_the_canvas false
              {| width := 300; height := 150 |} canvas800x600 Harea)
    as (_ & _ & Hcapable).
  split; [exact Hmono|].
  split; [apply Hlow | apply Hcapable]; vm_compute; reflexivity.
Defined.

End LineAndCountFacts.

(** * Properties of the scroll hooks *)

Section ThrottleFacts.
Import ScrollHooks.
Context {A : Type}.

Lemma spaced_singleton delay a : spaced delay [a].
Proof. intros i x y Hx Hy. destruct i; discriminate. Qed.

Lemma spaced_cons delay a b times :
  (delay <= b - a)%Z -> spaced delay (b :: times) -> spaced delay (a :: b :: times).
Proof.
  intros Hab Hrest [|i] x y Hx Hy.
  - cbn in Hx, Hy. injection Hx as <-. injection Hy as <-. exact Hab.
  - exact (Hrest i x y Hx Hy).
Qed.

Lemma spaced_tail delay a times : spaced delay (a :: times) -> spaced delay times.
Proof. intros H i x y Hx Hy. exact (H (S i) x y Hx Hy). Qed.

Lemma throttleDue_idle delay now :
  throttleDue delay ({| lastTime := now; timeoutId := None |} : Throttle A).
Proof. intros due args H. cbn in H. discriminate. Qed.

Lemma throttleRun_spaced delay (events : list (TimerEvent A)) :
  forall st,
    throttleDue delay st ->
    throttlePunctual delay st events ->
    spaced delay (lastTime st :: map fst (throttleRun delay st events).2).
Proof.
  induction events as [|ev rest IH]; intros st Hdue Hpunctual.
  { apply spaced_singleton. }
  cbn [throttleRun]. cbn [throttlePunctual] in Hpunctual.
  destruct Hpunctual as [Hnow Hrest].
  destruct ev as [now args|now]; cbn [throttleStep] in *.
  - unfold throttled in *.
    destruct (Z.leb_spec delay (now - lastTime st)) as [Hlate|Hsoon];
      cbn [fst] in Hrest.
    + specialize (IH _ (throttleDue_idle delay now) Hrest). cbn [lastTime] in IH.
      destruct (throttleRun delay _ rest) as [st2 out2].
      cbn [snd app map fst] in *. apply spaced_cons; assumption.
    + assert (Hdue' : throttleDue delay
                {| lastTime := lastTime st;
                   timeoutId := Some (now + (delay - (now - lastTime st)), args)%Z |}).
      { intros due a H. cbn in H. injection H as <- _. cbn [lastTime]. lia. }
      specialize (IH _ Hdue' Hrest). cbn [lastTime] in IH.
      destruct (throttleRun delay _ rest) as [st2 out2]. exact IH.
  - unfold throttleTimeout in *.
    destruct (timeoutId st) as [[due args]|] eqn:Htimer; cbn [fst] in Hrest.
    + specialize (IH _ (throttleDue_idle delay now) Hrest). cbn [lastTime] in IH.
      pose proof (Hdue due args Htimer) as Hd.
      destruct (throttleRun delay _ rest) as [st2 out2].
      cbn [snd app map fst] in *. apply spaced_cons; [lia | assumption].
    + specialize (IH _ Hdue Hrest).
      destruct (throttleRun delay _ rest) as [st2 out2]. exact IH.
Qed.

Lemma throttleRun_passes_arguments delay (events : list (TimerEvent A)) :
  forall st t args,
    (t, args) ∈ (throttleRun delay st events).2 ->
    (exists now, Called now args ∈ events) \/
    (exists due, timeoutId st = Some (due, args)).
Proof.
  induction events as [|ev rest IH]; intros st t args Hin.
  { cbn in Hin. by apply elem_of_nil in Hin. }
  cbn [throttleRun] in Hin.
  destruct (throttleStep delay st ev) as [st1 out1] eqn:Hstep.
  specialize (IH st1 t args).
  destruct (throttleRun delay st1 rest) as [st2 out2].
  cbn [snd] in *. apply elem_of_app in Hin as [Hin|Hin].
  - destruct ev as [now a|now]; cbn [throttleStep] in Hstep.
    + unfold throttled in Hstep.
      destruct (delay <=? now - lastTime st)%Z; injection Hstep as <- <-.
      * apply list_elem_of_singleton in Hin as [= -> ->].
        left. exists now. by left.
      * by apply elem_of_nil in Hin.
    + unfold throttleTimeout in Hstep.
      destruct (timeoutId st) as [[due a]|]; injection Hstep as <- <-.
      * apply list_elem_of_singleton in Hin as [= -> ->]. right. eauto.
      * by apply elem_of_nil in Hin.
  - destruct (IH Hin) as [[now Hcalled]|[due Hdue]].
    + left. exists now. by right.
    + destruct ev as [now a|now]; cbn [throttleStep] in Hstep.
      * unfold throttled in Hstep.
        destruct (delay <=? now - lastTime st)%Z; injection Hstep as <- <-;
          cbn [timeoutId] in Hdue; [discriminate|].
        injection Hdue as _ ->. left. exists now. by left.
      * unfold throttleTimeout in Hstep.
        destruct (timeoutId st) as [[due' a]|] eqn:Htimer; injection Hstep as <- <-.
        -- discriminate.
        -- congruence.
Qed.

(** X18: a throttled function calls its callback at most once per [delay]:
    as long as no timeout runs before it is due, two successive calls of
    the callback are at least [delay] apart, and the callback is only ever
    given the arguments of some call of the throttled function. *)
Theorem throttle_spaces_the_calls delay (events : list (TimerEvent A)) :
  throttlePunctual delay throttleInitial events ->
  let calls := (throttleRun delay throttleInitial events).2 in
  spaced delay (map fst calls) /\
  (forall t args, (t, args) ∈ calls -> exists now, Called now args ∈ events).
Proof.
  intros Hpunctual calls. subst calls. split.
  - apply (spaced_tail delay (lastTime (@throttleInitial A))).
    apply throttleRun_spaced; [|exact Hpunctual].
    apply throttleDue_idle.
  - intros t args Hin.
    destruct (throttleRun_passes_arguments delay events _ t args Hin)
      as [Hcalled|[due Hdue]]; [exact Hcalled | discriminate].
Qed.

End ThrottleFacts.

Lemma throttle_spaces_the_calls_witness :
  (ScrollHooks.throttleRun 16 ScrollHooks.throttleInitial
     [ ScrollHooks.Called 1000 "a"%string; ScrollHooks.Called 1005 "b"%string;
       ScrollHooks.Expired 1016; ScrollHooks.Called 1020 "c"%string ]).2
  = [ (1000%Z, "a"%string); (1016%Z, "b"%string) ] /\
  ScrollHooks.spaced 16 [1000%Z; 1016%Z].
Proof.
  split; [reflexivity|].
  refine (proj1 (throttle_spaces_the_calls 16
            [ ScrollHooks.Called 1000 "a"%string; ScrollHooks.Called 1005 "b"%string;
              ScrollHooks.Expired 1016; ScrollHooks.Called 1020 "c"%string ] _)).
  cbv -[Z.le]. repeat split; lia.
Defined.

Section DebounceFacts.
Import ScrollHooks.
Context {A : Type}.

Lemma debounceRun_calls delay (events : list (TimerEvent A)) :
  forall st t args,
    debouncePunctual delay st events ->
    (t, args) ∈ (debounceRun delay st events).2 ->
    (exists before after now,
       events = before ++ Called now args :: Expired t :: after /\
       (now + delay <= t)%Z) \/
    (exists due after,
       st = Some (due, args) /\ events = Expired t :: after /\ (due <= t)%Z).
Proof.
  induction events as [|ev rest IH]; intros st t args Hpunctual Hin.
  { cbn in Hin. by apply elem_of_nil in Hin. }
  cbn [debounceRun] in Hin. cbn [debouncePunctual] in Hpunctual.
  destruct Hpunctual as [Hnow Hrest].
  destruct ev as [now a|now]; cbn [debounceStep] in *.
  - unfold debounced in *. cbn [fst] in Hrest.
    specialize (IH _ t args Hrest).
    destruct (debounceRun delay _ rest) as [st2 out2]. cbn [snd app] in *.
    left. destruct (IH Hin) as [(before & after & c & -> & Hc)|(due & after & Hst & -> & Hd)].
    + exists (Called now a :: before), after, c. auto.
    + injection Hst as <- <-. exists [], after, now. auto.
  - unfold debounceTimeout in *.
    destruct st as [[due a]|]; cbn [fst] in Hrest;
      specialize (IH _ t args Hrest);
      destruct (debounceRun delay None rest) as [st2 out2]; cbn [snd app] in *.
    + apply elem_of_cons in Hin as [[= -> ->]|Hin].
      * right. exists due, rest. auto.
      * left. destruct (IH Hin)
          as [(before & after & c & -> & Hc)|(due' & after & Hst & _)];
          [|discriminate].
        exists (Expired now :: before), after, c. auto.
    + left. destruct (IH Hin)
        as [(before & after & c & -> & Hc)|(due' & after & Hst & _)];
        [|discriminate].
      exists (Expired now :: before), after, c. auto.
Qed.

(** X19: a debounced function calls its callback only after a pause: as
    long as no timeout runs before it is due, every call of the callback
    happens when the timeout of the most recent call of the debounced
    function expires, with the arguments of that call, at least [delay]
    after it and with no other call in between. *)
Theorem debounce_waits_for_a_pause delay (events : list (TimerEvent A)) t args :
  debouncePunctual delay None events ->
  (t, args) ∈ (debounceRun delay None events).2 ->
  exists before after now,
    events = before ++ Called now args :: Expired t :: after /\
    (now + delay <= t)%Z.
Proof.
  intros Hpunctual Hin.
  destruct (debounceRun_calls delay events None t args Hpunctual Hin)
    as [H|(due & after & Hst & _)]; [exact H | discriminate].
Qed.

End DebounceFacts.

Lemma debounce_waits_for_a_pause_witness :
  (ScrollHooks.debounceRun 250 None
     [ ScrollHooks.Called 0 "x"%string; ScrollHooks.Called 100 "y"%string;
       ScrollHooks.Expired 350 ]).2 = [ (350%Z, "y"%string) ] /\
  exists before after now,
    [ ScrollHooks.Called 0 "x"%string; ScrollHooks.Called 100 "y"%string;
      ScrollHooks.Expired 350 ]
    = before ++ ScrollHooks.Called now "y"%string :: ScrollHooks.Expired 350 :: after /\
    (now + 250 <= 350)%Z.
Proof.
  split; [reflexivity|].
  apply (debounce_waits_for_a_pause 250
           [ ScrollHooks.Called 0 "x"%string; ScrollHooks.Called 100 "y"%string;
             ScrollHooks.Expired 350 ] 350 "y"%string).
  - cbv -[Z.le]. repeat split; lia.
  - cbn. by left.
Defined.

Section ScrollDirectionFacts.
Import ScrollHooks.
Import PrimFloat.

Lemma scrollThrough_cons direction lastScrollY scrollTop tops :
  scrollThrough direction lastScrollY (scrollTop :: tops) =
  scrollThrough (handleScrollDirection direction lastScrollY scrollTop).1
                (handleScrollDirection direction lastScrollY scrollTop).2 tops.
Proof.
  unfold scrollThrough. cbn [fold_left fst snd].
  destruct (handleScrollDirection direction lastScrollY scrollTop). reflexivity.
Qed.

Lemma last_of_nonempty {B : Type} (l : list B) : forall a d1 d2,
  List.last (a :: l) d1 = List.last (a :: l) d2.
Proof.
  induction l as [|b l IH]; intros a d1 d2; [reflexivity|].
  change (List.last (b :: l) d1 = List.last (b :: l) d2). apply IH.
Qed.

(** X20: the direction reported by [useScrollOptimized] ignores a scroll
    made of small steps: when no step is measured as longer than 10, the
    direction stays what it was however far the page has moved in total,
    because the reference position is moved along with every step. *)
Theorem small_scroll_steps_never_change_direction direction lastScrollY tops :
  smallSteps lastScrollY tops ->
  scrollThrough direction lastScrollY tops = (direction, List.last tops lastScrollY).
Proof.
  revert lastScrollY. induction tops as [|scrollTop rest IH]; intros lastScrollY Hsmall.
  { reflexivity. }
  cbn [smallSteps] in Hsmall. destruct Hsmall as [Hstep Hrest].
  rewrite scrollThrough_cons. unfold handleScrollDirection. rewrite Hstep.
  rewrite andb_false_r. cbn [fst snd]. rewrite (IH _ Hrest).
  f_equal. destruct rest as [|next rest]; [reflexivity|].
  change (List.last (scrollTop :: next :: rest) lastScrollY)
    with (List.last (next :: rest) lastScrollY).
  apply last_of_nonempty.
Qed.

Lemma small_scroll_steps_never_change_direction_witness :
  scrollThrough "up" 0 [8; 17; 25; 34; 44]%float = ("up"%string, 44%float).
Proof.
  apply (small_scroll_steps_never_change_direction "up" 0 [8; 17; 25; 34; 44]%float).
  cbn [smallSteps]. repeat split; vm_compute; reflexivity.
Defined.

(** X21: the direction logic of [useScrollOptimized] and the handler of
    [useScrollDirectionOptimized] compute the same direction and the same
    reference position from the same scroll position, whatever the state. *)
Theorem scroll_direction_handlers_agree direction lastScrollY scrollTop :
  handleScrollDirection direction lastScrollY scrollTop =
  scrollDirectionOptimized direction lastScrollY scrollTop.
Proof.
  unfold handleScrollDirection, scrollDirectionOptimized.
  destruct (10 <? abs (scrollTop - lastScrollY))%float;
    rewrite ?andb_false_r, ?andb_true_r; [|reflexivity].
  destruct (String.eqb_spec
              (if (lastScrollY <? scrollTop)%float then "down" else "up")%string
              direction) as [Heq|Hne]; cbn [negb].
  - rewrite Heq. reflexivity.
  - reflexivity.
Qed.

End ScrollDirectionFacts.

Section ActiveSectionFacts.
Import ScrollHooks.

Lemma detectLoop_find layout (todo : list string) :
  forall cache activeSection,
    (detectLoop layout todo cache activeSection).2 =
    match find (fun section =>
                  match layout section with
                  | Some rect => inViewport rect
                  | None => false
                  end) todo with
    | Some current => current
    | None => activeSection
    end.
Proof.
  induction todo as [|section rest IH]; intros cache activeSection; [reflexivity|].
  cbn [detectLoop find].
  destruct (layout section) as [rect|]; [|apply IH].
  destruct (inViewport rect); [reflexivity | apply IH].
Qed.

Lemma sections_are_named current :
  current ∈ sections -> String.eqb current "" = false.
Proof.
  unfold sections. rewrite !elem_of_cons, elem_of_nil.
  intros H. repeat destruct H as [->|H]; try reflexivity. destruct H.
Qed.

Lemma find_first {B : Type} (test : B -> bool) (l : list B) current :
  find test l = Some current ->
  exists before after,
    l = before ++ current :: after /\ test current = true /\
    forall earlier, earlier ∈ before -> test earlier = false.
Proof.
  induction l as [|b rest IH]; [discriminate|].
  cbn [find]. destruct (test b) eqn:Hb.
  - intros [= ->]. exists [], rest. split_and!; auto.
    intros earlier Hearlier. by apply elem_of_nil in Hearlier.
  - intros Hfind. destruct (IH Hfind) as (before & after & -> & Hcurrent & Hfirst).
    exists (b :: before), after. split_and!; auto.
    intros earlier Hearlier.
    apply elem_of_cons in Hearlier as [->|Hearlier]; [exact Hb | auto].
Qed.

Lemma find_nothing {B : Type} (test : B -> bool) (l : list B) :
  find test l = None -> forall b, b ∈ l -> test b = false.
Proof.
  induction l as [|b rest IH]; intros Hfind c Hc; [by apply elem_of_nil in Hc|].
  cbn [find] in Hfind. destruct (test b) eqn:Hb; [discriminate|].
  apply elem_of_cons in Hc as [->|Hc]; [exact Hb | auto].
Qed.

(** X22: the loop of [detectActiveSection] in [useScrollOptimized] and the
    [find] of [handleScroll] in [App.jsx] select the same section from the
    same layout.  When one of the six sections has an element that spans the
    line 200 px below the top of the viewport, the first such section, in
    their order, becomes the active one; when none has, the active section
    stays what it was. *)
Theorem active_section_detections_agree layout cache activeSection :
  let detected := (detectActiveSection layout cache activeSection).2 in
  let spans section :=
    exists rect, layout section = Some rect /\ inViewport rect = true in
  detected = appActiveSection layout activeSection /\
  ((forall section, section ∈ sections -> ~ spans section) ->
   detected = activeSection) /\
  (forall section, section ∈ sections -> spans section ->
   exists before after,
     sections = before ++ detected :: after /\ spans detected /\
     forall earlier, earlier ∈ before -> ~ spans earlier).
Proof.
  intros detected spans. subst detected. unfold detectActiveSection, appActiveSection.
  rewrite detectLoop_find.
  set (test := fun section => match layout section with
                              | Some rect => inViewport rect
                              | None => false
                              end).
  assert (Hspans : forall section, spans section <-> test section = true).
  { intros section. unfold spans, test. split.
    - intros (rect & -> & Hin). exact Hin.
    - destruct (layout section) as [rect|]; [eauto | discriminate]. }
  destruct (find test sections) as [current|] eqn:Hfind.
  - pose proof (find_some _ _ Hfind) as [Hin _].
    rewrite (sections_are_named current) by (by apply list_elem_of_In).
    split; [reflexivity|]. split.
    + intros Hnone. exfalso. apply (Hnone current); [by apply list_elem_of_In|].
      apply Hspans. apply (find_some _ _ Hfind).
    + intros _ _ _.
      destruct (find_first _ _ _ Hfind) as (before & after & Hsplit & Hcurrent & Hfirst).
      exists before, after. split_and!; [exact Hsplit | by apply Hspans |].
      intros earlier Hearlier Hearly. apply Hspans in Hearly.
      rewrite (Hfirst earlier Hearlier) in Hearly. discriminate.
  - split; [reflexivity|]. split; [reflexivity|].
    intros section Hsection Hsec. exfalso. apply Hspans in Hsec.
    rewrite (find_nothing _ _ Hfind section Hsection) in Hsec. discriminate.
Qed.

End ActiveSectionFacts.

(** * Properties of the sparks of [MagicalScrollEffects] *)

Section SparkFacts.
Import Sparks.
Import PrimFloat.
#[local] Set Warnings "-inexact-float".

Lemma sliceLast_length {B : Type} n (l : list B) :
  length (sliceLast n l) = Nat.min n (length l).
Proof. unfold sliceLast. rewrite length_drop. lia. Qed.

Lemma sliceLast_suffix {B : Type} n (l : list B) :
  l = take (length l - n) l ++ sliceLast n l.
Proof. unfold sliceLast. symmetry. apply take_drop. Qed.

(** X23: [handleScroll] adds a spark only when the page has moved by more
    than 5 since the last render; it then keeps the 20 most recent sparks,
    in their order, and appends the new one, with a life of 1, so that the
    list never holds more than 21 sparks.  Otherwise the list is left as it
    is. *)
Theorem handleScroll_keeps_the_last_20_sparks
    scrollY newScrollY now innerWidth innerHeight d (prev : list Spark) :
  let next := handleScroll scrollY newScrollY now innerWidth innerHeight d prev in
  ((5 <? abs (newScrollY - scrollY))%float = false /\ next = prev) \/
  ((5 <? abs (newScrollY - scrollY))%float = true /\
   length next <= 21 /\
   length next = S (Nat.min 20 (length prev)) /\
   exists older kept spark,
     prev = older ++ kept /\ next = kept ++ [spark] /\
     life spark = 1%float /\ (length prev <= 20 -> older = [])).
Proof.
  intros next. subst next. unfold handleScroll.
  destruct (5 <? abs (newScrollY - scrollY))%float; [right | left; auto].
  split; [reflexivity|].
  rewrite length_app, sliceLast_length. cbn [length].
  split_and!; [lia | lia |].
  eexists (take (length prev - 20) prev), (sliceLast 20 prev), _.
  split_and!; [apply sliceLast_suffix | reflexivity | reflexivity |].
  intros Hshort. replace (length prev - 20) with 0 by lia. reflexivity.
Qed.

Lemma animateParticles_app (l1 l2 : list Spark) :
  animateParticles (l1 ++ l2) = animateParticles l1 ++ animateParticles l2.
Proof. unfold animateParticles. rewrite map_app. apply filter_app. Qed.

Lemma animateTimes_app n : forall l1 l2 : list Spark,
  animateTimes n (l1 ++ l2) = animateTimes n l1 ++ animateTimes n l2.
Proof.
  induction n as [|n IH]; intros l1 l2; [reflexivity|].
  cbn [animateTimes]. rewrite animateParticles_app. apply IH.
Qed.

(** X24: a tick of [animateParticles] never adds a spark and never
    reorders the sparks: what is left are sparks of the list, each with its
    life lowered by 0.02 and every other field as it was, in their order,
    and every spark that is left has a life above 0. *)
Theorem animateParticles_ages_and_removes (prev : list Spark) :
  length (animateParticles prev) <= length prev /\
  animateParticles prev `sublist_of`
    map (fun p => {| id := id p; x := x p; y := y p;
                     life := (life p - 0.02)%float; color := color p |}) prev /\
  Forall (fun p => (0 <? life p)%float = true) (animateParticles prev) /\
  map id (animateParticles prev) `sublist_of` map id prev.
Proof.
  unfold animateParticles.
  set (aged := map _ prev).
  assert (Hsub : filter (fun p => (0 <? life p)%float = true) aged `sublist_of` aged)
    by apply sublist_filter.
  split_and!.
  - etrans; [apply length_filter|]. subst aged. by rewrite length_map.
  - exact Hsub.
  - apply Forall_forall. intros p Hp. by apply list_elem_of_filter in Hp as [Hp _].
  - replace (map id prev) with (map id aged).
    + exact (fmap_sublist id _ _ Hsub).
    + subst aged. rewrite map_map. reflexivity.
Qed.

Lemma fresh_spark_lifetime (s : Spark) :
  life s = 1%float ->
  length (animateTimes 49 [s]) = 1 /\ animateTimes 50 [s] = [].
Proof.
  destruct s as [i px py l c]. cbn [life]. intros ->.
  split; vm_compute; reflexivity.
Qed.

(** X25: a spark lives for exactly 50 ticks of [animateParticles]: of any
    sparks that all have the life 1 they are created with, all are still
    there after 49 ticks and none is left after 50. *)
Theorem sparks_live_for_50_ticks (sparks : list Spark) :
  Forall (fun s => life s = 1%float) sparks ->
  length (animateTimes 49 sparks) = length sparks /\
  animateTimes 50 sparks = [].
Proof.
  induction 1 as [|s rest Hs _ [IHalive IHgone]].
  - split; vm_compute; reflexivity.
  - change (s :: rest) with ([s] ++ rest). rewrite !animateTimes_app.
    destruct (fresh_spark_lifetime s Hs) as [Halive Hgone].
    rewrite length_app, Halive, IHalive, Hgone, IHgone. split; reflexivity.
Qed.

Lemma sparks_live_for_50_ticks_witness :
  length (animateTimes 49
            (handleScroll 0 100 1000 1280 720
               {| rndId := 0.5; rndX := 0.25; rndY := 0.5; rndColor := 0.75 |} []))
  = 1 /\
  animateTimes 50
    (handleScroll 0 100 1000 1280 720
       {| rndId := 0.5; rndX := 0.25; rndY := 0.5; rndColor := 0.75 |} []) = [].
Proof.
  apply (sparks_live_for_50_ticks
           (handleScroll 0 100 1000 1280 720
              {| rndId := 0.5; rndX := 0.25; rndY := 0.5; rndColor := 0.75 |} [])).
  vm_compute. repeat constructor.
Defined.

End SparkFacts.

Section ScrollProgressFacts.
Import PrimFloat.

(** X27: the scroll progress of [useScrollOptimized] is the one [App.jsx]
    computes whenever the document is higher than the viewport, and it is 0
    when the two heights are equal, where [App.jsx] divides by zero. *)
Theorem scroll_progress_is_guarded scrollTop scrollHeight innerHeight :
  ((0 <? scrollHeight - innerHeight)%float = true ->
   UseScrollOptimized.scrollPercent scrollTop scrollHeight innerHeight =
   App.scrollPercent scrollTop scrollHeight innerHeight) /\
  ((scrollHeight - innerHeight =? 0)%float = true ->
   UseScrollOptimized.scrollPercent scrollTop scrollHeight innerHeight = 0%float).
Proof.
  unfold UseScrollOptimized.scrollPercent, App.scrollPercent. split.
  - intros ->. reflexivity.
  - intros Hzero. apply zero_is_not_positive in Hzero. rewrite Hzero. reflexivity.
Qed.

Lemma scroll_progress_is_guarded_witness :
  UseScrollOptimized.scrollPercent 400 2400 800 = 25%float /\
  App.scrollPercent 400 2400 800 = 25%float /\
  UseScrollOptimized.scrollPercent 0 800 800 = 0%float.
Proof.
  destruct (scroll_progress_is_guarded 400 2400 800) as [Hagree _].
  destruct (scroll_progress_is_guarded 0 800 800) as [_ Hzero].
  split; [reflexivity|]. split; [|apply Hzero; reflexivity].
  rewrite <- Hagree by reflexivity. reflexivity.
Defined.

End ScrollProgressFacts.
